(** * The SSH mediator of the CPython back end (thonny/plugins/cpython_ssh/cps_back.py)

    [SshCPythonBackend] sits between the controller (Thonny's front end) and a
    worker process on a remote host.  The main thread handles the commands of
    the controller one after the other; a background thread copies the lines
    the worker prints to the controller's stream.

    The development embeds the class as a transition system.  Every method
    becomes the list of atomic statements the main thread performs for it;
    [_forward_main_responses] becomes a program counter per forwarder thread;
    [step] interleaves the main thread, the forwarder threads, the worker
    processes and the controller. *)

From Stdlib Require Import Ascii String.
From stdpp Require Import gmap strings list.

Open Scope string_scope.
Open Scope list_scope.

(** ** The operations of Python's [str] the module uses

    A character is a code point below 256. *)
Module Py.

Definition code (c : ascii) : nat := nat_of_ascii c.

Definition between (lo hi n : nat) : bool := ((lo <=? n) && (n <=? hi))%nat.

(** [c.isupper()] for a string of one character [c]. *)
Definition isupper (c : ascii) : bool :=
  between 65 90 (code c) || between 192 214 (code c) || between 216 222 (code c).

(** [c.islower()] for a string of one character [c]. *)
Definition islower (c : ascii) : bool :=
  between 97 122 (code c) || between 223 246 (code c) || between 248 255 (code c)
  || (code c =? 170)%nat || (code c =? 181)%nat || (code c =? 186)%nat.

(** [s.startswith(p)] *)
Definition startswith (s p : string) : bool := String.prefix p s.

(** [s.endswith(p)] *)
Definition endswith (s p : string) : bool :=
  String.prefix (String.rev p) (String.rev s).

(** The line boundaries of [str.splitlines] other than a carriage return:
    line feed, vertical tab, form feed, file, group and record separator,
    next line. *)
Definition is_linebreak (c : ascii) : bool :=
  let n := code c in
  ((n =? 10) || (n =? 11) || (n =? 12) || (n =? 28) || (n =? 29) || (n =? 30)
   || (n =? 133))%nat.

Definition is_cr (c : ascii) : bool := (code c =? 13)%nat.
Definition is_lf (c : ascii) : bool := (code c =? 10)%nat.

(** [splitlines_from cur s]: the lines of [cur ++ s] when [cur] holds no
    line boundary. *)
Fixpoint splitlines_from (cur s : string) : list string :=
  match s with
  | EmptyString => match cur with EmptyString => [] | _ => [cur] end
  | String c rest =>
      if is_cr c then
        match rest with
        | String d rest' =>
            if is_lf d
            then (cur +:+ String c (String d EmptyString)) :: splitlines_from "" rest'
            else (cur +:+ String c EmptyString) :: splitlines_from "" rest
        | EmptyString => [cur +:+ String c EmptyString]
        end
      else if is_linebreak c then
        (cur +:+ String c EmptyString) :: splitlines_from "" rest
      else splitlines_from (cur +:+ String c EmptyString) rest
  end.

(** [s.splitlines(keepends=True)] *)
Definition splitlines_keepends (s : string) : list string := splitlines_from "" s.

(** ["".join(ls)] *)
Definition join (ls : list string) : string := fold_right String.append "" ls.

(** [s[n:]] *)
Fixpoint drop (n : nat) (s : string) : string :=
  match n, s with
  | S k, String _ rest => drop k rest
  | _, _ => s
  end.

(** [s.replace(old, new)] for a non-empty [old]; [skip] characters of an
    occurrence just replaced are still to be passed over. *)
Fixpoint replace_from (old new : string) (skip : nat) (s : string) : string :=
  match s with
  | EmptyString => EmptyString
  | String c rest =>
      match skip with
      | S k => replace_from old new k rest
      | O =>
          if String.prefix old s
          then new +:+ replace_from old new (String.length old - 1) rest
          else String c (replace_from old new 0 rest)
      end
  end.

Definition replace (s old new : string) : string := replace_from old new 0 s.

(** The last character of a line is one of the boundaries. *)
Fixpoint ends_with_break (s : string) : bool :=
  match s with
  | EmptyString => false
  | String c EmptyString => is_cr c || is_linebreak c
  | String _ rest => ends_with_break rest
  end.

(** Every line but the last ends with a boundary. *)
Fixpoint breaks_between (ls : list string) : bool :=
  match ls with
  | [] => true
  | l :: rest =>
      match rest with
      | [] => true
      | _ :: _ => ends_with_break l && breaks_between rest
      end
  end.

End Py.

(** ** Data *)

(** The threads that touch the mediator's fields: the main thread and the
    forwarder threads, numbered in the order they are started. *)
Inductive tid :=
| TMain
| TRelay (t : nat).

Global Instance tid_eq_dec : EqDecision tid.
Proof. solve_decision. Defined.

(** A command record: [cmd.name] and the other fields, looked up with
    ["key" in cmd] and [cmd["key"]].  A response, which is a dict, and a
    message to the controller, which is a record, are maps from field names
    to values as well: [gmap string string]. *)
Record command := Command {
  name : string;
  fields : gmap string string
}.

(** The messages the main loop receives from the controller. *)
Inductive incoming :=
| EOFCommand
| InputSubmission (data : string)
| CommandToBackend (cmd : command)
| ImmediateCommand (cmd : command).

(** Exceptions.  [except Exception] catches the first kind only;
    [KeyboardInterrupt], [SystemExit] and [GeneratorExit] are of the second. *)
Inductive exn :=
| ExceptionOf (cls msg : string)
| BaseExceptionOf (cls msg : string).

Definition is_Exception (e : exn) : bool :=
  match e with
  | ExceptionOf _ _ => true
  | BaseExceptionOf _ _ => false
  end.

(** [str(e)] *)
Definition str (e : exn) : string :=
  match e with
  | ExceptionOf _ msg => msg
  | BaseExceptionOf _ msg => msg
  end.

Definition IndexError : exn := ExceptionOf "IndexError" "string index out of range".
Definition AttributeError : exn := ExceptionOf "AttributeError" "'NoneType' object has no attribute".
Definition KeyboardInterrupt : exn := BaseExceptionOf "KeyboardInterrupt" "".

(** What a call [handler(cmd)] does. *)
Inductive outcome :=
| Returns (r : gmap string string)
| Raises (e : exn).

(** What is written to the worker's standard input. *)
Inductive stdin_op :=
| SWrite (s : string)
| SFlush.

(** What is written to the controller's stream: a message of the mediator
    itself, or a line read from worker [p]. *)
Inductive payload :=
| Direct (m : gmap string string)
| Relayed (p : nat) (l : string).

Inductive out_op :=
| OWrite (x : payload)
| OFlush.

Inductive lock_name :=
| ResponseLock
| InterruptLock.

(** The observable events, in the order they happen. *)
Inductive event :=
| EReceive (m : incoming)
| ESetCwd (c : string)
| EKill (p : nat)
| EClearProc
| EJoin (t : nat)
| ESetFresh
| ESpawn (p : nat) (args : list string) (cwd : string) (env : list (string * string))
| EStartForwarder (t : nat)
| EInvoke (attr : string) (cmd : command)
| ERaise (e : exn)
| EAcquire (l : lock_name)
| ERelease (l : lock_name)
| EOut (x : out_op)
| EStdin (p : nat) (x : stdin_op)
| EShellInterrupt (cmd : command)
| ELocalInterrupt
| ERead (p : nat) (l : string)
| EDiscard (l : string)
| EClearFresh
| ERelayExit
| ERelayCrash.

(** The atomic statements of the main thread. *)
Inductive instr :=
| ISetCwd (c : string)        (* self._cwd = cmd["expected_cwd"] *)
| IKill                       (* self._proc.kill() *)
| IClearProc                  (* self._proc = None *)
| IJoin                       (* self._response_forwarder.join() *)
| ISetFresh                   (* self._main_backend_is_fresh = True *)
| ICreateProc                 (* self._proc = self._create_remote_process(...) *)
| IStartForwarder             (* self._response_forwarder = Thread(...); start() *)
| IInvoke (attr : string) (cmd : command) (* handler(cmd), returned or caught *)
| IRaise (e : exn)            (* an exception nothing in this class catches *)
| IAcquireResp                (* with self._response_lock: *)
| IWriteMsg (m : gmap string string)    (* sys.stdout.write of the serialized message *)
| IFlushMsg                   (* sys.stdout.flush() *)
| IReleaseResp                (* end of the with block *)
| IStdinWrite (s : string)    (* self._proc.stdin.write(s) *)
| IStdinFlush                 (* self._proc.stdin.flush() *)
| IShellInterrupt (cmd : command) (* SshMixin._handle_immediate_command(self, cmd) *)
| IAcquireInt                 (* with self._interrupt_lock: *)
| ILocalInterrupt             (* interrupt_local_process() *)
| IReleaseInt.                (* end of the with block *)

(** Where a forwarder thread stands in [_forward_main_responses]. *)
Inductive relay_pc :=
| RLoop                          (* while: self._proc is not None *)
| RPoll                          (* while: self._proc.poll() is None *)
| RLoad                          (* self._proc.stdout *)
| RReadline (p : nat)            (* inside readline() on worker p's output *)
| RFilter (p : nat) (l : string) (* if fresh and looks_like_echo(line) / if not line *)
| RAcquire (p : nat) (l : string) (* with self._response_lock: *)
| RWrite (p : nat) (l : string)  (* sys.stdout.write(line) *)
| RFlush (p : nat) (l : string)  (* sys.stdout.flush() *)
| RClearFresh (p : nat) (l : string) (* self._main_backend_is_fresh = False *)
| RRelease                       (* end of the with block *)
| RDone                          (* the loop was left *)
| RCrashed.                      (* an AttributeError ended the thread *)

(** A worker process as the mediator sees it: whether [poll()] is still
    [None], and the lines of its output not read yet. *)
Record rproc := RProc {
  alive : bool;
  stdout_buf : list string
}.

(** The fields of the [SshCPythonBackend] object, the worker processes and
    threads it created, what is left of the main thread's current command,
    and the events so far. *)
Record state := State {
  _cwd : string;
  _proc : option nat;
  _main_backend_is_fresh : bool;
  _response_lock : option tid;
  _interrupt_lock : option tid;
  _response_forwarder : nat;
  procs : list rproc;
  threads : list relay_pc;
  main : list instr;
  trace : list (tid * event)
}.

(** What the environment and the scheduler can do next. *)
Inductive label :=
| LMain                        (* the main thread performs its next statement *)
| LRelay (t : nat)             (* forwarder thread t performs its next statement *)
| LEmit (p : nat) (l : string) (* worker p prints a line *)
| LExit (p : nat)              (* worker p exits by itself *)
| LCommand (m : incoming).     (* the main loop fetches the next message *)

(** The remote host's file system as the upload sees it: what exists at a
    path, and the files put there so far, as pairs of a local and a remote
    path. *)
Inductive node :=
| Directory
| RegularFile.

Record remote := Remote {
  rfs : gmap string node;
  uploads : list (string * string)
}.

(** The local installation the upload copies from: [os.path.dirname] and the
    [__file__] of the modules of the worker's runtime. *)
Record installation := Installation {
  os_path_dirname : string -> string;
  thonny_file : string;
  thonny_common_file : string;
  thonny_ast_utils_file : string;
  thonny_jedi_utils_file : string;
  thonny_backend_file : string;
  cpython_backend_file : string;
  cp_back_file : string
}.

(** ** Updating the state *)

Definition set_cwd (c : string) (st : state) : state :=
  State c (_proc st) (_main_backend_is_fresh st) (_response_lock st) (_interrupt_lock st)
        (_response_forwarder st) (procs st) (threads st) (main st) (trace st).

Definition set_proc (p : option nat) (st : state) : state :=
  State (_cwd st) p (_main_backend_is_fresh st) (_response_lock st) (_interrupt_lock st)
        (_response_forwarder st) (procs st) (threads st) (main st) (trace st).

Definition set_fresh (b : bool) (st : state) : state :=
  State (_cwd st) (_proc st) b (_response_lock st) (_interrupt_lock st)
        (_response_forwarder st) (procs st) (threads st) (main st) (trace st).

Definition set_response_lock (h : option tid) (st : state) : state :=
  State (_cwd st) (_proc st) (_main_backend_is_fresh st) h (_interrupt_lock st)
        (_response_forwarder st) (procs st) (threads st) (main st) (trace st).

Definition set_interrupt_lock (h : option tid) (st : state) : state :=
  State (_cwd st) (_proc st) (_main_backend_is_fresh st) (_response_lock st) h
        (_response_forwarder st) (procs st) (threads st) (main st) (trace st).

Definition set_forwarder (t : nat) (st : state) : state :=
  State (_cwd st) (_proc st) (_main_backend_is_fresh st) (_response_lock st) (_interrupt_lock st)
        t (procs st) (threads st) (main st) (trace st).

Definition set_procs (ps : list rproc) (st : state) : state :=
  State (_cwd st) (_proc st) (_main_backend_is_fresh st) (_response_lock st) (_interrupt_lock st)
        (_response_forwarder st) ps (threads st) (main st) (trace st).

Definition set_threads (ts : list relay_pc) (st : state) : state :=
  State (_cwd st) (_proc st) (_main_backend_is_fresh st) (_response_lock st) (_interrupt_lock st)
        (_response_forwarder st) (procs st) ts (main st) (trace st).

Definition set_main (k : list instr) (st : state) : state :=
  State (_cwd st) (_proc st) (_main_backend_is_fresh st) (_response_lock st) (_interrupt_lock st)
        (_response_forwarder st) (procs st) (threads st) k (trace st).

Definition emit (who : tid) (e : event) (st : state) : state :=
  State (_cwd st) (_proc st) (_main_backend_is_fresh st) (_response_lock st) (_interrupt_lock st)
        (_response_forwarder st) (procs st) (threads st) (main st) (trace st ++ [(who, e)]).

Definition goto (t : nat) (pc : relay_pc) (st : state) : state :=
  set_threads (<[t := pc]> (threads st)) st.

(** A lock a thread holds is released when an exception leaves its [with]
    block. *)
Definition unlock_of (who : tid) (h : option tid) : option tid :=
  match h with
  | Some w => if decide (w = who) then None else h
  | None => None
  end.

(** An exception leaves the command the main thread is handling. *)
Definition raise_main (e : exn) (st : state) : state :=
  set_main []
    (set_response_lock (unlock_of TMain (_response_lock st))
       (set_interrupt_lock (unlock_of TMain (_interrupt_lock st))
          (emit TMain (ERaise e) st))).

Definition terminated (pc : relay_pc) : bool :=
  match pc with
  | RDone | RCrashed => true
  | _ => false
  end.

(** ** An installation to run the class on *)
Module Demo.

Definition interpreter : string := "python3".
Definition user : string := "pi".
Definition cwd : string := "/home/pi".
Definition release : string := "4.1.0".
Definition development : string := "4.1.0-dev".

Definition newline : string := String "010" "".

(** A codec that writes the kind of the message and, for a command, its
    name, on a line of its own. *)
Definition serialize (m : incoming) (chunk : nat) : string :=
  match m with
  | EOFCommand => "EOF" +:+ newline
  | InputSubmission data => "input " +:+ data +:+ newline
  | CommandToBackend cmd => "command " +:+ name cmd +:+ newline
  | ImmediateCommand cmd => "immediate " +:+ name cmd +:+ newline
  end.

(** Four local handlers: one fails with an [OSError], one answers, and two
    are interrupted while they run. *)
Definition getattr (attr : string) : option (command -> outcome) :=
  if decide (attr = "_cmd_stat_path")
  then Some (fun _ => Raises (ExceptionOf "OSError" "No such file"))
  else if decide (attr = "_cmd_Ping")
  then Some (fun _ => Returns {[ "pong" := "1" ]})
  else if decide (attr = "_cmd_read_file")
  then Some (fun _ => Raises KeyboardInterrupt)
  else if decide (attr = "_cmd_Upload")
  then Some (fun _ => Raises KeyboardInterrupt)
  else None.

Definition prepare (response : gmap string string) (cmd : command) : gmap string string :=
  <[ "command_name" := name cmd ]> response.

Definition no_fields : gmap string string := ∅.

Definition Execute : command := Command "Execute" {[ "expected_cwd" := "/proj" ]}.
Definition run_id_123 : command := Command "run_id_123" no_fields.
Definition stat_path : command := Command "stat_path" no_fields.
Definition read_file : command := Command "read_file" no_fields.
Definition Ping : command := Command "Ping" no_fields.
Definition nameless : command := Command "" no_fields.

Definition result_line : string := "result" +:+ newline.
Definition echo_line : string := "^Bcommand Execute" +:+ newline.
Definition late_line : string := "^B is what the program printed" +:+ newline.

(** The forwarder enters [readline] and the worker prints a line; before
    the forwarder gets to run again the main thread receives [Execute],
    adopts the directory, kills the worker and clears the handle. *)
Definition discard_while_reading : list label :=
  [LRelay 0; LRelay 0; LRelay 0; LEmit 0 result_line;
   LCommand (CommandToBackend Execute); LMain; LMain; LMain].

(** The forwarder goes on: [readline] returns the line, the forwarder takes
    the lock, writes the line and flushes it. *)
Definition relay_goes_on : list label :=
  [LRelay 0; LRelay 0; LRelay 0; LRelay 0; LRelay 0].

(** The worker prints an echo, a result and a line that looks like an echo;
    the forwarder handles the three of them. *)
Definition three_lines : list label :=
  [LEmit 0 echo_line; LEmit 0 result_line; LEmit 0 late_line]
  ++ replicate 5 (LRelay 0)      (* the echo: dropped *)
  ++ replicate 10 (LRelay 0)     (* the result: written, the flag cleared *)
  ++ replicate 10 (LRelay 0).    (* the late line: written *)

(** The worker prints a line; the forwarder reads it, takes the lock and is
    about to write it. *)
Definition about_to_write : list label :=
  [LEmit 0 result_line; LRelay 0; LRelay 0; LRelay 0; LRelay 0; LRelay 0; LRelay 0].

(** The main thread performs all of a restart; the forwarder ends when it
    finds the handle cleared. *)
Definition restart_schedule : list label :=
  [LMain; LMain; LRelay 0; LMain; LMain; LMain; LMain].

(** The main thread handles [Execute]: it adopts the directory, restarts
    and forwards the command in two lines. *)
Definition execute_schedule : list label :=
  LMain :: restart_schedule ++ [LMain; LMain; LMain].

(** The main thread handles a command with a local handler that answers or
    fails: the call and the four statements of [send_message]. *)
Definition local_schedule : list label := [LMain; LMain; LMain; LMain; LMain].

(** The main thread handles a command with a local handler that is
    interrupted: the call and the exception. *)
Definition interrupted_schedule : list label := [LMain; LMain].

Definition install : installation :=
  Installation
    (fun path => match path with
                 | "/opt/thonny/thonny/__init__.py" => "/opt/thonny/thonny"
                 | _ => "/opt/thonny"
                 end)
    "/opt/thonny/thonny/__init__.py"
    "/opt/thonny/thonny/common.py"
    "/opt/thonny/thonny/ast_utils.py"
    "/opt/thonny/thonny/jedi_utils.py"
    "/opt/thonny/thonny/backend.py"
    "/opt/thonny/thonny/plugins/cpython_backend/__init__.py"
    "/opt/thonny/thonny/plugins/cpython_backend/cp_back.py".

Definition empty_host : remote := Remote ∅ [].

(** The main thread handles [Execute] to its end. *)
Definition execute_run : list label :=
  LCommand (CommandToBackend Execute) :: execute_schedule.

(** The same command handled in two interleavings: the main thread alone,
    and with the forwarder and the worker at work between its statements. *)
Definition forward_alone : list label := [LMain; LMain; LMain].

Definition forward_among : list label :=
  [LRelay 0; LMain; LRelay 0; LMain; LEmit 0 result_line; LMain; LRelay 0].

(** The forwarder holds the response lock, about to write a line, when the
    main thread has called the handler of [stat_path] and wants to answer. *)
Definition answer_while_relaying : list label :=
  about_to_write ++ [LCommand (CommandToBackend stat_path); LMain].

(** The worker prints two lines and ends before the forwarder has passed
    the test of its loop; the forwarder then runs. *)
Definition exit_unread : list label :=
  [LEmit 0 result_line; LEmit 0 late_line; LExit 0].

Definition relay_ends : list label := [LRelay 0; LRelay 0].

End Demo.

(** ** The class *)

Section SshCPythonBackend.

(** The arguments of the constructor and the version of the tool. *)
Variable _target_interpreter : string.
Variable _user : string.
Variable get_version : string.

(** [thonny.common.serialize_message], the codec. *)
Variable serialize_message : incoming -> nat -> string.

(** [getattr(self, attr, None)] on the attributes that are methods taking a
    command: the local handlers, which [SshMixin] defines. *)
Variable getattr_self : string -> option (command -> outcome).

(** [BaseBackend._prepare_command_response] *)
Variable _prepare_command_response : gmap string string -> command -> gmap string string.

Definition _looks_like_echo (line : string) : bool := Py.startswith line "^B".

Definition _get_remote_program_directory : string :=
  "/tmp/thonny-backend-" +:+ get_version +:+ "-" +:+ _user.

(** The command line and the environment [_start_main_backend] passes on. *)
Definition launch_args (cwd : string) : list string :=
  [_target_interpreter; "-m"; "thonny.plugins.cpython_backend.cp_launcher"; cwd].

Definition launch_env : list (string * string) :=
  [("THONNY_USER_DIR", "~/.config/Thonny"); ("THONNY_FRONTEND_SYS_PATH", "[]")].

(** *** The methods the main thread runs *)

(** [send_message]: under the response lock, [BaseBackend.send_message].
    Modelled from the spec: [BaseBackend.send_message], which is defined
    outside this file, writes the message in its serialized form to the
    controller's stream and flushes it. *)
Definition send_message (msg : gmap string string) : list instr :=
  [IAcquireResp; IWriteMsg msg; IFlushMsg; IReleaseResp].

Definition _forward_incoming_command (msg : incoming) : list instr :=
  let msg_str := serialize_message msg 1024 in
  flat_map (fun line => [IStdinWrite line; IStdinFlush]) (Py.splitlines_keepends msg_str)
  ++ [IStdinWrite (String "010" "")].

Definition _handle_eof_command (msg : incoming) : list instr :=
  _forward_incoming_command msg.

Definition _handle_user_input (msg : incoming) : list instr :=
  _forward_incoming_command msg.

(** [_start_main_backend] sets the flag and returns the new process; the
    caller assigns it to [self._proc]. *)
Definition _start_main_backend : list instr := [ISetFresh; ICreateProc].

Definition _start_response_forwarder : list instr := [IStartForwarder].

Definition _restart_main_backend : list instr :=
  [IKill; IClearProc; IJoin] ++ _start_main_backend ++ _start_response_forwarder.

(** The [try] block around [handler(cmd)]. *)
Definition call_handler (handler : command -> outcome) (cmd : command) : list instr :=
  match handler cmd with
  | Returns response =>
      IInvoke ("_cmd_" +:+ name cmd) cmd
      :: send_message (_prepare_command_response response cmd)
  | Raises e =>
      if is_Exception e then
        IInvoke ("_cmd_" +:+ name cmd) cmd
        :: send_message (_prepare_command_response {[ "error" := str e ]} cmd)
      else [IInvoke ("_cmd_" +:+ name cmd) cmd; IRaise e]
  end.

Definition _handle_normal_command (cmd : command) : list instr :=
  match name cmd with
  | EmptyString => [IRaise IndexError]
  | String c _ =>
      (if Py.isupper c then
         match fields cmd !! "expected_cwd" with
         | Some d => [ISetCwd d]
         | None => []
         end ++ _restart_main_backend
       else [])
      ++ match getattr_self ("_cmd_" +:+ name cmd) with
         | Some handler => call_handler handler cmd
         | None => _forward_incoming_command (CommandToBackend cmd)
         end
  end.

Definition _handle_immediate_command (cmd : command) : list instr :=
  [IShellInterrupt cmd; IAcquireInt; ILocalInterrupt;
   IStdinWrite (String "003" ""); IReleaseInt].

(** Modelled from the spec: the main loop of [BaseBackend], which is defined
    outside this file, takes the messages of the controller one at a time and
    calls the handler of the message's kind; the interrupt request is
    triggered from the main loop as well. *)
Definition dispatch (m : incoming) : list instr :=
  match m with
  | EOFCommand => _handle_eof_command m
  | InputSubmission _ => _handle_user_input m
  | CommandToBackend cmd => _handle_normal_command cmd
  | ImmediateCommand cmd => _handle_immediate_command cmd
  end.

(** The part of [__init__] on the worker: start it, set the flag, start the
    forwarder. *)
Definition init_worker : list instr :=
  _start_main_backend ++ [ISetFresh] ++ _start_response_forwarder.

(** *** One statement of the main thread

    [None] means the statement blocks. *)
Definition exec_instr (i : instr) (st : state) : option state :=
  match i with
  | ISetCwd c => Some (emit TMain (ESetCwd c) (set_cwd c st))
  | IKill =>
      match _proc st with
      | Some p =>
          Some (emit TMain (EKill p)
                  (set_procs (alter (fun pr => RProc false (stdout_buf pr)) p (procs st)) st))
      | None => Some (raise_main AttributeError st)
      end
  | IClearProc => Some (emit TMain EClearProc (set_proc None st))
  | IJoin =>
      match threads st !! _response_forwarder st with
      | Some pc =>
          if terminated pc then Some (emit TMain (EJoin (_response_forwarder st)) st)
          else None
      | None => Some (raise_main AttributeError st)
      end
  | ISetFresh => Some (emit TMain ESetFresh (set_fresh true st))
  | ICreateProc =>
      let p := length (procs st) in
      Some (emit TMain
              (ESpawn p (launch_args (_cwd st)) _get_remote_program_directory launch_env)
              (set_proc (Some p) (set_procs (procs st ++ [RProc true []]) st)))
  | IStartForwarder =>
      let t := length (threads st) in
      Some (emit TMain (EStartForwarder t)
              (set_forwarder t (set_threads (threads st ++ [RLoop]) st)))
  | IInvoke a cmd => Some (emit TMain (EInvoke a cmd) st)
  | IRaise e => Some (raise_main e st)
  | IAcquireResp =>
      match _response_lock st with
      | None => Some (emit TMain (EAcquire ResponseLock) (set_response_lock (Some TMain) st))
      | Some _ => None
      end
  | IWriteMsg m => Some (emit TMain (EOut (OWrite (Direct m))) st)
  | IFlushMsg => Some (emit TMain (EOut OFlush) st)
  | IReleaseResp => Some (emit TMain (ERelease ResponseLock) (set_response_lock None st))
  | IStdinWrite s =>
      match _proc st with
      | Some p => Some (emit TMain (EStdin p (SWrite s)) st)
      | None => Some (raise_main AttributeError st)
      end
  | IStdinFlush =>
      match _proc st with
      | Some p => Some (emit TMain (EStdin p SFlush) st)
      | None => Some (raise_main AttributeError st)
      end
  | IShellInterrupt cmd => Some (emit TMain (EShellInterrupt cmd) st)
  | IAcquireInt =>
      match _interrupt_lock st with
      | None => Some (emit TMain (EAcquire InterruptLock) (set_interrupt_lock (Some TMain) st))
      | Some _ => None
      end
  | ILocalInterrupt => Some (emit TMain ELocalInterrupt st)
  | IReleaseInt => Some (emit TMain (ERelease InterruptLock) (set_interrupt_lock None st))
  end.

Definition step_main (st : state) : option state :=
  match main st with
  | [] => None
  | i :: k => exec_instr i (set_main k st)
  end.

(** *** One statement of forwarder thread [t]

    [_forward_main_responses], statement by statement: the thread evaluates
    the two operands of [_should_keep_going], loads [self._proc] for its
    stream, reads a line, filters it, and writes it under the response lock.
    [None] means the thread blocks or has ended. *)
Definition _forward_main_responses (t : nat) (st : state) : option state :=
  match threads st !! t with
  | None => None
  | Some pc =>
      let me := TRelay t in
      match pc with
      | RLoop =>
          match _proc st with
          | Some _ => Some (goto t RPoll st)
          | None => Some (goto t RDone (emit me ERelayExit st))
          end
      | RPoll =>
          match _proc st with
          | Some p =>
              match procs st !! p with
              | Some pr =>
                  if alive pr then Some (goto t RLoad st)
                  else Some (goto t RDone (emit me ERelayExit st))
              | None => None
              end
          | None => Some (goto t RCrashed (emit me ERelayCrash st))
          end
      | RLoad =>
          match _proc st with
          | Some p => Some (goto t (RReadline p) st)
          | None => Some (goto t RCrashed (emit me ERelayCrash st))
          end
      | RReadline p =>
          match procs st !! p with
          | Some pr =>
              match stdout_buf pr with
              | l :: rest =>
                  Some (goto t (RFilter p l)
                          (emit me (ERead p l)
                             (set_procs (<[p := RProc (alive pr) rest]> (procs st)) st)))
              | [] =>
                  if alive pr then None
                  else Some (goto t (RFilter p "") (emit me (ERead p "") st))
              end
          | None => None
          end
      | RFilter p l =>
          if _main_backend_is_fresh st && _looks_like_echo l
          then Some (goto t RLoop (emit me (EDiscard l) st))
          else if decide (l = "")
          then Some (goto t RDone (emit me ERelayExit st))
          else Some (goto t (RAcquire p l) st)
      | RAcquire p l =>
          match _response_lock st with
          | None =>
              Some (goto t (RWrite p l)
                      (emit me (EAcquire ResponseLock) (set_response_lock (Some me) st)))
          | Some _ => None
          end
      | RWrite p l => Some (goto t (RFlush p l) (emit me (EOut (OWrite (Relayed p l))) st))
      | RFlush p l => Some (goto t (RClearFresh p l) (emit me (EOut OFlush) st))
      | RClearFresh p l => Some (goto t RRelease (emit me EClearFresh (set_fresh false st)))
      | RRelease =>
          Some (goto t RLoop (emit me (ERelease ResponseLock) (set_response_lock None st)))
      | RDone => None
      | RCrashed => None
      end
  end.

(** *** The interleaving *)

Definition step (l : label) (st : state) : option state :=
  match l with
  | LMain => step_main st
  | LRelay t => _forward_main_responses t st
  | LEmit p line =>
      match procs st !! p with
      | Some pr =>
          if alive pr && negb (bool_decide (line = ""))
          then Some (set_procs (<[p := RProc true (stdout_buf pr ++ [line])]> (procs st)) st)
          else None
      | None => None
      end
  | LExit p =>
      match procs st !! p with
      | Some pr =>
          if alive pr
          then Some (set_procs (<[p := RProc false (stdout_buf pr)]> (procs st)) st)
          else None
      | None => None
      end
  | LCommand m =>
      match main st with
      | [] => Some (set_main (dispatch m) (emit TMain (EReceive m) st))
      | _ :: _ => None
      end
  end.

Fixpoint run (ls : list label) (st : state) : option state :=
  match ls with
  | [] => Some st
  | l :: ls' =>
      match step l st with
      | Some st' => run ls' st'
      | None => None
      end
  end.

(** The object when [__init__] starts on the worker, and when it is done. *)
Definition boot (cwd : string) : state :=
  State cwd None false None None 0 [] [] init_worker [].

Definition initial (cwd : string) : state :=
  State cwd (Some 0) true None None 0 [RProc true []] [RLoop] []
    [(TMain, ESetFresh);
     (TMain, ESpawn 0 (launch_args cwd) _get_remote_program_directory launch_env);
     (TMain, ESetFresh);
     (TMain, EStartForwarder 0)].

Definition reachable (cwd : string) (st : state) : Prop :=
  exists ls, run ls (initial cwd) = Some st.

(** *** What holds in every reachable state *)

(** Where the main thread stands: between statements outside any block,
    inside [_restart_main_backend] after each of its statements, or inside
    one of the two [with] blocks. *)
Inductive mode :=
| MNormal | MKilled | MCleared | MJoined | MFresh | MCreated
| MLocked | MWritten | MFlushed | MInt.

Definition next_mode (m : mode) (i : instr) : option mode :=
  match m, i with
  | MNormal, (ISetCwd _ | IInvoke _ _ | IShellInterrupt _ | IStdinWrite _ | IStdinFlush) =>
      Some MNormal
  | MNormal, IKill => Some MKilled
  | MKilled, IClearProc => Some MCleared
  | MCleared, IJoin => Some MJoined
  | MJoined, ISetFresh => Some MFresh
  | MFresh, ICreateProc => Some MCreated
  | MCreated, IStartForwarder => Some MNormal
  | MNormal, IAcquireResp => Some MLocked
  | MLocked, IWriteMsg _ => Some MWritten
  | MWritten, IFlushMsg => Some MFlushed
  | MFlushed, IReleaseResp => Some MNormal
  | MNormal, IAcquireInt => Some MInt
  | MInt, (ILocalInterrupt | IStdinWrite _ | IStdinFlush) => Some MInt
  | MInt, IReleaseInt => Some MNormal
  | _, _ => None
  end.

Definition may_raise (m : mode) : bool :=
  match m with
  | MNormal => true
  | _ => false
  end.

(** The main thread is inside the [with] block of [send_message]. *)
Definition in_send (m : mode) : bool :=
  match m with
  | MLocked | MWritten | MFlushed => true
  | _ => false
  end.

(** The statements left to the main thread fit the place it stands at. *)
Fixpoint wf (m : mode) (p : list instr) : bool :=
  match p with
  | [] => match m with MNormal => true | _ => false end
  | IRaise _ :: _ => may_raise m
  | i :: k =>
      match next_mode m i with
      | Some m' => wf m' k
      | None => false
      end
  end.

Definition critical (pc : relay_pc) : bool :=
  match pc with
  | RWrite _ _ | RFlush _ _ | RClearFresh _ _ | RRelease => true
  | _ => false
  end.

(** The worker whose stream or line the thread has in hand. *)
Definition holds (pc : relay_pc) : option nat :=
  match pc with
  | RReadline p | RFilter p _ | RAcquire p _ | RWrite p _ | RFlush p _
  | RClearFresh p _ => Some p
  | _ => None
  end.

Definition all_terminated (ts : list relay_pc) : Prop :=
  forall t pc, ts !! t = Some pc -> terminated pc = true.

Definition newest_dead (ps : list rproc) : Prop :=
  forall p pr, ps !! p = Some pr -> S p = length ps -> alive pr = false.

Definition phase_inv (m : mode) (st : state) : Prop :=
  match m with
  | MKilled => is_Some (_proc st) /\ newest_dead (procs st)
  | MCleared => _proc st = None /\ newest_dead (procs st)
  | MJoined => _proc st = None /\ all_terminated (threads st)
  | MFresh =>
      _proc st = None /\ all_terminated (threads st)
      /\ _main_backend_is_fresh st = true
  | MCreated =>
      is_Some (_proc st) /\ all_terminated (threads st)
      /\ _main_backend_is_fresh st = true
  | MNormal | MLocked | MWritten | MFlushed | MInt => is_Some (_proc st)
  end.

Definition mode_inv (m : mode) (st : state) : Prop :=
  wf m (main st) = true
  /\ phase_inv m st
  /\ (_response_lock st = Some TMain <-> in_send m = true)
  /\ _interrupt_lock st = match m with MInt => Some TMain | _ => None end.

(** The forwarder threads: only the one [self._response_forwarder] names can
    still run, a thread reads the newest worker only, and the response lock
    is held by a forwarder exactly while it is inside its [with] block. *)
Record tinv (ts : list relay_pc) (lock : option tid) (nprocs fwd : nat) : Prop := TInv {
  inv_forwarder : fwd < length ts;
  inv_old : forall t pc, ts !! t = Some pc -> t <> fwd -> terminated pc = true;
  inv_held : forall t pc p, ts !! t = Some pc -> holds pc = Some p -> S p = nprocs;
  inv_crit : forall t pc, ts !! t = Some pc -> critical pc = true -> lock = Some (TRelay t);
  inv_lock :
    forall t, lock = Some (TRelay t) -> exists pc, ts !! t = Some pc /\ critical pc = true
}.

Record inv (st : state) : Prop := Inv {
  inv_mode : exists m, mode_inv m st;
  inv_proc : forall p, _proc st = Some p -> S p = length (procs st);
  inv_threads :
    tinv (threads st) (_response_lock st) (length (procs st)) (_response_forwarder st)
}.

(** What a statement of thread [t] may do to the response lock. *)
Definition lock_move (t : nat) (pc pc' : relay_pc) (lock lock' : option tid) : Prop :=
  (lock' = lock /\ critical pc' = critical pc)
  \/ (lock = None /\ lock' = Some (TRelay t) /\ critical pc' = true)
  \/ (critical pc = true /\ lock' = None /\ critical pc' = false).

(** The statements that leave the main thread between blocks. *)
Definition plain (i : instr) : bool :=
  match i with
  | ISetCwd _ | IInvoke _ _ | IShellInterrupt _ | IStdinWrite _ | IStdinFlush => true
  | _ => false
  end.

(** *** The controller's stream *)

(** Who wrote what to the controller's stream, in order. *)
Definition controller_stream (tr : list (tid * event)) : list (tid * out_op) :=
  omap (fun we => match we.2 with EOut x => Some (we.1, x) | _ => None end) tr.

(** A stream of whole messages: each is a write followed by the flush of
    the same thread. *)
Fixpoint complete (s : list (tid * out_op)) : bool :=
  match s with
  | [] => true
  | (w, OWrite _) :: (w', OFlush) :: rest => bool_decide (w = w') && complete rest
  | _ => false
  end.

(** The same, when the last message may still wait for its flush. *)
Fixpoint atomic (s : list (tid * out_op)) : bool :=
  match s with
  | [] => true
  | [(_, OWrite _)] => true
  | (w, OWrite _) :: (w', OFlush) :: rest => bool_decide (w = w') && atomic rest
  | _ => false
  end.

(** The thread is inside its [with self._response_lock] block. *)
Definition in_block (st : state) (who : tid) : bool :=
  match who with
  | TMain =>
      match main st with
      | (IWriteMsg _ | IFlushMsg | IReleaseResp) :: _ => true
      | _ => false
      end
  | TRelay t =>
      match threads st !! t with
      | Some pc => critical pc
      | None => false
      end
  end.

(** The thread has written a message and not flushed it yet. *)
Definition at_flush (st : state) (who : tid) : bool :=
  match who with
  | TMain => match main st with IFlushMsg :: _ => true | _ => false end
  | TRelay t => match threads st !! t with Some (RFlush _ _) => true | _ => false end
  end.

Definition sinv (st : state) : Prop :=
  let s := controller_stream (trace st) in
  match _response_lock st with
  | Some w =>
      if at_flush st w
      then exists s0 x, s = s0 ++ [(w, OWrite x)] /\ complete s0 = true
      else complete s = true
  | None => complete s = true
  end.

Definition flushing (pc : relay_pc) : bool :=
  match pc with
  | RFlush _ _ => true
  | _ => false
  end.

(** The thread a step belongs to. *)
Definition actor (l : label) : option tid :=
  match l with
  | LMain => Some TMain
  | LRelay t => Some (TRelay t)
  | LCommand _ => Some TMain
  | LEmit _ _ | LExit _ => None
  end.

(** *** Whose lines are relayed *)

(** The worker whose line a forwarder read or wrote to the controller. *)
Definition line_of (e : event) : option nat :=
  match e with
  | ERead p _ => Some p
  | EOut (OWrite (Relayed p _)) => Some p
  | _ => None
  end.

(** The worker an event starts. *)
Definition spawn_of (e : event) : option nat :=
  match e with
  | ESpawn p _ _ _ => Some p
  | _ => None
  end.

(** Once worker [p] is started, the forwarders touch no line of a worker
    started before it; the workers started before it have smaller numbers. *)
Definition no_stale_lines (nprocs : nat) (tr : list (tid * event)) : Prop :=
  forall pre post w e p,
    tr = pre ++ (w, e) :: post -> spawn_of e = Some p ->
    p < nprocs
    /\ (forall w' e' q, (w', e') ∈ post -> line_of e' = Some q -> p <= q)
    /\ (forall w' e' p0, (w', e') ∈ pre -> spawn_of e' = Some p0 -> p0 < p).

(** *** How far a forwarder is from the end of its loop once its worker is
    gone: the statements it still performs at most. *)
Definition steps_left (pc : relay_pc) : nat :=
  match pc with
  | RDone | RCrashed => 0
  | RLoop | RPoll | RLoad => 1
  | RRelease => 2
  | RClearFresh _ _ => 3
  | RFlush _ _ => 4
  | RWrite _ _ => 5
  | RAcquire _ _ => 6
  | RFilter _ _ => 7
  | RReadline _ => 8
  end.

Definition is_relay (l : label) : bool :=
  match l with
  | LRelay _ => true
  | _ => false
  end.

Definition is_command (l : label) : bool :=
  match l with
  | LCommand _ => true
  | _ => false
  end.

(** A schedule in which the main loop fetches no further message. *)
Definition no_command (ls : list label) : Prop := Forall (fun l => is_command l = false) ls.

(** *** The main thread on its own

    The fields only the main thread changes, and the numbers of workers and
    threads it has created. *)
Record mview := MView {
  v_cwd : string;
  v_proc : option nat;
  v_nprocs : nat;
  v_nthreads : nat;
  v_forwarder : nat
}.

Definition view (st : state) : mview :=
  MView (_cwd st) (_proc st) (length (procs st)) (length (threads st))
        (_response_forwarder st).

(** The event a statement of the main thread produces, the view it leaves,
    and whether it raised. *)
Definition mexec (i : instr) (v : mview) : event * mview * bool :=
  match i with
  | ISetCwd c =>
      (ESetCwd c, MView c (v_proc v) (v_nprocs v) (v_nthreads v) (v_forwarder v), false)
  | IKill =>
      match v_proc v with
      | Some p => (EKill p, v, false)
      | None => (ERaise AttributeError, v, true)
      end
  | IClearProc =>
      (EClearProc, MView (v_cwd v) None (v_nprocs v) (v_nthreads v) (v_forwarder v), false)
  | IJoin =>
      if decide (v_forwarder v < v_nthreads v)
      then (EJoin (v_forwarder v), v, false)
      else (ERaise AttributeError, v, true)
  | ISetFresh => (ESetFresh, v, false)
  | ICreateProc =>
      (ESpawn (v_nprocs v) (launch_args (v_cwd v)) _get_remote_program_directory launch_env,
       MView (v_cwd v) (Some (v_nprocs v)) (S (v_nprocs v)) (v_nthreads v) (v_forwarder v),
       false)
  | IStartForwarder =>
      (EStartForwarder (v_nthreads v),
       MView (v_cwd v) (v_proc v) (v_nprocs v) (S (v_nthreads v)) (v_nthreads v),
       false)
  | IInvoke a cmd => (EInvoke a cmd, v, false)
  | IRaise e => (ERaise e, v, true)
  | IAcquireResp => (EAcquire ResponseLock, v, false)
  | IWriteMsg m => (EOut (OWrite (Direct m)), v, false)
  | IFlushMsg => (EOut OFlush, v, false)
  | IReleaseResp => (ERelease ResponseLock, v, false)
  | IStdinWrite s =>
      match v_proc v with
      | Some p => (EStdin p (SWrite s), v, false)
      | None => (ERaise AttributeError, v, true)
      end
  | IStdinFlush =>
      match v_proc v with
      | Some p => (EStdin p SFlush, v, false)
      | None => (ERaise AttributeError, v, true)
      end
  | IShellInterrupt cmd => (EShellInterrupt cmd, v, false)
  | IAcquireInt => (EAcquire InterruptLock, v, false)
  | ILocalInterrupt => (ELocalInterrupt, v, false)
  | IReleaseInt => (ERelease InterruptLock, v, false)
  end.

(** The events of a list of statements, up to the first that raises. *)
Fixpoint mrun (p : list instr) (v : mview) : list event * mview * bool :=
  match p with
  | [] => ([], v, false)
  | i :: k =>
      let '(e, v', raised) := mexec i v in
      if raised then ([e], v', true)
      else let '(es, v'', r) := mrun k v' in (e :: es, v'', r)
  end.

(** The events of the main thread in a trace. *)
Definition main_events (tr : list (tid * event)) : list event :=
  omap (fun we => match we.1 with TMain => Some we.2 | TRelay _ => None end) tr.

(** The main loop fetches message [m] in state [st] and has handled it in
    state [st'], whatever the other threads and the workers did meanwhile. *)
Definition handles (m : incoming) (st st' : state) : Prop :=
  exists ls, no_command ls /\ run (LCommand m :: ls) st = Some st' /\ main st' = [].

(** The lines [_forward_incoming_command] writes to worker [p]. *)
Definition forward_events (p : nat) (msg : incoming) : list event :=
  flat_map (fun line => [EStdin p (SWrite line); EStdin p SFlush])
           (Py.splitlines_keepends (serialize_message msg 1024))
  ++ [EStdin p (SWrite (String "010" ""))].

Definition send_events (msg : gmap string string) : list event :=
  [EAcquire ResponseLock; EOut (OWrite (Direct msg)); EOut OFlush; ERelease ResponseLock].

(** The events of [_restart_main_backend] when worker [p] is current, [n]
    workers and [nt] threads exist, thread [f] is the forwarder and the
    working directory is [cwd]. *)
Definition restart_events (p n nt f : nat) (cwd : string) : list event :=
  [EKill p; EClearProc; EJoin f; ESetFresh;
   ESpawn n (launch_args cwd) _get_remote_program_directory launch_env;
   EStartForwarder nt].

(** The events of the [try] block around [handler(cmd)] and of the
    [send_message] after it. *)
Definition local_events (handler : command -> outcome) (cmd : command) : list event :=
  EInvoke ("_cmd_" +:+ name cmd) cmd
  :: match handler cmd with
     | Returns response => send_events (_prepare_command_response response cmd)
     | Raises e =>
         if is_Exception e
         then send_events (_prepare_command_response {[ "error" := str e ]} cmd)
         else [ERaise e]
     end.

(** The events of the first part of [_handle_normal_command]: for a name
    that starts with an upper-case letter, the adopted directory and the
    restart. *)
Definition adopt_events (cmd : command) : list event :=
  match fields cmd !! "expected_cwd" with
  | Some d => [ESetCwd d]
  | None => []
  end.

Definition cwd_after (cmd : command) (cwd : string) : string :=
  match fields cmd !! "expected_cwd" with
  | Some d => d
  | None => cwd
  end.

Definition restarting (cmd : command) : bool :=
  match name cmd with
  | String c _ => Py.isupper c
  | EmptyString => false
  end.

Definition restart_part (cmd : command) (st : state) (p : nat) : list event :=
  if restarting cmd
  then adopt_events cmd
       ++ restart_events p (length (procs st)) (length (threads st))
            (_response_forwarder st) (cwd_after cmd (_cwd st))
  else [].

(** The worker that is current once the first part is done. *)
Definition worker_after (cmd : command) (st : state) (p : nat) : nat :=
  if restarting cmd then length (procs st) else p.

(** The events of the second part: the local handler or the forwarding. *)
Definition routed_events (cmd : command) (p : nat) : list event :=
  match getattr_self ("_cmd_" +:+ name cmd) with
  | Some handler => local_events handler cmd
  | None => forward_events p (CommandToBackend cmd)
  end.

(** The events of a restart. *)
Definition is_restart_event (e : event) : bool :=
  match e with
  | EKill _ | EClearProc | EJoin _ | ESetFresh | ESpawn _ _ _ _ | EStartForwarder _ => true
  | _ => false
  end.

(** A write to a worker's standard input. *)
Definition is_stdin_event (e : event) : bool :=
  match e with
  | EStdin _ _ => true
  | _ => false
  end.

(** A write to the controller's stream. *)
Definition is_out_event (e : event) : bool :=
  match e with
  | EOut _ => true
  | _ => false
  end.

(** The messages [_forward_incoming_command] is called for. *)
Definition forwarded (m : incoming) : Prop :=
  match m with
  | EOFCommand | InputSubmission _ => True
  | CommandToBackend cmd =>
      name cmd <> "" /\ getattr_self ("_cmd_" +:+ name cmd) = None
  | ImmediateCommand _ => False
  end.

Definition lowercase_initial (cmd : command) : bool :=
  match name cmd with
  | String c _ => Py.islower c
  | EmptyString => false
  end.

(** What precedes the forwarding of a message and the worker it goes to. *)
Definition before_forward (m : incoming) (st : state) (p : nat) : list event :=
  match m with
  | CommandToBackend cmd => restart_part cmd st p
  | _ => []
  end.

Definition forward_target (m : incoming) (st : state) (p : nat) : nat :=
  match m with
  | CommandToBackend cmd => worker_after cmd st p
  | _ => p
  end.

(** *** A forwarder thread seen from its own events

    What a thread that starts with the flag set may do next, given what it
    did so far: the flag as the thread itself has left it, and the line it
    has in hand. *)
Inductive rstate :=
| AIdle (fresh : bool)
| AGot (fresh : bool) (p : nat) (l : string)
| AWriting (p : nat) (l : string)
| AFlushing (p : nat) (l : string)
| AClearing (p : nat) (l : string)
| AReleasing
| AEnd.

Definition rnext (a : rstate) (e : event) : option rstate :=
  match a, e with
  | AIdle f, ERead p l => Some (AGot f p l)
  | AIdle _, ERelayExit => Some AEnd
  | AIdle _, ERelayCrash => Some AEnd
  | AGot f p l, EDiscard l' =>
      if f && _looks_like_echo l && bool_decide (l' = l) then Some (AIdle f) else None
  | AGot f p l, ERelayExit =>
      if negb (f && _looks_like_echo l) && bool_decide (l = "") then Some AEnd else None
  | AGot f p l, EAcquire ResponseLock =>
      if negb (f && _looks_like_echo l) && negb (bool_decide (l = ""))
      then Some (AWriting p l) else None
  | AWriting p l, EOut (OWrite (Relayed p' l')) =>
      if bool_decide (p' = p) && bool_decide (l' = l) then Some (AFlushing p l) else None
  | AFlushing p l, EOut OFlush => Some (AClearing p l)
  | AClearing p l, EClearFresh => Some AReleasing
  | AReleasing, ERelease ResponseLock => Some (AIdle false)
  | _, _ => None
  end.

Definition rrun_from (a : option rstate) (es : list event) : option rstate :=
  foldl (fun oa e => match oa with Some a => rnext a e | None => None end) a es.

(** The events of forwarder thread [t] in a trace. *)
Definition thread_events (t : nat) (tr : list (tid * event)) : list event :=
  omap (fun we => match we.1 with
                  | TRelay t' => if decide (t' = t) then Some we.2 else None
                  | TMain => None
                  end) tr.

(** The thread's events are those of a thread that alone owns the flag and
    found it set when it started. *)
Definition suppresses_echo (t : nat) (tr : list (tid * event)) : Prop :=
  is_Some (rrun_from (Some (AIdle true)) (thread_events t tr)).

(** The lines the thread read and the lines it wrote to the controller. *)
Definition lines_read (es : list event) : list string :=
  omap (fun e => match e with ERead _ l => Some l | _ => None end) es.

Definition lines_written (es : list event) : list string :=
  omap (fun e => match e with EOut (OWrite (Relayed _ l)) => Some l | _ => None end) es.

(** How the program counter of a thread and the flag relate to what the
    thread did so far. *)
Definition rel (pc : relay_pc) (f : bool) (a : rstate) : Prop :=
  match pc with
  | RLoop | RPoll | RLoad | RReadline _ => a = AIdle f
  | RFilter p l => a = AGot f p l
  | RAcquire p l => a = AGot f p l /\ f && _looks_like_echo l = false /\ l <> ""
  | RWrite p l => a = AWriting p l
  | RFlush p l => a = AFlushing p l
  | RClearFresh p l => a = AClearing p l
  | RRelease => a = AReleasing /\ f = false
  | RDone | RCrashed => a = AEnd
  end.

Definition rinv (st : state) : Prop :=
  (forall t pc, threads st !! t = Some pc ->
     exists a, rrun_from (Some (AIdle true)) (thread_events t (trace st)) = Some a
               /\ rel pc (_main_backend_is_fresh st) a)
  /\ (forall t, threads st !! t = None -> thread_events t (trace st) = []).

(** What the loop of [_forward_main_responses] makes of the lines it reads,
    one after the other, when the flag is [f] at the start: the lines it
    writes to the controller, and the flag afterwards ([None] once an empty
    line has ended the loop). *)
Fixpoint relay_lines (f : bool) (ls : list string) : list string * option bool :=
  match ls with
  | [] => ([], Some f)
  | l :: rest =>
      if f && _looks_like_echo l then relay_lines f rest
      else if decide (l = "") then ([], None)
      else let '(w, o) := relay_lines false rest in (l :: w, o)
  end.

(** The thread is between two lines: it has nothing in hand. *)
Definition between_lines (pc : relay_pc) : bool :=
  match pc with
  | RLoop | RPoll | RLoad | RReadline _ => true
  | _ => false
  end.

(** How the state of a thread's protocol relates to the lines it read and
    wrote. *)
Definition lines_rel (f0 : bool) (a : rstate) (r w : list string) : Prop :=
  match a with
  | AIdle f => relay_lines f0 r = (w, Some f)
  | AGot f _ l => exists r', r = r' ++ [l] /\ relay_lines f0 r' = (w, Some f)
  | AWriting _ l =>
      exists r' f, r = r' ++ [l] /\ relay_lines f0 r' = (w, Some f)
                   /\ f && _looks_like_echo l = false /\ l <> ""
  | AFlushing _ _ | AClearing _ _ | AReleasing => relay_lines f0 r = (w, Some false)
  | AEnd => (relay_lines f0 r).1 = w
  end.

(** *** Uploading the worker's code: [_upload_main_backend] *)

(** [st_mode] of a directory (040755) and of a regular file (100644). *)
Definition st_mode (n : node) : Z :=
  match n with
  | Directory => 16877
  | RegularFile => 33188
  end.

(** Modelled from the spec: [SshMixin._get_stat_mode_for_upload], which is
    defined outside this file, checks the existence and metadata of a
    remote path: the mode of what is there, or [None]. *)
Definition _get_stat_mode_for_upload (path : string) (r : remote) : option Z :=
  st_mode <$> rfs r !! path.

(** The truth value of an [Optional[int]]. *)
Definition truthy (o : option Z) : bool :=
  match o with
  | Some m => negb (m =? 0)%Z
  | None => false
  end.

(** Modelled from the spec: [SshMixin._mkdir_for_upload], which is defined
    outside this file, creates one remote directory. *)
Definition _mkdir_for_upload (path : string) (r : remote) : remote :=
  Remote (<[path := Directory]> (rfs r)) (uploads r).

Definition is_slash (c : ascii) : bool := (Py.code c =? 47)%nat.

(** The directories above a path, from the top: the non-empty prefixes of
    [acc ++ s] that end before a slash of [s]. *)
Fixpoint parents_from (acc s : string) : list string :=
  match s with
  | EmptyString => []
  | String c rest =>
      (if is_slash c && negb (bool_decide (acc = "")) then [acc] else [])
      ++ parents_from (acc +:+ String c "") rest
  end.

(** Modelled from the spec: [thonny.backend.ensure_posix_directory], which
    is defined outside this file, recursively ensures that the remote
    directory tree exists: every directory above the path and the path
    itself is created unless something is there already. *)
Definition ensure_posix_directory (path : string) (r : remote) : remote :=
  foldl (fun r step =>
           match _get_stat_mode_for_upload step r with
           | None => _mkdir_for_upload step r
           | Some _ => r
           end)
        r (parents_from "" path ++ [path]).

(** Modelled from the spec: [_perform_sftp_operation_with_retry] with
    [sftp.put], which is defined outside this file, transfers one file,
    retrying on transient failure. *)
Definition sftp_put (local_path remote_path : string) (r : remote) : remote :=
  Remote (<[remote_path := RegularFile]> (rfs r)) (uploads r ++ [(local_path, remote_path)]).

(** The files of the worker's runtime. *)
Definition local_paths (L : installation) : list string :=
  [thonny_file L; thonny_common_file L; thonny_ast_utils_file L;
   thonny_jedi_utils_file L; thonny_backend_file L; cpython_backend_file L;
   cp_back_file L;
   Py.replace (cp_back_file L) "cp_back.py" "cp_launcher.py";
   Py.replace (cp_back_file L) "cp_back.py" "cp_tracers.py"].

Definition remote_path_of (L : installation) (launch_dir local_path : string) : string :=
  let local_context := os_path_dirname L (os_path_dirname L (thonny_file L)) in
  let local_suffix := Py.drop (String.length local_context) local_path in
  launch_dir +:+ Py.replace local_suffix (String "092" "") "/".

(** The condition of the early return. *)
Definition upload_skipped (r : remote) : bool :=
  truthy (_get_stat_mode_for_upload _get_remote_program_directory r)
  && negb (Py.endswith get_version "-dev").

Definition _upload_main_backend (L : installation) (r : remote) : remote :=
  let launch_dir := _get_remote_program_directory in
  if upload_skipped r then r
  else
    let r1 := ensure_posix_directory (launch_dir +:+ "/thonny/plugins/cpython_backend") r in
    foldl (fun r local_path => sftp_put local_path (remote_path_of L launch_dir local_path) r)
          r1 (local_paths L).

(** The files one upload puts. *)
Definition upload_batch (L : installation) : list (string * string) :=
  map (fun local_path =>
         (local_path, remote_path_of L _get_remote_program_directory local_path))
      (local_paths L).

(** The state a schedule leads to, or the state itself when the schedule
    cannot be run. *)
Definition after (ls : list label) (st : state) : state :=
  match run ls st with
  | Some st' => st'
  | None => st
  end.

(** *** Three sentences of the specification, as they are written *)

(** "The old relay task must fully stop reading the old stream before the
    old process handle is discarded." *)
Definition relay_stopped_when_handle_discarded (cwd : string) : Prop :=
  forall st, reachable cwd st -> _proc st = None -> all_terminated (threads st).

(** "Any exception raised by the handler is caught and converted into a
    response carrying an error-description field, which is sent to the
    controller." *)
Definition handler_failure_always_answered (cwd : string) : Prop :=
  forall st st' cmd handler e,
    reachable cwd st -> main st = [] -> name cmd <> "" ->
    getattr_self ("_cmd_" +:+ name cmd) = Some handler ->
    handler cmd = Raises e ->
    handles (CommandToBackend cmd) st st' ->
    (TMain, OWrite (Direct (_prepare_command_response {[ "error" := str e ]} cmd)))
    ∈ controller_stream (trace st').


(** *** Workers and forwarders, one pair at a time *)

(** Every worker but the newest has ended. *)
Definition older_dead (ps : list rproc) : Prop :=
  forall p pr, ps !! p = Some pr -> S p < length ps -> alive pr = false.

(** No worker but the newest can be alive, and the newest is not while the
    handle is cleared. *)
Definition winv (st : state) : Prop :=
  older_dead (procs st) /\ (_proc st = None -> newest_dead (procs st)).

(** [self._response_forwarder] is the thread started last, and there are as
    many threads as workers, but for the moment between the two last
    statements of a restart. *)
Definition paired (st : state) : Prop :=
  S (_response_forwarder st) = length (threads st)
  /\ length (procs st)
     = match main st with
       | IStartForwarder :: _ => S (length (threads st))
       | _ => length (threads st)
       end.

(** Every line read or relayed is a line of the worker with the number of
    the thread that reads or relays it. *)
Definition own_lines (tr : list (tid * event)) : Prop :=
  forall w e p, (w, e) ∈ tr -> line_of e = Some p -> w = TRelay p.

(** *** The exceptions that leave a command *)




(** The statements that use the handle [self._proc]. *)
Definition uses_handle (i : instr) : bool :=
  match i with
  | IKill | IStdinWrite _ | IStdinFlush => true
  | _ => false
  end.

(** *** What a worker is sent *)

(** The text written to the standard input of worker [p], and the number of
    times it is flushed. *)
Definition stdin_text (p : nat) (es : list event) : string :=
  Py.join (omap (fun e => match e with
                          | EStdin q (SWrite s) => if decide (q = p) then Some s else None
                          | _ => None
                          end) es).

Definition stdin_flushes (p : nat) (es : list event) : nat :=
  length (omap (fun e => match e with
                         | EStdin q SFlush => if decide (q = p) then Some tt else None
                         | _ => None
                         end) es).

(** *** How workers are launched *)


(** *** Paths *)

Definition is_backslash (c : ascii) : bool := (Py.code c =? 92)%nat.

Fixpoint has_backslash (s : string) : bool :=
  match s with
  | EmptyString => false
  | String c rest => is_backslash c || has_backslash rest
  end.

(** [local_path[len(local_context):]] in [_upload_main_backend]. *)
Definition local_suffix_of (L : installation) (local_path : string) : string :=
  Py.drop (String.length (os_path_dirname L (os_path_dirname L (thonny_file L))))
          local_path.

(** *** After the worker has ended *)

(** The calls of [readline] a thread can still complete once its worker has
    ended: one when it has passed the test of the loop, none otherwise. *)
Definition reads_left (pc : option relay_pc) : nat :=
  match pc with
  | Some (RLoad | RReadline _) => 1
  | _ => 0
  end.

(** The calls of [readline] thread [t] has completed. *)
Definition reads_done (t : nat) (st : state) : nat :=
  length (lines_read (thread_events t (trace st))).

Definition ended (p : nat) (st : state) : Prop :=
  exists pr, procs st !! p = Some pr /\ alive pr = false.

(** *** Which worker the main thread acts on *)

(** The worker an event of the main thread kills or writes to. *)
Definition target_of (e : event) : option nat :=
  match e with
  | EKill p | EStdin p _ => Some p
  | _ => None
  end.

(** The number of workers started in a trace. *)
Definition spawned (tr : list (tid * event)) : nat :=
  length (omap (fun we => spawn_of we.2) tr).

(** Every kill and every write to a standard input goes to the worker
    started last before it. *)
Definition targets_newest (tr : list (tid * event)) : Prop :=
  forall pre post w e q,
    tr = pre ++ (w, e) :: post -> target_of e = Some q -> S q = spawned pre.

(** The workers are numbered in the order they are started. *)
Definition numbered (tr : list (tid * event)) : Prop :=
  forall pre post w e p,
    tr = pre ++ (w, e) :: post -> spawn_of e = Some p -> p = spawned pre.

(** The statements of [_restart_main_backend]. *)
Definition restart_statement (i : instr) : bool :=
  match i with
  | IKill | IClearProc | IJoin | ISetFresh | ICreateProc | IStartForwarder => true
  | _ => false
  end.

(** *** Which messages replace the worker *)

Definition replaces_worker (m : incoming) : bool :=
  match m with
  | CommandToBackend cmd => restarting cmd
  | _ => false
  end.

(** *** A line on its way to the controller *)

(** No worker has an empty line among the lines not read yet. *)
Definition no_empty_lines (ps : list rproc) : Prop :=
  forall p pr, ps !! p = Some pr -> Forall (fun l => l <> "") (stdout_buf pr).

(** A thread has ended, or has read the end of the stream, only when its
    worker has ended. *)
Definition linv (st : state) : Prop :=
  no_empty_lines (procs st)
  /\ forall t pc, threads st !! t = Some pc ->
       terminated pc = true \/ (exists q, pc = RFilter q "") -> ended t st.

(** How far a thread is from its next [readline]. *)
Definition to_read (pc : relay_pc) : nat :=
  match pc with
  | RReadline _ | RDone | RCrashed => 0
  | RLoad => 1
  | RPoll => 2
  | RLoop => 3
  | RRelease => 4
  | RClearFresh _ _ => 5
  | RFlush _ _ => 6
  | RWrite _ _ => 7
  | RAcquire _ _ => 8
  | RFilter _ _ => 9
  end.

(** ** Proofs *)

(** *** The programs are well formed *)

Lemma wf_plain_app p q :
  forallb plain p = true -> wf MNormal q = true -> wf MNormal (p ++ q) = true.
Proof.
  induction p as [|i p IH]; simpl; [done|].
  intros [Hi Hp]%andb_prop Hq. destruct i; try discriminate; simpl; auto.
Qed.

Lemma plain_forward_lines ls :
  forallb plain (flat_map (fun line => [IStdinWrite line; IStdinFlush]) ls) = true.
Proof. induction ls; simpl; auto. Qed.

Lemma wf_forward msg : wf MNormal (_forward_incoming_command msg) = true.
Proof.
  unfold _forward_incoming_command. apply wf_plain_app; [apply plain_forward_lines|done].
Qed.

Lemma wf_call_handler h cmd : wf MNormal (call_handler h cmd) = true.
Proof.
  unfold call_handler. destruct (h cmd) as [r|e]; [done|]. by destruct (is_Exception e).
Qed.

Lemma wf_handle_normal cmd : wf MNormal (_handle_normal_command cmd) = true.
Proof.
  unfold _handle_normal_command. destruct (name cmd) as [|c rest]; [done|].
  assert (Hrest : wf MNormal
            match getattr_self ("_cmd_" +:+ String c rest) with
            | Some handler => call_handler handler cmd
            | None => _forward_incoming_command (CommandToBackend cmd)
            end = true).
  { destruct (getattr_self _); [apply wf_call_handler|apply wf_forward]. }
  destruct (Py.isupper c); [|done].
  destruct (fields cmd !! "expected_cwd"); simpl; exact Hrest.
Qed.

Lemma wf_dispatch m : wf MNormal (dispatch m) = true.
Proof.
  destruct m; simpl; auto using wf_forward, wf_handle_normal.
Qed.

(** *** The invariant is kept by every step *)

Lemma tinv_goto ts lock lock' n f t pc pc' :
  tinv ts lock n f ->
  ts !! t = Some pc ->
  terminated pc = false ->
  (forall p, holds pc' = Some p -> S p = n) ->
  (critical pc' = true <-> lock' = Some (TRelay t)) ->
  (forall t', t' <> t -> lock' = Some (TRelay t') <-> lock = Some (TRelay t')) ->
  tinv (<[t := pc']> ts) lock' n f.
Proof.
  intros [Hf Hold Hheld Hcrit Hlock] Ht Hrun Hh Hc Ho.
  assert (Hlt : t < length ts) by (eapply lookup_lt_Some; eauto).
  assert (t = f) as ->.
  { destruct (decide (t = f)) as [|Hne]; [done|].
    specialize (Hold _ _ Ht Hne). congruence. }
  constructor.
  - by rewrite length_insert.
  - intros t0 pc0 [(-> & <- & _)|(Hne & Hl)]%list_lookup_insert_Some Hne'; [done|eauto].
  - intros t0 pc0 p [(-> & <- & _)|(Hne & Hl)]%list_lookup_insert_Some; eauto.
  - intros t0 pc0 [(-> & <- & _)|(Hne & Hl)]%list_lookup_insert_Some Hcr.
    + by apply Hc.
    + apply Ho; [done|]. eauto.
  - intros t0 Hl. destruct (decide (t0 = f)) as [->|Hne].
    + exists pc'. split; [by apply list_lookup_insert_eq|by apply Hc].
    + apply Ho in Hl; [|done]. destruct (Hlock _ Hl) as (pc0 & Hpc0 & Hcr).
      exists pc0. split; [|done]. by rewrite list_lookup_insert_ne.
Qed.

(** A move of thread [t] that leaves the lock alone. *)
Lemma tinv_move ts lock n f t pc pc' :
  tinv ts lock n f ->
  ts !! t = Some pc ->
  terminated pc = false ->
  (forall p, holds pc' = Some p -> S p = n) ->
  critical pc' = critical pc ->
  tinv (<[t := pc']> ts) lock n f.
Proof.
  intros Hinv Ht Hrun Hh Hc. eapply tinv_goto; eauto.
  rewrite Hc. split.
  - intros Hcr. eapply inv_crit; eauto.
  - intros Hl. destruct (inv_lock _ _ _ _ Hinv _ Hl) as (pc0 & Hpc0 & Hcr). congruence.
Qed.

Lemma tinv_lock_main ts lock lock' n f :
  tinv ts lock n f ->
  lock = None \/ lock = Some TMain ->
  lock' = None \/ lock' = Some TMain ->
  tinv ts lock' n f.
Proof.
  intros [Hf Hold Hheld Hcrit Hlock] Hl Hl'. constructor; auto.
  - intros t pc Ht Hcr. specialize (Hcrit _ _ Ht Hcr). destruct Hl; congruence.
  - intros t Ht. destruct Hl'; congruence.
Qed.

Lemma tinv_unlock_main ts lock n f :
  tinv ts lock n f -> tinv ts (unlock_of TMain lock) n f.
Proof.
  intros Hinv. destruct lock as [[|t]|]; simpl; [|done..].
  eapply tinv_lock_main; eauto.
Qed.

Lemma no_holds_terminated pc : terminated pc = true -> holds pc = None.
Proof. by destruct pc. Qed.

Lemma tinv_spawn ts lock n f :
  tinv ts lock n f -> all_terminated ts -> tinv ts lock (S n) f.
Proof.
  intros [Hf Hold Hheld Hcrit Hlock] Hall. constructor; auto.
  intros t pc p Ht Hh. rewrite (no_holds_terminated pc) in Hh; [done|eauto].
Qed.

Lemma tinv_start ts lock n f :
  tinv ts lock n f -> all_terminated ts -> tinv (ts ++ [RLoop]) lock n (length ts).
Proof.
  intros [Hf Hold Hheld Hcrit Hlock] Hall. constructor.
  - rewrite length_app. simpl. lia.
  - intros t pc [Hl|(Hge & Hl)]%lookup_app_Some Hne; [eauto|].
    apply list_lookup_singleton_Some in Hl as [Hz _]. lia.
  - intros t pc p [Hl|(Hge & Hl)]%lookup_app_Some Hh; [eauto|].
    apply list_lookup_singleton_Some in Hl as [_ <-]. done.
  - intros t pc [Hl|(Hge & Hl)]%lookup_app_Some Hcr; [eauto|].
    apply list_lookup_singleton_Some in Hl as [_ <-]. done.
  - intros t Hl. destruct (Hlock _ Hl) as (pc & Hpc & Hcr).
    exists pc. split; [|done]. by apply lookup_app_l_Some.
Qed.

Lemma unlock_of_main_not_main h : unlock_of TMain h = Some TMain <-> False.
Proof. destruct h as [[|t]|]; simpl; split; try done. Qed.

Lemma newest_dead_insert ps p pr pr' :
  ps !! p = Some pr -> (alive pr = false -> alive pr' = false) ->
  newest_dead ps -> newest_dead (<[p := pr']> ps).
Proof.
  intros Hp Hal Hnd q qr Hq Hlen. rewrite length_insert in Hlen.
  apply list_lookup_insert_Some in Hq as [(-> & <- & _)|(Hne & Hq)]; eauto.
Qed.

Lemma phase_inv_relay m st st' t pc :
  phase_inv m st ->
  threads st !! t = Some pc ->
  terminated pc = false ->
  _proc st' = _proc st ->
  (newest_dead (procs st) -> newest_dead (procs st')) ->
  phase_inv m st'.
Proof.
  intros Hph Ht Hrun Hproc Hnd.
  destruct m; simpl in *; rewrite ?Hproc; intuition;
    match goal with
    | H : all_terminated _ |- _ => specialize (H _ _ Ht); congruence
    end.
Qed.

Lemma newest_dead_kill ps p :
  S p = length ps ->
  newest_dead (alter (fun pr => RProc false (stdout_buf pr)) p ps).
Proof.
  intros Hp q qr Hq Hlen. rewrite length_alter in Hlen.
  assert (q = p) as -> by lia.
  rewrite list_lookup_alter_eq in Hq.
  destruct (ps !! p); simplify_eq/=. done.
Qed.

Ltac at_mode m Hwf := destruct m; simpl in Hwf; try discriminate.
Ltac now_mode m :=
  exists m; unfold mode_inv; simpl; split; [|split; [|split]]; simpl; auto;
  try done; try (intuition congruence).

Lemma inv_step_main st st' : inv st -> step_main st = Some st' -> inv st'.
Proof.
  intros [[m (Hwf & Hph & Hlk & Hil)] Hproc Ht]. unfold step_main.
  destruct (main st) as [|i k] eqn:Hmain; [done|].
  destruct i; simpl.
  - (* ISetCwd *)
    at_mode m Hwf. intros [= <-].
    constructor; simpl; [now_mode MNormal|done..].
  - (* IKill *)
    at_mode m Hwf. simpl in Hph.
    destruct (_proc st) as [p|] eqn:Hp; [|by destruct Hph].
    intros [= <-]. specialize (Hproc _ eq_refl).
    constructor; simpl.
    + now_mode MKilled; rewrite ?Hp; eauto using newest_dead_kill.
    + intros q. rewrite length_alter. rewrite Hp. intros [= <-]. done.
    + by rewrite length_alter.
  - (* IClearProc *)
    at_mode m Hwf. intros [= <-]. destruct Hph as [_ Hnd].
    constructor; simpl; [now_mode MCleared|done..].
  - (* IJoin *)
    at_mode m Hwf. destruct Hph as [Hnone Hnd].
    destruct (threads st !! _response_forwarder st) as [pc|] eqn:Hpc.
    2:{ apply lookup_ge_None in Hpc. pose proof (inv_forwarder _ _ _ _ Ht). lia. }
    destruct (terminated pc) eqn:Hterm; [|done]. intros [= <-].
    constructor; simpl; [|done..].
    now_mode MJoined. split; [done|].
    intros t pc' Hl. destruct (decide (t = _response_forwarder st)) as [->|Hne].
    + congruence.
    + eapply inv_old; eauto.
  - (* ISetFresh *)
    at_mode m Hwf. intros [= <-]. destruct Hph as [Hnone Hall].
    constructor; simpl; [now_mode MFresh|done..].
  - (* ICreateProc *)
    at_mode m Hwf. intros [= <-]. destruct Hph as (Hnone & Hall & Hfresh).
    constructor; simpl.
    + now_mode MCreated.
    + intros q [= <-]. rewrite length_app. simpl. lia.
    + rewrite length_app. simpl.
      replace (length (procs st) + 1) with (S (length (procs st))) by lia.
      by apply tinv_spawn.
  - (* IStartForwarder *)
    at_mode m Hwf. intros [= <-]. destruct Hph as (Hsome & Hall & Hfresh).
    constructor; simpl; [now_mode MNormal|done|].
    eapply tinv_start; eauto.
  - (* IInvoke *)
    at_mode m Hwf. intros [= <-].
    constructor; simpl; [now_mode MNormal|done..].
  - (* IRaise *)
    intros [= <-].
    constructor; simpl; [|done|by apply tinv_unlock_main].
    now_mode MNormal.
    + by destruct m.
    + rewrite unlock_of_main_not_main. split; [done|discriminate].
    + rewrite Hil. by destruct m.
  - (* IAcquireResp *)
    at_mode m Hwf.
    destruct (_response_lock st) eqn:Hl; [done|]. intros [= <-].
    constructor; simpl; [now_mode MLocked|done|].
    eapply tinv_lock_main; eauto.
  - (* IWriteMsg *)
    at_mode m Hwf. intros [= <-].
    constructor; simpl; [now_mode MWritten; by apply Hlk|done..].
  - (* IFlushMsg *)
    at_mode m Hwf. intros [= <-].
    constructor; simpl; [now_mode MFlushed; by apply Hlk|done..].
  - (* IReleaseResp *)
    at_mode m Hwf. intros [= <-].
    constructor; simpl; [now_mode MNormal; done|done|].
    eapply tinv_lock_main; eauto. right. by apply Hlk.
  - (* IStdinWrite *)
    at_mode m Hwf; simpl in Hph;
      (destruct (_proc st) as [p|] eqn:Hp; [|by destruct Hph]); intros [= <-].
    + constructor; simpl; [now_mode MNormal; by rewrite ?Hp|by rewrite ?Hp..].
    + constructor; simpl; [now_mode MInt; by rewrite ?Hp|by rewrite ?Hp..].
  - (* IStdinFlush *)
    at_mode m Hwf; simpl in Hph;
      (destruct (_proc st) as [p|] eqn:Hp; [|by destruct Hph]); intros [= <-].
    + constructor; simpl; [now_mode MNormal; by rewrite ?Hp|by rewrite ?Hp..].
    + constructor; simpl; [now_mode MInt; by rewrite ?Hp|by rewrite ?Hp..].
  - (* IShellInterrupt *)
    at_mode m Hwf. intros [= <-].
    constructor; simpl; [now_mode MNormal; by apply Hlk|done..].
  - (* IAcquireInt *)
    at_mode m Hwf. rewrite Hil. intros [= <-].
    constructor; simpl; [now_mode MInt; by apply Hlk|done..].
  - (* ILocalInterrupt *)
    at_mode m Hwf. intros [= <-].
    constructor; simpl; [now_mode MInt; by apply Hlk|done..].
  - (* IReleaseInt *)
    at_mode m Hwf. intros [= <-].
    constructor; simpl; [now_mode MNormal; by apply Hlk|done..].
Qed.

Lemma inv_relay_move st st' t pc pc' :
  inv st ->
  threads st !! t = Some pc ->
  terminated pc = false ->
  threads st' = <[t := pc']> (threads st) ->
  main st' = main st ->
  _proc st' = _proc st ->
  _interrupt_lock st' = _interrupt_lock st ->
  _response_forwarder st' = _response_forwarder st ->
  length (procs st') = length (procs st) ->
  (newest_dead (procs st) -> newest_dead (procs st')) ->
  (forall p, holds pc' = Some p -> S p = length (procs st)) ->
  lock_move t pc pc' (_response_lock st) (_response_lock st') ->
  inv st'.
Proof.
  intros [[m (Hwf & Hph & Hlk & Hil)] Hproc Ht] Hpc Hrun Hts Hmain Hp Hint Hfwd Hlen Hnd
    Hh Hmove.
  assert (Hnomain : _response_lock st' = Some TMain <-> _response_lock st = Some TMain).
  { destruct Hmove as [[-> _]|[(Hnone & -> & _)|(Hcr & -> & _)]]; [done|..].
    - rewrite Hnone. split; discriminate.
    - rewrite (inv_crit _ _ _ _ Ht _ _ Hpc Hcr). split; discriminate. }
  constructor.
  - exists m. unfold mode_inv. rewrite Hmain, Hint. split; [done|]. split; [|split; [|done]].
    + eapply phase_inv_relay; eauto.
    + by rewrite Hnomain.
  - rewrite Hp, Hlen. done.
  - rewrite Hts, Hlen, Hfwd.
    destruct Hmove as [[-> Hc]|[(Hnone & -> & Hc)|(Hcr & -> & Hc)]].
    + eapply tinv_move; eauto.
    + eapply tinv_goto; eauto.
      * split; [done|by rewrite Hc].
      * intros t' Hne. rewrite Hnone. split; intros [=]. done.
    + eapply tinv_goto; eauto.
      * rewrite Hc. split; discriminate.
      * intros t' Hne. rewrite (inv_crit _ _ _ _ Ht _ _ Hpc Hcr). split; intros [=]. done.
Qed.

Lemma inv_step_relay t st st' : inv st -> _forward_main_responses t st = Some st' -> inv st'.
Proof.
  intros Hinv. unfold _forward_main_responses.
  destruct (threads st !! t) as [pc|] eqn:Hpc; [|done].
  pose proof (inv_proc _ Hinv) as Hproc.
  pose proof (fun p => inv_held _ _ _ _ (inv_threads _ Hinv) t pc p Hpc) as Hheld.
  destruct pc; simpl.
  - destruct (_proc st); intros [= <-];
      eapply inv_relay_move; eauto; simpl; try done; left; done.
  - destruct (_proc st) as [p|]; [destruct (procs st !! p) as [pr|]; [destruct (alive pr)|]|];
      intros [= <-]; eapply inv_relay_move; eauto; simpl; try done; left; done.
  - destruct (_proc st) as [p|] eqn:Hp; intros [= <-];
      eapply inv_relay_move; eauto; simpl; try done; try (left; done).
  - destruct (procs st !! p) as [pr|] eqn:Hpr; [|done].
    destruct (stdout_buf pr) as [|l rest].
    + destruct (alive pr); [done|]. intros [= <-].
      eapply inv_relay_move; eauto; simpl; try done; try (left; done).
    + intros [= <-].
      eapply inv_relay_move; eauto; simpl; try done; try (left; done).
      * by rewrite length_insert.
      * eapply newest_dead_insert; eauto.
  - destruct (_main_backend_is_fresh st && _looks_like_echo l);
      [|destruct (decide (l = ""))]; intros [= <-];
      eapply inv_relay_move; eauto; simpl; try done; left; done.
  - destruct (_response_lock st) eqn:Hl; [done|]. intros [= <-].
    eapply inv_relay_move; eauto; simpl; try done. right. left. done.
  - intros [= <-]. eapply inv_relay_move; eauto; simpl; try done. left. done.
  - intros [= <-]. eapply inv_relay_move; eauto; simpl; try done. left. done.
  - intros [= <-]. eapply inv_relay_move; eauto; simpl; try done. left. done.
  - intros [= <-]. eapply inv_relay_move; eauto; simpl; try done. right. right. done.
  - done.
  - done.
Qed.

Lemma inv_step l st st' : inv st -> step l st = Some st' -> inv st'.
Proof.
  destruct l as [|t|p line|p|m]; simpl.
  - apply inv_step_main.
  - apply inv_step_relay.
  - intros [[m (Hwf & Hph & Hlk & Hil)] Hproc Ht].
    destruct (procs st !! p) as [pr|] eqn:Hpr; [|done].
    destruct (alive pr) eqn:Hal; [|done]. simpl.
    destruct (bool_decide (line = "")); [done|]. simpl. intros [= <-].
    constructor; simpl; rewrite ?length_insert; [|done..].
    exists m. unfold mode_inv. simpl. repeat split; try done; try apply Hlk.
    destruct m; simpl in *; intuition.
    all: intros q qr Hq Hlen; rewrite length_insert in Hlen;
      apply list_lookup_insert_Some in Hq as [(-> & <- & _)|(Hne & Hq)]; eauto;
      match goal with H : newest_dead _ |- _ => specialize (H _ _ Hpr Hlen) end;
      congruence.
  - intros [[m (Hwf & Hph & Hlk & Hil)] Hproc Ht].
    destruct (procs st !! p) as [pr|] eqn:Hpr; [|done].
    destruct (alive pr) eqn:Hal; [|done]. intros [= <-].
    constructor; simpl; rewrite ?length_insert; [|done..].
    exists m. unfold mode_inv. simpl. repeat split; try done; try apply Hlk.
    destruct m; simpl in *; intuition eauto using newest_dead_insert.
  - intros [[m0 (Hwf & Hph & Hlk & Hil)] Hproc Ht].
    destruct (main st) eqn:Hmain; [|done]. intros [= <-].
    destruct m0; try discriminate.
    constructor; simpl; [|done..].
    exists MNormal. unfold mode_inv. simpl. repeat split; try done; try apply Hlk.
    apply wf_dispatch.
Qed.

Lemma inv_initial cwd : inv (initial cwd).
Proof.
  constructor; simpl.
  - exists MNormal. unfold mode_inv. simpl. repeat split; eauto; discriminate.
  - by intros p [= <-].
  - constructor; simpl; [lia|..].
    + intros [|t] pc; simpl; [done|]. by destruct t.
    + intros [|[|t]] pc p; simpl; intros [= <-]; done.
    + intros [|[|t]] pc; simpl; intros [= <-]; done.
    + done.
Qed.

Lemma inv_run ls : forall st st', inv st -> run ls st = Some st' -> inv st'.
Proof.
  induction ls as [|l ls IH]; simpl; intros st st' Hinv.
  - by intros [= <-].
  - destruct (step l st) as [st1|] eqn:Hstep; [|done].
    eauto using inv_step.
Qed.

Lemma inv_reachable cwd st : reachable cwd st -> inv st.
Proof. intros [ls Hrun]. eauto using inv_run, inv_initial. Qed.

(** *** Writes to the controller's stream *)

Arguments controller_stream : simpl never.

Lemma stream_snoc tr w e :
  controller_stream (tr ++ [(w, e)])
  = controller_stream tr ++ match e with EOut x => [(w, x)] | _ => [] end.
Proof.
  unfold controller_stream. rewrite omap_app. simpl.
  destruct e; simpl; by rewrite ?app_nil_r.
Qed.

Lemma complete_app s1 s2 :
  complete s1 = true -> complete (s1 ++ s2) = complete s2.
Proof.
  revert s2. induction s1 as [s1 IH] using (induction_ltof1 _ length). unfold ltof in IH.
  intros s2. destruct s1 as [|[w [x|]] [|[w' [y|]] rest]]; simpl; try done.
  intros [Hw Hrest]%andb_prop. rewrite Hw. simpl. apply IH; [simpl; lia|done].
Qed.

Lemma complete_atomic s : complete s = true -> atomic s = true.
Proof.
  induction s as [s IH] using (induction_ltof1 _ length). unfold ltof in IH.
  destruct s as [|[w [x|]] [|[w' [y|]] rest]]; simpl; try done.
  intros [Hw Hrest]%andb_prop. rewrite Hw. simpl. apply IH; [simpl; lia|done].
Qed.

Lemma complete_atomic_snoc s w x :
  complete s = true -> atomic (s ++ [(w, OWrite x)]) = true.
Proof.
  induction s as [s IH] using (induction_ltof1 _ length). unfold ltof in IH.
  destruct s as [|[w1 [x1|]] [|[w' [y|]] rest]]; simpl; try done.
  intros [Hw Hrest]%andb_prop. rewrite Hw. simpl. apply IH; [simpl; lia|done].
Qed.

Lemma sinv_atomic st : sinv st -> atomic (controller_stream (trace st)) = true.
Proof.
  unfold sinv. destruct (_response_lock st) as [w|]; [destruct (at_flush st w)|].
  - intros (s0 & x & -> & Hc). by apply complete_atomic_snoc.
  - apply complete_atomic.
  - apply complete_atomic.
Qed.

Lemma sinv_frame st st' :
  sinv st ->
  controller_stream (trace st') = controller_stream (trace st) ->
  _response_lock st' = _response_lock st ->
  (forall w, _response_lock st = Some w -> at_flush st' w = at_flush st w) ->
  sinv st'.
Proof.
  unfold sinv. intros Hs -> -> Hf.
  destruct (_response_lock st) as [w|]; [|done]. by rewrite (Hf w).
Qed.

Lemma sinv_acquire st st' w :
  sinv st ->
  controller_stream (trace st') = controller_stream (trace st) ->
  _response_lock st = None ->
  _response_lock st' = Some w ->
  at_flush st' w = false ->
  sinv st'.
Proof. unfold sinv. intros Hs -> Hl -> ->. by rewrite Hl in Hs. Qed.

Lemma sinv_release st st' w :
  sinv st ->
  controller_stream (trace st') = controller_stream (trace st) ->
  _response_lock st = Some w ->
  at_flush st w = false ->
  _response_lock st' = None ->
  sinv st'.
Proof. unfold sinv. intros Hs -> Hl Hf ->. by rewrite Hl, Hf in Hs. Qed.

Lemma sinv_write st st' w x :
  sinv st ->
  controller_stream (trace st') = controller_stream (trace st) ++ [(w, OWrite x)] ->
  _response_lock st = Some w ->
  _response_lock st' = Some w ->
  at_flush st w = false ->
  at_flush st' w = true ->
  sinv st'.
Proof.
  unfold sinv. intros Hs -> Hl -> Hf ->. rewrite Hl, Hf in Hs. eauto.
Qed.

Lemma sinv_flush st st' w :
  sinv st ->
  controller_stream (trace st') = controller_stream (trace st) ++ [(w, OFlush)] ->
  _response_lock st = Some w ->
  _response_lock st' = Some w ->
  at_flush st w = true ->
  at_flush st' w = false ->
  sinv st'.
Proof.
  unfold sinv. intros Hs -> Hl -> Hf ->. rewrite Hl, Hf in Hs.
  destruct Hs as (s0 & x & -> & Hc). rewrite <- app_assoc. rewrite complete_app by done.
  simpl. by rewrite bool_decide_eq_true_2.
Qed.

Lemma wf_written k : wf MWritten k = true -> exists k', k = IFlushMsg :: k'.
Proof. destruct k as [|[] k]; simpl; try discriminate. eauto. Qed.

Lemma wf_locked k : wf MLocked k = true -> exists m k', k = IWriteMsg m :: k'.
Proof. destruct k as [|[] k]; simpl; try discriminate. eauto. Qed.

Lemma wf_flushed k : wf MFlushed k = true -> exists k', k = IReleaseResp :: k'.
Proof. destruct k as [|[] k]; simpl; try discriminate. eauto. Qed.

(** Outside [send_message] the main thread does not hold the response lock,
    and what it does leaves the forwarder that holds it where it is. *)
Lemma sinv_main_frame st st' m :
  sinv st ->
  mode_inv m st ->
  in_send m = false ->
  controller_stream (trace st') = controller_stream (trace st) ->
  _response_lock st' = _response_lock st ->
  (forall t pc, threads st !! t = Some pc -> threads st' !! t = Some pc) ->
  (forall t, threads st !! t = None -> at_flush st' (TRelay t) = false) ->
  sinv st'.
Proof.
  intros Hs (Hwf & Hph & Hlk & Hil) Hm Hstr Hl Hts Hnew.
  eapply sinv_frame; eauto.
  intros [|t] Hw.
  - apply Hlk in Hw. congruence.
  - simpl. destruct (threads st !! t) as [pc|] eqn:Hpc.
    + by rewrite (Hts _ _ Hpc).
    + by apply Hnew.
Qed.

Ltac stream_same :=
  first [ by (simpl; rewrite ?stream_snoc; simpl; rewrite ?app_nil_r)
        | by (simpl; intros ? ->) ].

Lemma sinv_step_main st st' : inv st -> sinv st -> step_main st = Some st' -> sinv st'.
Proof.
  intros [[m Hm] Hproc Ht] Hs. pose proof Hm as (Hwf & Hph & Hlk & Hil). unfold step_main.
  destruct (main st) as [|i k] eqn:Hmain; [done|].
  destruct i; simpl.
  - at_mode m Hwf. intros [= <-]. eapply sinv_main_frame; eauto; stream_same.
  - at_mode m Hwf. simpl in Hph. destruct (_proc st) as [p|] eqn:Hp; [|by destruct Hph].
    intros [= <-]. eapply sinv_main_frame; eauto; stream_same.
  - at_mode m Hwf. intros [= <-]. eapply sinv_main_frame; eauto; stream_same.
  - at_mode m Hwf.
    destruct (threads st !! _response_forwarder st) as [pc|] eqn:Hpc.
    2:{ apply lookup_ge_None in Hpc. pose proof (inv_forwarder _ _ _ _ Ht). lia. }
    destruct (terminated pc); [|done]. intros [= <-].
    eapply sinv_main_frame; eauto; stream_same.
  - at_mode m Hwf. intros [= <-]. eapply sinv_main_frame; eauto; stream_same.
  - at_mode m Hwf. intros [= <-]. eapply sinv_main_frame; eauto; stream_same.
  - at_mode m Hwf. intros [= <-]. eapply sinv_main_frame; eauto; try stream_same.
    + simpl. intros t pc Hl. by apply lookup_app_l_Some.
    + simpl. intros t Hl. apply lookup_ge_None in Hl.
      destruct (decide (t = length (threads st))) as [->|Hne].
      * by rewrite list_lookup_middle.
      * rewrite lookup_ge_None_2; [done|]. rewrite length_app. simpl. lia.
  - at_mode m Hwf. intros [= <-]. eapply sinv_main_frame; eauto; stream_same.
  - at_mode m Hwf. intros [= <-]. eapply sinv_main_frame; eauto; try stream_same.
    simpl. destruct (_response_lock st) as [[|t]|] eqn:Hl; simpl; try done.
    destruct Hlk as [Hlk' _]. by specialize (Hlk' eq_refl).
  - at_mode m Hwf. destruct (_response_lock st) eqn:Hl; [done|]. intros [= <-].
    eapply (sinv_acquire st _ TMain); eauto; try stream_same.
    simpl. by destruct (wf_locked _ Hwf) as (m0 & k' & ->).
  - at_mode m Hwf. intros [= <-].
    eapply (sinv_write st _ TMain); eauto; try stream_same; simpl.
    + by apply Hlk.
    + by apply Hlk.
    + by rewrite Hmain.
    + by destruct (wf_written _ Hwf) as (k' & ->).
  - at_mode m Hwf. intros [= <-].
    eapply (sinv_flush st _ TMain); eauto; try stream_same; simpl.
    + by apply Hlk.
    + by apply Hlk.
    + by rewrite Hmain.
    + by destruct (wf_flushed _ Hwf) as (k' & ->).
  - at_mode m Hwf. intros [= <-].
    eapply (sinv_release st _ TMain); eauto; try stream_same; simpl.
    + by apply Hlk.
    + by rewrite Hmain.
  - at_mode m Hwf; simpl in Hph;
      (destruct (_proc st) as [p|] eqn:Hp; [|by destruct Hph]); intros [= <-];
      eapply sinv_main_frame; eauto; stream_same.
  - at_mode m Hwf; simpl in Hph;
      (destruct (_proc st) as [p|] eqn:Hp; [|by destruct Hph]); intros [= <-];
      eapply sinv_main_frame; eauto; stream_same.
  - at_mode m Hwf. intros [= <-]. eapply sinv_main_frame; eauto; stream_same.
  - at_mode m Hwf. rewrite Hil. intros [= <-]. eapply sinv_main_frame; eauto; stream_same.
  - at_mode m Hwf. intros [= <-]. eapply sinv_main_frame; eauto; stream_same.
  - at_mode m Hwf. intros [= <-]. eapply sinv_main_frame; eauto; stream_same.
Qed.

Lemma at_flush_goto st st' t pc' :
  threads st' = <[t := pc']> (threads st) ->
  t < length (threads st) ->
  at_flush st' (TRelay t) = flushing pc'.
Proof.
  intros Hts Hlt. simpl. rewrite Hts, list_lookup_insert_eq by done. by destruct pc'.
Qed.

Lemma at_flush_pc st t pc :
  threads st !! t = Some pc -> at_flush st (TRelay t) = flushing pc.
Proof. intros Hpc. simpl. rewrite Hpc. by destruct pc. Qed.

Lemma sinv_relay_frame st st' t pc pc' :
  sinv st ->
  threads st !! t = Some pc ->
  threads st' = <[t := pc']> (threads st) ->
  main st' = main st ->
  _response_lock st' = _response_lock st ->
  controller_stream (trace st') = controller_stream (trace st) ->
  flushing pc' = flushing pc ->
  sinv st'.
Proof.
  intros Hs Hpc Hts Hmain Hl Hstr Hfl.
  assert (Hlt : t < length (threads st)) by (eapply lookup_lt_Some; eauto).
  eapply sinv_frame; eauto.
  intros [|t'] Hw.
  - simpl. by rewrite Hmain.
  - destruct (decide (t' = t)) as [->|Hne].
    + erewrite at_flush_goto, at_flush_pc; eauto.
    + simpl. by rewrite Hts, list_lookup_insert_ne.
Qed.

Ltac relay_side Hpc Hcrit :=
  first [ by (simpl; apply Hcrit)
        | by (simpl; rewrite Hpc)
        | by (simpl; rewrite list_lookup_insert_eq by done) ].

Lemma sinv_step_relay t st st' :
  inv st -> sinv st -> _forward_main_responses t st = Some st' -> sinv st'.
Proof.
  intros Hinv Hs. unfold _forward_main_responses.
  destruct (threads st !! t) as [pc|] eqn:Hpc; [|done].
  assert (Hlt : t < length (threads st)) by (eapply lookup_lt_Some; eauto).
  pose proof (inv_crit _ _ _ _ (inv_threads _ Hinv) t pc Hpc) as Hcrit.
  destruct pc; simpl.
  - destruct (_proc st); intros [= <-]; eapply sinv_relay_frame; eauto; stream_same.
  - destruct (_proc st) as [p|]; [destruct (procs st !! p) as [pr|]; [destruct (alive pr)|]|];
      intros [= <-]; eapply sinv_relay_frame; eauto; stream_same.
  - destruct (_proc st) as [p|]; intros [= <-]; eapply sinv_relay_frame; eauto; stream_same.
  - destruct (procs st !! p) as [pr|]; [|done].
    destruct (stdout_buf pr) as [|l rest]; [destruct (alive pr); [done|]|];
      intros [= <-]; eapply sinv_relay_frame; eauto; stream_same.
  - destruct (_main_backend_is_fresh st && _looks_like_echo l);
      [|destruct (decide (l = ""))]; intros [= <-];
      eapply sinv_relay_frame; eauto; stream_same.
  - destruct (_response_lock st) eqn:Hl; [done|]. intros [= <-].
    eapply (sinv_acquire st _ (TRelay t)); eauto; try stream_same;
      relay_side Hpc Hcrit.
  - intros [= <-].
    eapply (sinv_write st _ (TRelay t)); eauto; try stream_same;
      relay_side Hpc Hcrit.
  - intros [= <-].
    eapply (sinv_flush st _ (TRelay t)); eauto; try stream_same;
      relay_side Hpc Hcrit.
  - intros [= <-]. eapply sinv_relay_frame; eauto; stream_same.
  - intros [= <-].
    eapply (sinv_release st _ (TRelay t)); eauto; try stream_same;
      relay_side Hpc Hcrit.
  - done.
  - done.
Qed.

Lemma sinv_step l st st' : inv st -> sinv st -> step l st = Some st' -> sinv st'.
Proof.
  destruct l as [|t|p line|p|m]; simpl.
  - apply sinv_step_main.
  - apply sinv_step_relay.
  - intros _ Hs. destruct (procs st !! p) as [pr|]; [|done].
    destruct (alive pr && negb (bool_decide (line = ""))); [|done]. intros [= <-].
    eapply sinv_frame; eauto.
  - intros _ Hs. destruct (procs st !! p) as [pr|]; [|done].
    destruct (alive pr); [|done]. intros [= <-].
    eapply sinv_frame; eauto.
  - intros [[m0 Hm] _ _] Hs. pose proof Hm as (Hwf & _).
    destruct (main st) eqn:Hmain; [|done]. intros [= <-].
    destruct m0; try discriminate.
    eapply sinv_main_frame; eauto; stream_same.
Qed.

Lemma sinv_initial cwd : sinv (initial cwd).
Proof. done. Qed.

Lemma sinv_run ls : forall st st', inv st -> sinv st -> run ls st = Some st' -> sinv st'.
Proof.
  induction ls as [|l ls IH]; simpl; intros st st' Hinv Hs.
  - by intros [= <-].
  - destruct (step l st) as [st1|] eqn:Hstep; [|done].
    eauto using inv_step, sinv_step.
Qed.

Lemma sinv_reachable cwd st : reachable cwd st -> sinv st.
Proof. intros [ls Hrun]. eauto using sinv_run, inv_initial, sinv_initial. Qed.

(** A step either leaves the controller's stream alone or is made by the
    thread that holds the response lock, before and after. *)
Lemma step_writes l st st' :
  inv st -> step l st = Some st' ->
  controller_stream (trace st') = controller_stream (trace st)
  \/ exists who x,
      actor l = Some who
      /\ controller_stream (trace st') = controller_stream (trace st) ++ [(who, x)]
      /\ _response_lock st = Some who /\ _response_lock st' = Some who.
Proof.
  intros Hinv. destruct l as [|t|p line|p|m]; simpl.
  - destruct Hinv as [[m (Hwf & Hph & Hlk & Hil)] _ _]. unfold step_main.
    destruct (main st) as [|i k] eqn:Hmain; [done|].
    destruct i; simpl;
      repeat match goal with
             | |- context [match ?x with _ => _ end] => destruct x eqn:?
             end;
      try done; intros [= <-]; try (left; stream_same).
    + at_mode m Hwf. right. exists TMain, (OWrite (Direct m0)).
      repeat split; try stream_same; simpl; by apply Hlk.
    + at_mode m Hwf. right. exists TMain, OFlush.
      repeat split; try stream_same; simpl; by apply Hlk.
  - unfold _forward_main_responses. destruct (threads st !! t) as [pc|] eqn:Hpc; [|done].
    pose proof (inv_crit _ _ _ _ (inv_threads _ Hinv) t pc Hpc) as Hcrit.
    destruct pc; simpl;
      repeat match goal with
             | |- context [match ?x with _ => _ end] => destruct x eqn:?
             end;
      try done; intros [= <-]; try (left; stream_same).
    + right. exists (TRelay t), (OWrite (Relayed p l)).
      repeat split; try stream_same; simpl; by apply Hcrit.
    + right. exists (TRelay t), OFlush.
      repeat split; try stream_same; simpl; by apply Hcrit.
  - destruct (procs st !! p) as [pr|]; [|done].
    destruct (alive pr && negb (bool_decide (line = ""))); [|done]. intros [= <-]. by left.
  - destruct (procs st !! p) as [pr|]; [|done].
    destruct (alive pr); [|done]. intros [= <-]. by left.
  - destruct (main st); [|done]. intros [= <-]. left. stream_same.
Qed.

Lemma in_block_lock st who : inv st -> in_block st who = true -> _response_lock st = Some who.
Proof.
  intros [[m (Hwf & Hph & Hlk & Hil)] _ Ht]. destruct who as [|t]; simpl.
  - destruct (main st) as [|i k]; [done|].
    destruct i; try done; intros _; apply Hlk; by at_mode m Hwf.
  - destruct (threads st !! t) as [pc|] eqn:Hpc; [|done].
    intros Hcr. eapply inv_crit; eauto.
Qed.

(** *** Lines of a replaced worker *)

Lemma step_trace l st st' :
  inv st -> step l st = Some st' ->
  length (procs st) <= length (procs st')
  /\ (trace st' = trace st
      \/ exists w e,
          trace st' = trace st ++ [(w, e)]
          /\ (forall p, spawn_of e = Some p ->
                        p = length (procs st) /\ length (procs st') = S p)
          /\ (forall q, line_of e = Some q -> S q = length (procs st))).
Proof.
  intros Hinv. destruct l as [|t|p line|p|m]; simpl.
  - unfold step_main. destruct (main st) as [|i k] eqn:Hmain; [done|].
    destruct i; simpl;
      repeat match goal with
             | |- context [match ?x with _ => _ end] => destruct x eqn:?
             end;
      try done; intros [= <-]; simpl; rewrite ?length_alter, ?length_app; simpl;
      (split; [lia|]); right; eexists _, _; (split; [reflexivity|]); simpl;
      split; intros ? [= <-]; lia.
  - unfold _forward_main_responses. destruct (threads st !! t) as [pc|] eqn:Hpc; [|done].
    pose proof (fun p => inv_held _ _ _ _ (inv_threads _ Hinv) t pc p Hpc) as Hheld.
    destruct pc; simpl;
      repeat match goal with
             | |- context [match ?x with _ => _ end] => destruct x eqn:?
             end;
      try done; intros [= <-]; simpl; rewrite ?length_insert;
      (split; [lia|]); try (by left); right; eexists _, _; (split; [reflexivity|]); simpl;
      split; intros ? [= <-]; by apply Hheld.
  - destruct (procs st !! p) as [pr|]; [|done].
    destruct (alive pr && negb (bool_decide (line = ""))); [|done]. intros [= <-].
    simpl. rewrite length_insert. split; [lia|by left].
  - destruct (procs st !! p) as [pr|]; [|done].
    destruct (alive pr); [|done]. intros [= <-].
    simpl. rewrite length_insert. split; [lia|by left].
  - destruct (main st); [|done]. intros [= <-]. simpl. split; [lia|].
    right. eexists _, _. split; [reflexivity|]. split; intros ? [=].
Qed.

Lemma snoc_split {A} (tr pre post : list A) (x y : A) :
  tr ++ [y] = pre ++ x :: post ->
  (exists post0, post = post0 ++ [y] /\ tr = pre ++ x :: post0)
  \/ (post = [] /\ x = y /\ tr = pre).
Proof.
  destruct post as [|z post _] using rev_ind.
  - intros H. right. apply app_inj_tail in H as [-> ->]. done.
  - intros H. left. exists post.
    change (pre ++ x :: post ++ [z]) with (pre ++ (x :: post) ++ [z]) in H.
    rewrite app_assoc in H. apply app_inj_tail in H as [-> ->]. done.
Qed.

Lemma no_stale_lines_step l st st' :
  inv st -> step l st = Some st' ->
  no_stale_lines (length (procs st)) (trace st) ->
  no_stale_lines (length (procs st')) (trace st').
Proof.
  intros Hinv Hstep Hns. destruct (step_trace _ _ _ Hinv Hstep) as [Hlen Htr].
  destruct Htr as [->|(w0 & e0 & -> & Hsp & Hln)].
  { intros pre post w e p Heq He. destruct (Hns _ _ _ _ _ Heq He) as (? & ? & ?).
    repeat split; eauto. lia. }
  intros pre post w e p Heq He.
  apply snoc_split in Heq as [(post0 & -> & Heq)|(-> & [= -> ->] & <-)].
  - destruct (Hns _ _ _ _ _ Heq He) as (Hlt & Hpost & Hpre).
    split; [lia|]. split; [|done].
    intros w' e' q [Hin|Hin]%elem_of_app Hq; [eauto|].
    apply list_elem_of_singleton in Hin as [= -> ->].
    specialize (Hln _ Hq). lia.
  - destruct (Hsp _ He) as [-> Hlen']. split; [lia|]. split.
    + intros w' e' q Hin. by apply elem_of_nil in Hin.
    + intros w' e' p0 Hin Hp0.
      apply list_elem_of_split in Hin as (pre1 & post1 & Heq).
      by destruct (Hns _ _ _ _ _ Heq Hp0) as (? & _).
Qed.

Lemma no_stale_lines_initial cwd :
  no_stale_lines (length (procs (initial cwd))) (trace (initial cwd)).
Proof.
  intros pre post w e p Heq He. simpl in *.
  destruct pre as [|x0 [|x1 [|x2 [|x3 [|x4 pre]]]]]; simplify_eq/=.
  repeat split; [lia|..].
  - intros w' e' q Hin Hq.
    repeat (apply elem_of_cons in Hin as [Hin|Hin]; [by simplify_eq/=|]).
    by apply elem_of_nil in Hin.
  - intros w' e' p0 Hin Hq.
    repeat (apply elem_of_cons in Hin as [Hin|Hin]; [by simplify_eq/=|]).
    by apply elem_of_nil in Hin.
Qed.

Lemma no_stale_lines_run ls :
  forall st st', inv st -> run ls st = Some st' ->
    no_stale_lines (length (procs st)) (trace st) ->
    no_stale_lines (length (procs st')) (trace st').
Proof.
  induction ls as [|l ls IH]; simpl; intros st st' Hinv.
  - by intros [= <-].
  - destruct (step l st) as [st1|] eqn:Hstep; [|done].
    eauto using inv_step, no_stale_lines_step.
Qed.

(** *** The main thread is never stuck *)

Lemma run_app ls1 ls2 st :
  run (ls1 ++ ls2) st = match run ls1 st with Some st1 => run ls2 st1 | None => None end.
Proof.
  revert st. induction ls1 as [|l ls1 IH]; simpl; intros st; [done|].
  destruct (step l st); [apply IH|done].
Qed.

Lemma lock_free_at_join st k :
  inv st -> main st = IJoin :: k ->
  forall pc, threads st !! _response_forwarder st = Some pc -> critical pc = false ->
             _response_lock st = None.
Proof.
  intros [[m (Hwf & Hph & Hlk & Hil)] _ Ht] Hmain pc Hpc Hcr.
  rewrite Hmain in Hwf. at_mode m Hwf.
  destruct (_response_lock st) as [[|t]|] eqn:Hl; [| |done].
  - destruct Hlk as [Hlk _]. by specialize (Hlk eq_refl).
  - destruct (inv_lock _ _ _ _ Ht _ eq_refl) as (pc' & Hpc' & Hcr').
    destruct (decide (t = _response_forwarder st)) as [->|Hne]; [congruence|].
    pose proof (inv_old _ _ _ _ Ht _ _ Hpc' Hne). by destruct pc'.
Qed.

(** While the main thread waits in [join], the forwarder's next statement
    is never blocked and brings it closer to its end. *)
Ltac wind_down :=
  eexists _, _; (split; [done|]); simpl;
  rewrite list_lookup_insert_eq by done; repeat split; auto; simpl; lia.

Lemma forwarder_winds_down st k pc :
  inv st -> main st = IJoin :: k ->
  threads st !! _response_forwarder st = Some pc ->
  terminated pc = false ->
  exists st' pc',
    step (LRelay (_response_forwarder st)) st = Some st'
    /\ main st' = IJoin :: k
    /\ _response_forwarder st' = _response_forwarder st
    /\ threads st' !! _response_forwarder st = Some pc'
    /\ steps_left pc' < steps_left pc.
Proof.
  intros Hinv Hmain Hpc Hrun.
  pose proof (lock_free_at_join _ _ Hinv Hmain _ Hpc) as Hfree.
  pose proof (fun p => inv_held _ _ _ _ (inv_threads _ Hinv) _ pc p Hpc) as Hheld.
  destruct Hinv as [[m (Hwf & Hph & Hlk & Hil)] _ Ht].
  rewrite Hmain in Hwf. at_mode m Hwf. destruct Hph as [Hnone Hdead].
  assert (Hlt : _response_forwarder st < length (threads st))
    by (eapply lookup_lt_Some; eauto).
  simpl. unfold _forward_main_responses. rewrite Hpc.
  destruct pc; simpl in *; try done; rewrite ?Hnone.
  - wind_down.
  - wind_down.
  - wind_down.
  - specialize (Hheld _ eq_refl).
    destruct (procs st !! p) as [pr|] eqn:Hpr.
    2:{ apply lookup_ge_None in Hpr. lia. }
    rewrite (Hdead _ _ Hpr Hheld).
    destruct (stdout_buf pr); wind_down.
  - destruct (_main_backend_is_fresh st && _looks_like_echo l);
      [|destruct (decide (l = ""))]; wind_down.
  - rewrite Hfree by done. wind_down.
  - wind_down.
  - wind_down.
  - wind_down.
  - wind_down.
Qed.

(** [join] returns: left alone, the forwarder ends after at most eight of
    its own statements. *)
Lemma join_returns st k :
  inv st -> main st = IJoin :: k ->
  exists n st',
    n <= 8
    /\ run (replicate n (LRelay (_response_forwarder st))) st = Some st'
    /\ main st' = IJoin :: k
    /\ _response_forwarder st' = _response_forwarder st
    /\ exists pc, threads st' !! _response_forwarder st = Some pc /\ terminated pc = true.
Proof.
  intros Hinv Hmain.
  assert (Hex : exists pc, threads st !! _response_forwarder st = Some pc).
  { apply lookup_lt_is_Some_2. eapply inv_forwarder, inv_threads, Hinv. }
  destruct Hex as [pc Hpc].
  assert (Hb : steps_left pc <= 8) by (destruct pc; simpl; lia).
  revert Hb. generalize 8 as b. intros b. revert st pc Hinv Hmain Hpc.
  induction b as [|b IH]; intros st pc Hinv Hmain Hpc Hb.
  - exists 0, st. simpl. repeat split; auto. exists pc. split; [done|].
    destruct pc; simpl in *; try lia; done.
  - destruct (terminated pc) eqn:Hterm.
    + exists 0, st. simpl. repeat split; auto; [lia|]. eauto.
    + destruct (forwarder_winds_down _ _ _ Hinv Hmain Hpc Hterm)
        as (st1 & pc1 & Hstep & Hmain1 & Hf1 & Hpc1 & Hlt).
      rewrite <- Hf1 in Hpc1.
      destruct (IH st1 pc1) as (n & st' & Hn & Hrun & Hmain' & Hf' & Hdone); auto.
      { eapply inv_step; eauto. }
      { lia. }
      exists (S n), st'. simpl in Hstep |- *. rewrite Hstep.
      rewrite Hf1 in Hrun, Hf', Hdone. repeat split; auto. lia.
Qed.

(** A forwarder inside its [with] block is never blocked. *)
Lemma holder_moves st t pc :
  threads st !! t = Some pc ->
  critical pc = true ->
  exists st' pc',
    step (LRelay t) st = Some st'
    /\ main st' = main st
    /\ threads st' !! t = Some pc'
    /\ steps_left pc' < steps_left pc
    /\ (critical pc' = true \/ _response_lock st' = None).
Proof.
  intros Hpc Hcr.
  assert (Hlt : t < length (threads st)) by (eapply lookup_lt_Some; eauto).
  simpl. unfold _forward_main_responses. rewrite Hpc.
  destruct pc; simpl in *; try done; eexists _, _; (split; [done|]); simpl;
    rewrite list_lookup_insert_eq by done; repeat split; auto; simpl; lia.
Qed.

(** The response lock a forwarder holds is released after at most four of
    its statements. *)
Lemma lock_released st t :
  inv st -> _response_lock st = Some (TRelay t) ->
  exists n st',
    run (replicate n (LRelay t)) st = Some st'
    /\ main st' = main st
    /\ _response_lock st' = None.
Proof.
  intros Hinv Hl.
  destruct (inv_lock _ _ _ _ (inv_threads _ Hinv) _ Hl) as (pc & Hpc & Hcr).
  remember (steps_left pc) as b eqn:Hb.
  assert (Hle : steps_left pc <= b) by lia. clear Hb.
  revert st pc Hinv Hl Hpc Hcr Hle.
  induction b as [|b IH]; intros st pc Hinv Hl Hpc Hcr Hle.
  - destruct pc; simpl in *; try done; lia.
  - destruct (holder_moves _ _ _ Hpc Hcr) as (st1 & pc1 & Hstep & Hmain & Hpc1 & Hlt & Hor).
    destruct (_response_lock st1) as [w|] eqn:Hl1.
    + destruct Hor as [Hcr1|?]; [|done].
      assert (Hinv1 : inv st1) by (eapply inv_step; eauto).
      pose proof (inv_crit _ _ _ _ (inv_threads _ Hinv1) _ _ Hpc1 Hcr1) as Hw.
      destruct (IH st1 pc1) as (n & st' & Hrun & Hmain' & Hnone); auto; [lia|].
      exists (S n), st'. simpl in Hstep |- *. rewrite Hstep.
      repeat split; auto. congruence.
    + exists 1, st1. simpl in Hstep |- *. rewrite Hstep. auto.
Qed.

Lemma replicate_relay n t : Forall (fun l => is_relay l = true) (replicate n (LRelay t)).
Proof. induction n; simpl; constructor; auto. Qed.

Lemma step_main_pops st st' i k :
  main st = i :: k -> step_main st = Some st' -> main st' = k \/ main st' = [].
Proof.
  unfold step_main. intros ->.
  destruct i; simpl;
    repeat match goal with
           | |- context [match ?x with _ => _ end] => destruct x eqn:?
           end;
    try done; intros [= <-]; simpl; auto.
Qed.

(** Whatever the main thread is about to do, the forwarders alone can bring
    the object to a state in which it does it. *)
Lemma main_progress st i k :
  inv st -> main st = i :: k ->
  exists ls st1 st',
    Forall (fun l => is_relay l = true) ls
    /\ run ls st = Some st1
    /\ main st1 = i :: k
    /\ step LMain st1 = Some st'.
Proof.
  intros Hinv Hmain.
  assert (Hdirect : is_Some (step_main st) ->
    exists ls st1 st',
      Forall (fun l => is_relay l = true) ls /\ run ls st = Some st1
      /\ main st1 = i :: k /\ step LMain st1 = Some st').
  { intros [st' Hst']. exists [], st, st'. simpl. auto. }
  pose proof Hinv as [[m (Hwf & Hph & Hlk & Hil)] _ Ht].
  rewrite Hmain in Hwf.
  destruct i; try (apply Hdirect; unfold step_main; rewrite Hmain; simpl;
                   repeat match goal with
                          | |- context [match ?x with _ => _ end] => destruct x eqn:?
                          end; by eauto).
  - (* IJoin *)
    destruct (join_returns _ _ Hinv Hmain) as (n & st1 & _ & Hrun & Hmain1 & Hf & pc & Hpc & Hterm).
    eexists _, st1, _. split; [apply replicate_relay|]. split; [done|]. split; [done|].
    simpl. unfold step_main. rewrite Hmain1. simpl. rewrite Hf, Hpc, Hterm. done.
  - (* IAcquireResp *)
    at_mode m Hwf.
    destruct (_response_lock st) as [[|t]|] eqn:Hl.
    + destruct Hlk as [Hlk _]. by specialize (Hlk eq_refl).
    + rewrite <- Hl in Ht.
      destruct (lock_released _ _ Hinv Hl) as (n & st1 & Hrun & Hmain1 & Hnone).
      eexists _, st1, _. split; [apply replicate_relay|]. split; [done|].
      split; [congruence|].
      simpl. unfold step_main. rewrite Hmain1, Hmain. simpl. rewrite Hnone. done.
    + apply Hdirect. unfold step_main. rewrite Hmain. simpl. rewrite Hl. eauto.
  - (* IAcquireInt *)
    at_mode m Hwf. apply Hdirect. unfold step_main. rewrite Hmain. simpl.
    rewrite Hil. eauto.
Qed.

Lemma relay_keeps_main l st st' :
  is_relay l = true -> step l st = Some st' -> main st' = main st.
Proof.
  destruct l as [|t| | |]; try done. intros _. simpl. unfold _forward_main_responses.
  destruct (threads st !! t) as [pc|]; [|done].
  destruct pc; simpl;
    repeat match goal with
           | |- context [match ?x with _ => _ end] => destruct x eqn:?
           end;
    try done; intros [= <-]; done.
Qed.

Lemma relay_no_command ls :
  Forall (fun l => is_relay l = true) ls -> no_command ls.
Proof.
  unfold no_command. intros H. eapply Forall_impl; [exact H|]. by intros [].
Qed.

(** Every command the main thread has begun can be brought to its end
    without a further message of the controller. *)
Lemma command_completes st :
  inv st ->
  exists ls st', no_command ls /\ run ls st = Some st' /\ main st' = [].
Proof.
  remember (length (main st)) as n eqn:Hn. revert st Hn.
  induction n as [n IH] using lt_wf_ind. intros st Hn Hinv.
  destruct (main st) as [|i k] eqn:Hmain.
  { exists [], st. simpl. repeat split; auto. constructor. }
  destruct (main_progress _ _ _ Hinv Hmain) as (ls & st1 & st2 & Hrel & Hrun & Hmain1 & Hstep).
  assert (Hinv2 : inv st2) by (eapply inv_step; [eapply inv_run; eauto|eauto]).
  assert (Hlen : length (main st2) < n).
  { destruct (step_main_pops _ _ _ _ Hmain1 Hstep) as [-> | ->]; subst n; simpl; lia. }
  destruct (IH _ Hlen st2 eq_refl Hinv2) as (ls2 & st' & Hnc & Hrun2 & Hdone).
  exists (ls ++ LMain :: ls2), st'. repeat split; auto.
  - apply Forall_app. split; [by apply relay_no_command|]. by constructor.
  - rewrite run_app, Hrun. simpl in Hstep |- *. by rewrite Hstep.
Qed.

(** *** The main thread runs its statements in order *)

Arguments main_events : simpl never.

Lemma main_events_snoc tr w e :
  main_events (tr ++ [(w, e)])
  = main_events tr ++ match w with TMain => [e] | TRelay _ => [] end.
Proof.
  unfold main_events. rewrite omap_app. simpl. destruct w; simpl; by rewrite ?app_nil_r.
Qed.

Lemma exec_mexec i k st st' :
  exec_instr i (set_main k st) = Some st' ->
  view st' = (mexec i (view st)).1.2
  /\ trace st' = trace st ++ [(TMain, (mexec i (view st)).1.1)]
  /\ main st' = if (mexec i (view st)).2 then [] else k.
Proof.
  destruct i; simpl;
    repeat match goal with
           | |- context [match ?x with _ => _ end] => destruct x eqn:?
           end;
    try done; intros [= <-]; unfold view; simpl;
    rewrite ?length_alter, ?length_app; simpl;
    rewrite ?Nat.add_1_r; try done.
  - case_decide; [done|]. exfalso.
    match goal with H : _ !! _ = Some _ |- _ => apply lookup_lt_Some in H end. lia.
  - case_decide; [|done]. exfalso.
    match goal with H : _ !! _ = None |- _ => apply lookup_ge_None in H end. lia.
Qed.

Lemma other_step_view l st st' :
  l <> LMain -> is_command l = false -> step l st = Some st' ->
  view st' = view st /\ main st' = main st
  /\ main_events (trace st') = main_events (trace st).
Proof.
  destruct l as [|t|p line|p|m]; try done; intros _ _; simpl.
  - unfold _forward_main_responses. destruct (threads st !! t) as [pc|]; [|done].
    destruct pc; simpl;
      repeat match goal with
             | |- context [match ?x with _ => _ end] => destruct x eqn:?
             end;
      try done; intros [= <-]; unfold view; simpl;
      rewrite ?length_insert, ?main_events_snoc; simpl; rewrite ?app_nil_r; done.
  - destruct (procs st !! p) as [pr|]; [|done].
    destruct (alive pr && negb (bool_decide (line = ""))); [|done]. intros [= <-].
    unfold view. simpl. by rewrite length_insert.
  - destruct (procs st !! p) as [pr|]; [|done].
    destruct (alive pr); [|done]. intros [= <-].
    unfold view. simpl. by rewrite length_insert.
Qed.

(** Whatever the interleaving, when the main thread has finished its
    statements its events are those of the statements run in order. *)
Lemma main_sequential ls :
  forall st st',
    no_command ls -> run ls st = Some st' -> main st' = [] ->
    main_events (trace st') = main_events (trace st) ++ (mrun (main st) (view st)).1.1
    /\ view st' = (mrun (main st) (view st)).1.2.
Proof.
  induction ls as [|l ls IH]; simpl; intros st st' Hnc.
  - intros [= <-] ->. simpl. by rewrite app_nil_r.
  - apply Forall_cons in Hnc as [Hl Hnc].
    destruct (step l st) as [st1|] eqn:Hstep; [|done]. intros Hrun Hdone.
    destruct (IH _ _ Hnc Hrun Hdone) as [Hev Hv].
    assert (Hcase : l = LMain \/ l <> LMain) by (destruct l; auto; by right).
    destruct Hcase as [->|Hne].
    + simpl in Hstep. unfold step_main in Hstep.
      destruct (main st) as [|i k] eqn:Hmain; [done|].
      apply exec_mexec in Hstep as (Hv1 & Htr1 & Hmain1).
      rewrite Hev, Hv, Htr1, Hmain1, Hv1, main_events_snoc. simpl.
      destruct (mexec i (view st)) as [[e v1] r]. simpl.
      destruct r; simpl.
      * by rewrite app_nil_r.
      * destruct (mrun k v1) as [[es v2] r2]. simpl. by rewrite <- app_assoc.
    + destruct (other_step_view _ _ _ Hne Hl Hstep) as (Hv1 & Hmain1 & Htr1).
      by rewrite Hev, Hv, Htr1, Hmain1, Hv1.
Qed.

Lemma handles_events m st st' :
  handles m st st' ->
  main st = []
  /\ main_events (trace st')
     = main_events (trace st) ++ EReceive m :: (mrun (dispatch m) (view st)).1.1
  /\ view st' = (mrun (dispatch m) (view st)).1.2.
Proof.
  intros (ls & Hnc & Hrun & Hdone). simpl in Hrun.
  destruct (main st) eqn:Hmain; [|done]. split; [done|].
  destruct (main_sequential _ _ _ Hnc Hrun Hdone) as [Hev Hv].
  simpl in Hev, Hv. rewrite main_events_snoc in Hev. simpl in Hev.
  rewrite <- app_assoc in Hev. done.
Qed.

(** Every message fetched is handled to its end in some interleaving. *)
Lemma handles_exists m st :
  inv st -> main st = [] -> exists st', handles m st st'.
Proof.
  intros Hinv Hmain.
  assert (Hstep : step (LCommand m) st
                  = Some (set_main (dispatch m) (emit TMain (EReceive m) st))).
  { simpl. by rewrite Hmain. }
  destruct (command_completes _ (inv_step _ _ _ Hinv Hstep)) as (ls & st' & Hnc & Hrun & Hdone).
  exists st', ls. repeat split; auto. simpl. by rewrite Hmain.
Qed.

Lemma mrun_app p q v :
  mrun (p ++ q) v
  = let '(es, v', r) := mrun p v in
    if r then (es, v', true)
    else let '(es', v'', r') := mrun q v' in (es ++ es', v'', r').
Proof.
  revert v. induction p as [|i p IH]; simpl; intros v.
  - by destruct (mrun q v) as [[es v'] r].
  - destruct (mexec i v) as [[e v1] r]. destruct r; [done|].
    rewrite IH. destruct (mrun p v1) as [[es v2] r2]. destruct r2; [done|].
    by destruct (mrun q v2) as [[es' v3] r3].
Qed.

Lemma mrun_forward_lines ls rest v p :
  v_proc v = Some p ->
  mrun (flat_map (fun line => [IStdinWrite line; IStdinFlush]) ls ++ rest) v
  = let '(es, v', r) := mrun rest v in
    (flat_map (fun line => [EStdin p (SWrite line); EStdin p SFlush]) ls ++ es, v', r).
Proof.
  intros Hp. induction ls as [|l ls IH]; simpl.
  - by destruct (mrun rest v) as [[es v'] r].
  - rewrite Hp. simpl. rewrite Hp. simpl. rewrite IH.
    by destruct (mrun rest v) as [[es v'] r].
Qed.

Lemma mrun_forward msg v p :
  v_proc v = Some p ->
  mrun (_forward_incoming_command msg) v = (forward_events p msg, v, false).
Proof.
  intros Hp. unfold _forward_incoming_command, forward_events.
  rewrite (mrun_forward_lines _ _ _ _ Hp). simpl. by rewrite Hp.
Qed.

Lemma mrun_call_handler h cmd v :
  (mrun (call_handler h cmd) v).1 = (local_events h cmd, v).
Proof.
  unfold call_handler, local_events.
  destruct (h cmd) as [r|e]; [done|]. by destruct (is_Exception e).
Qed.

Lemma idle_view st :
  inv st -> main st = [] ->
  exists p, _proc st = Some p /\ _response_forwarder st < length (threads st).
Proof.
  intros [[m (Hwf & Hph & Hlk & Hil)] _ Ht] Hmain.
  rewrite Hmain in Hwf. at_mode m Hwf. destruct Hph as [p Hp].
  exists p. split; [done|]. eapply inv_forwarder; eauto.
Qed.

(** What the main thread does for a command with a name, in every
    interleaving. *)
Lemma normal_command_events st st' cmd c rest :
  inv st ->
  name cmd = String c rest ->
  handles (CommandToBackend cmd) st st' ->
  exists p,
    _proc st = Some p
    /\ main_events (trace st')
       = main_events (trace st)
         ++ EReceive (CommandToBackend cmd)
         :: restart_part cmd st p ++ routed_events cmd (worker_after cmd st p)
    /\ _proc st' = Some (worker_after cmd st p)
    /\ _cwd st' = (if restarting cmd then cwd_after cmd (_cwd st) else _cwd st).
Proof.
  intros Hinv Hname Hh. destruct (handles_events _ _ _ Hh) as (Hmain & Hev & Hv).
  destruct (idle_view _ Hinv Hmain) as (p & Hp & Hf). exists p. split; [done|].
  assert (Hrun :
    (mrun (dispatch (CommandToBackend cmd)) (view st)).1
    = (restart_part cmd st p ++ routed_events cmd (worker_after cmd st p),
       MView (if restarting cmd then cwd_after cmd (_cwd st) else _cwd st)
             (Some (worker_after cmd st p))
             (if restarting cmd then S (length (procs st)) else length (procs st))
             (if restarting cmd then S (length (threads st)) else length (threads st))
             (if restarting cmd then length (threads st) else _response_forwarder st))).
  { simpl. unfold _handle_normal_command, restart_part, worker_after, restarting,
      routed_events, adopt_events, cwd_after.
    rewrite Hname. rewrite <- Hname.
    assert (Hrouted : forall v q, v_proc v = Some q ->
      (mrun match getattr_self ("_cmd_" +:+ name cmd) with
            | Some handler => call_handler handler cmd
            | None => _forward_incoming_command (CommandToBackend cmd)
            end v).1
      = (match getattr_self ("_cmd_" +:+ name cmd) with
         | Some handler => local_events handler cmd
         | None => forward_events q (CommandToBackend cmd)
         end, v)).
    { intros v q Hq. destruct (getattr_self _).
      - apply mrun_call_handler.
      - by rewrite (mrun_forward _ _ _ Hq). }
    destruct (Py.isupper c).
    - rewrite mrun_app.
      destruct (fields cmd !! "expected_cwd") as [d|]; simpl; unfold view; simpl;
        rewrite Hp; simpl; (case_decide; [|lia]); simpl.
      + match goal with
        | |- context [mrun ?q ?v] =>
            pose proof (Hrouted v (length (procs st)) eq_refl) as Hr;
            destruct (mrun q v) as [[es v2] r2]
        end.
        simpl in Hr. by injection Hr as -> ->.
      + match goal with
        | |- context [mrun ?q ?v] =>
            pose proof (Hrouted v (length (procs st)) eq_refl) as Hr;
            destruct (mrun q v) as [[es v2] r2]
        end.
        simpl in Hr. by injection Hr as -> ->.
    - simpl. rewrite (Hrouted (view st) p Hp). unfold view. by rewrite Hp. }
  rewrite Hev. destruct (mrun _ _) as [[es v2] r2]. simpl in Hrun, Hv.
  injection Hrun as -> ->. split; [done|].
  unfold view in Hv. by injection Hv as -> -> _ _ _.
Qed.

(** *** Facts on the events of a command *)

Lemma forward_events_stdin p msg :
  Forall (fun e => is_stdin_event e = true) (forward_events p msg).
Proof.
  unfold forward_events. apply Forall_app. split; [|by repeat constructor].
  induction (Py.splitlines_keepends _); simpl; repeat constructor; auto.
Qed.


Lemma routed_events_no_restart cmd p :
  Forall (fun e => is_restart_event e = false) (routed_events cmd p).
Proof.
  unfold routed_events. destruct (getattr_self _) as [h|].
  - unfold local_events. constructor; [done|].
    destruct (h cmd) as [r|e]; [by repeat constructor|].
    destruct (is_Exception e); by repeat constructor.
  - eapply Forall_impl; [apply forward_events_stdin|]. by intros [].
Qed.

Lemma adopt_events_no_restart cmd :
  Forall (fun e => is_restart_event e = false) (adopt_events cmd).
Proof. unfold adopt_events. destruct (_ !! _); by repeat constructor. Qed.

Lemma restart_part_no_out cmd st p :
  Forall (fun e => is_out_event e = false) (restart_part cmd st p).
Proof.
  unfold restart_part, adopt_events. destruct (restarting cmd); [|constructor].
  destruct (_ !! _); by repeat constructor.
Qed.

Lemma restart_part_no_stdin cmd st p :
  Forall (fun e => is_stdin_event e = false) (restart_part cmd st p).
Proof.
  unfold restart_part, adopt_events. destruct (restarting cmd); [|constructor].
  destruct (_ !! _); by repeat constructor.
Qed.

Lemma islower_not_isupper c : Py.islower c = true -> Py.isupper c = false.
Proof.
  destruct c as [[] [] [] [] [] [] [] []]; vm_compute; congruence.
Qed.

Lemma lowercase_not_restarting cmd : lowercase_initial cmd = true -> restarting cmd = false.
Proof.
  unfold lowercase_initial, restarting. destruct (name cmd); [done|].
  apply islower_not_isupper.
Qed.

(** *** [str.splitlines(keepends=True)] *)

Lemma append_cons a s t : String a s +:+ t = String a (s +:+ t).
Proof. reflexivity. Qed.

Lemma append_nil_l s : "" +:+ s = s.
Proof. reflexivity. Qed.

Lemma append_nil_r s : s +:+ "" = s.
Proof. induction s as [|a s IH]; [done|]. by rewrite append_cons, IH. Qed.

Lemma append_assoc s t u : (s +:+ t) +:+ u = s +:+ (t +:+ u).
Proof. induction s as [|a s IH]; [done|]. by rewrite !append_cons, IH. Qed.

Lemma join_cons l ls : Py.join (l :: ls) = l +:+ Py.join ls.
Proof. reflexivity. Qed.

Lemma join_splitlines_from s : forall cur, Py.join (Py.splitlines_from cur s) = cur +:+ s.
Proof.
  induction s as [s IH] using (induction_ltof1 _ String.length). unfold ltof in IH.
  intros cur. destruct s as [|c rest]; simpl.
  - destruct cur; [done|]. by rewrite join_cons, !append_nil_r.
  - destruct (Py.is_cr c).
    + destruct rest as [|d rest'].
      * rewrite join_cons. apply append_nil_r.
      * destruct (Py.is_lf d); rewrite join_cons, IH by (simpl; lia);
          by rewrite append_nil_l, append_assoc.
    + destruct (Py.is_linebreak c); rewrite ?join_cons, IH by (simpl; lia);
        by rewrite ?append_nil_l, append_assoc.
Qed.

Lemma ends_with_break_snoc s c :
  Py.ends_with_break (s +:+ String c "") = Py.is_cr c || Py.is_linebreak c.
Proof.
  induction s as [|a s IH]; [done|].
  rewrite append_cons. simpl. rewrite IH. by destruct s.
Qed.

Lemma ends_with_break_crlf s c d :
  Py.is_lf d = true -> Py.ends_with_break (s +:+ String c (String d "")) = true.
Proof.
  intros Hd. replace (s +:+ String c (String d "")) with ((s +:+ String c "") +:+ String d "")
    by (by rewrite append_assoc).
  rewrite ends_with_break_snoc.
  unfold Py.is_lf in Hd. unfold Py.is_linebreak. rewrite Hd. simpl. apply orb_true_r.
Qed.

Lemma breaks_between_cons l ls :
  Py.ends_with_break l = true -> Py.breaks_between ls = true ->
  Py.breaks_between (l :: ls) = true.
Proof. intros Hl Hls. simpl. destruct ls; [done|]. by rewrite Hl. Qed.

Lemma splitlines_from_breaks s :
  forall cur, Py.breaks_between (Py.splitlines_from cur s) = true
              /\ Forall (fun l => l <> "") (Py.splitlines_from cur s).
Proof.
  assert (Hne : forall cur c t, cur +:+ String c t <> "") by (by intros [|??] ??).
  induction s as [s IH] using (induction_ltof1 _ String.length). unfold ltof in IH.
  intros cur. destruct s as [|c rest]; simpl.
  - destruct cur; [done|]. split; [done|]. by repeat constructor.
  - destruct (Py.is_cr c) eqn:Hcr.
    + destruct rest as [|d rest'].
      * split; [done|]. by repeat constructor.
      * destruct (Py.is_lf d) eqn:Hlf.
        -- destruct (IH rest' ltac:(simpl; lia) "") as [Hb Hn]. split.
           ++ apply breaks_between_cons; [by apply ends_with_break_crlf|done].
           ++ constructor; [apply Hne|done].
        -- destruct (IH (String d rest') ltac:(simpl; lia) "") as [Hb Hn]. split.
           ++ apply breaks_between_cons; [|done]. by rewrite ends_with_break_snoc, Hcr.
           ++ constructor; [apply Hne|done].
    + destruct (Py.is_linebreak c) eqn:Hlb.
      * destruct (IH rest ltac:(simpl; lia) "") as [Hb Hn]. split.
        -- apply breaks_between_cons; [|done].
           rewrite ends_with_break_snoc, Hlb. apply orb_true_r.
        -- constructor; [apply Hne|done].
      * apply IH. simpl. lia.
Qed.

(** The lines put together again are the text: no character is lost and
    every line break stays where the codec put it. *)
Lemma join_splitlines s : Py.join (Py.splitlines_keepends s) = s.
Proof. apply join_splitlines_from. Qed.

(** *** Echo suppression *)

Arguments thread_events : simpl never.

Lemma thread_events_snoc t tr w e :
  thread_events t (tr ++ [(w, e)])
  = thread_events t tr
    ++ match w with
       | TRelay t' => if decide (t' = t) then [e] else []
       | TMain => []
       end.
Proof.
  unfold thread_events. rewrite omap_app. simpl.
  destruct w as [|t']; simpl; [by rewrite app_nil_r|].
  destruct (decide (t' = t)); simpl; by rewrite ?app_nil_r.
Qed.

Lemma rrun_from_app a es1 es2 :
  rrun_from a (es1 ++ es2) = rrun_from (rrun_from a es1) es2.
Proof. apply foldl_app. Qed.

Lemma rel_terminated pc f f' a : terminated pc = true -> rel pc f a -> rel pc f' a.
Proof. by destruct pc. Qed.

(** A statement of thread [t] that adds the events [es] to the trace. *)
Lemma rinv_relay_move st st' t pc pc' es :
  inv st -> rinv st ->
  threads st !! t = Some pc ->
  terminated pc = false ->
  threads st' = <[t := pc']> (threads st) ->
  trace st' = trace st ++ map (fun e => (TRelay t, e)) es ->
  length es <= 1 ->
  (forall a, rel pc (_main_backend_is_fresh st) a ->
             exists a', rrun_from (Some a) es = Some a'
                        /\ rel pc' (_main_backend_is_fresh st') a') ->
  rinv st'.
Proof.
  intros Hinv [Hr Hnone] Hpc Hrun Hts Htr Hlen Hmove.
  assert (Hlt : t < length (threads st)) by (eapply lookup_lt_Some; eauto).
  assert (Hev : forall t', thread_events t' (trace st')
                           = thread_events t' (trace st) ++ if decide (t = t') then es else []).
  { intros t'. rewrite Htr. destruct es as [|e [|e' es]]; simpl in *; [| |lia].
    - rewrite app_nil_r. by destruct (decide _); rewrite app_nil_r.
    - rewrite thread_events_snoc. by destruct (decide _). }
  split.
  - intros t' pc0. rewrite Hts, Hev.
    intros [(-> & <- & _)|(Hne & Hl)]%list_lookup_insert_Some.
    + rewrite decide_True by done. destruct (Hr _ _ Hpc) as (a & Ha & Hrel).
      destruct (Hmove _ Hrel) as (a' & Ha' & Hrel').
      exists a'. split; [|done]. by rewrite rrun_from_app, Ha.
    + rewrite decide_False by done. rewrite app_nil_r.
      destruct (Hr _ _ Hl) as (a & Ha & Hrel). exists a. split; [done|].
      eapply rel_terminated; [|exact Hrel].
      eapply inv_old; [eapply inv_threads, Hinv|exact Hl|].
      intros ->. destruct (decide (t = _response_forwarder st)) as [|Hnf]; [done|].
      pose proof (inv_old _ _ _ _ (inv_threads _ Hinv) _ _ Hpc Hnf). congruence.
  - intros t'. rewrite Hts, Hev. intros Hl.
    apply lookup_ge_None in Hl. rewrite length_insert in Hl.
    rewrite decide_False by lia. rewrite app_nil_r.
    apply Hnone. by apply lookup_ge_None.
Qed.

Ltac relay_moves t es :=
  eapply (rinv_relay_move _ _ t _ _ es); eauto; simpl; rewrite ?app_nil_r; try done;
  try lia.

Lemma rinv_step_relay t st st' :
  inv st -> rinv st -> _forward_main_responses t st = Some st' -> rinv st'.
Proof.
  intros Hinv Hr. unfold _forward_main_responses.
  destruct (threads st !! t) as [pc|] eqn:Hpc; [|done].
  destruct pc; simpl.
  - destruct (_proc st); intros [= <-].
    + relay_moves t (@nil event);
      try (intros a ->; by eexists).
    + relay_moves t [ERelayExit];
      try (intros a ->; by eexists).
  - destruct (_proc st) as [p|]; [destruct (procs st !! p) as [pr|]; [destruct (alive pr)|]|];
      try done; intros [= <-].
    + relay_moves t (@nil event);
      try (intros a ->; by eexists).
    + relay_moves t [ERelayExit];
      try (intros a ->; by eexists).
    + relay_moves t [ERelayCrash];
      try (intros a ->; by eexists).
  - destruct (_proc st) as [p|]; intros [= <-].
    + relay_moves t (@nil event);
      try (intros a ->; by eexists).
    + relay_moves t [ERelayCrash];
      try (intros a ->; by eexists).
  - destruct (procs st !! p) as [pr|]; [|done].
    destruct (stdout_buf pr) as [|l rest]; [destruct (alive pr); [done|]|]; intros [= <-].
    + relay_moves t [ERead p ""];
      try (intros a ->; by eexists).
    + relay_moves t [ERead p l];
      try (intros a ->; by eexists).
  - destruct (_main_backend_is_fresh st && _looks_like_echo l) eqn:Hecho;
      [|destruct (decide (l = "")) as [Hl|Hl]]; intros [= <-].
    + relay_moves t [EDiscard l];
      try (intros a ->; simpl; rewrite Hecho, bool_decide_eq_true_2 by done; by eexists).
    + relay_moves t [ERelayExit];
      try (intros a ->; simpl; rewrite Hecho, bool_decide_eq_true_2 by done; by eexists).
    + relay_moves t (@nil event);
      try (intros a ->; by eexists).
  - destruct (_response_lock st); [done|]. intros [= <-].
    relay_moves t [EAcquire ResponseLock];
      try (intros a (-> & Hecho & Hl); simpl; rewrite Hecho, bool_decide_eq_false_2 by done; by eexists).
  - intros [= <-]. relay_moves t [EOut (OWrite (Relayed p l))];
      try (intros a ->; simpl; rewrite !bool_decide_eq_true_2 by done; by eexists).
  - intros [= <-]. relay_moves t [EOut OFlush];
      try (intros a ->; by eexists).
  - intros [= <-]. relay_moves t [EClearFresh];
      try (intros a ->; by eexists).
  - intros [= <-]. relay_moves t [ERelease ResponseLock];
      try (intros a [-> Hf]; simpl; rewrite Hf; by eexists).
  - done.
  - done.
Qed.

Lemma main_step_trace st st' :
  step_main st = Some st' -> exists e, trace st' = trace st ++ [(TMain, e)].
Proof.
  unfold step_main. destruct (main st) as [|i k]; [done|].
  intros (_ & Htr & _)%exec_mexec. eauto.
Qed.

Lemma main_step_threads st st' i k :
  main st = i :: k -> step_main st = Some st' ->
  match i with
  | ISetFresh =>
      threads st' = threads st /\ _main_backend_is_fresh st' = true
  | IStartForwarder =>
      threads st' = threads st ++ [RLoop]
      /\ _main_backend_is_fresh st' = _main_backend_is_fresh st
  | _ =>
      threads st' = threads st
      /\ _main_backend_is_fresh st' = _main_backend_is_fresh st
  end.
Proof.
  unfold step_main. intros ->.
  destruct i; simpl;
    repeat match goal with
           | |- context [match ?x with _ => _ end] => destruct x eqn:?
           end;
    try done; intros [= <-]; done.
Qed.

Lemma rinv_step_main st st' : inv st -> rinv st -> step_main st = Some st' -> rinv st'.
Proof.
  intros Hinv [Hr Hnone] Hstep.
  destruct (main_step_trace _ _ Hstep) as [e Htr].
  assert (Hev : forall t, thread_events t (trace st') = thread_events t (trace st)).
  { intros t. rewrite Htr, thread_events_snoc. by rewrite app_nil_r. }
  destruct (main st) as [|i k] eqn:Hmain; [by unfold step_main in Hstep; rewrite Hmain in Hstep|].
  pose proof (main_step_threads _ _ _ _ Hmain Hstep) as Hts.
  destruct Hinv as [[m (Hwf & Hph & Hlk & Hil)] _ Ht]. rewrite Hmain in Hwf.
  assert (Hsame : threads st' = threads st ->
                  _main_backend_is_fresh st' = _main_backend_is_fresh st -> rinv st').
  { intros Hts' Hf'. split; intros t; rewrite Hts', Hev, ?Hf'; auto. }
  destruct i; try (destruct Hts as [Hts Hf]; by apply Hsame).
  - (* ISetFresh *)
    at_mode m Hwf. destruct Hph as [_ Hall]. destruct Hts as [Hts Hf].
    split; intros t; rewrite Hts, Hev; auto.
    intros pc Hpc. destruct (Hr _ _ Hpc) as (a & Ha & Hrel).
    exists a. split; [done|]. eapply rel_terminated; eauto.
  - (* IStartForwarder *)
    at_mode m Hwf. destruct Hph as (_ & Hall & Hfresh). destruct Hts as [Hts Hf].
    split; intros t; rewrite Hts, Hev, ?Hf.
    + intros pc [Hl|(Hge & Hl)]%lookup_app_Some; [auto|].
      apply list_lookup_singleton_Some in Hl as [Hz <-].
      rewrite Hnone by (apply lookup_ge_None; lia).
      exists (AIdle true). split; [done|]. simpl. by rewrite Hfresh.
    + intros Hl. apply Hnone. apply lookup_ge_None in Hl. apply lookup_ge_None.
      rewrite length_app in Hl. simpl in Hl. lia.
Qed.

Lemma rinv_step l st st' : inv st -> rinv st -> step l st = Some st' -> rinv st'.
Proof.
  destruct l as [|t|p line|p|m]; simpl.
  - apply rinv_step_main.
  - apply rinv_step_relay.
  - intros _ Hr. destruct (procs st !! p) as [pr|]; [|done].
    destruct (alive pr && negb (bool_decide (line = ""))); [|done]. by intros [= <-].
  - intros _ Hr. destruct (procs st !! p) as [pr|]; [|done].
    destruct (alive pr); [|done]. by intros [= <-].
  - intros _ [Hr Hnone]. destruct (main st); [|done]. intros [= <-].
    split; intros t; simpl; rewrite thread_events_snoc, app_nil_r; auto.
Qed.

Lemma rinv_initial cwd : rinv (initial cwd).
Proof.
  split.
  - intros [|t] pc; simpl; [|by destruct t]. intros [= <-].
    exists (AIdle true). split; done.
  - intros t _. done.
Qed.

Lemma rinv_run ls : forall st st', inv st -> rinv st -> run ls st = Some st' -> rinv st'.
Proof.
  induction ls as [|l ls IH]; simpl; intros st st' Hinv Hr.
  - by intros [= <-].
  - destruct (step l st) as [st1|] eqn:Hstep; [|done].
    eauto using inv_step, rinv_step.
Qed.

Lemma rinv_reachable cwd st : reachable cwd st -> rinv st.
Proof. intros [ls Hrun]. eauto using rinv_run, inv_initial, rinv_initial. Qed.

Lemma relay_lines_snoc f ls l :
  relay_lines f (ls ++ [l])
  = match relay_lines f ls with
    | (w, Some f') =>
        if f' && _looks_like_echo l then (w, Some f')
        else if decide (l = "") then (w, None)
        else (w ++ [l], Some false)
    | (w, None) => (w, None)
    end.
Proof.
  revert f. induction ls as [|x ls IH]; intros f; simpl.
  - destruct (f && _looks_like_echo l); [done|]. by destruct (decide (l = "")).
  - destruct (f && _looks_like_echo x); [apply IH|].
    destruct (decide (x = "")); [done|]. rewrite IH.
    destruct (relay_lines false ls) as [w [f'|]]; [|done].
    destruct (f' && _looks_like_echo l); [done|]. by destruct (decide (l = "")).
Qed.

(** Leading echo lines are dropped and leave the flag set. *)
Lemma relay_lines_echo pre :
  Forall (fun l => _looks_like_echo l = true) pre ->
  relay_lines true pre = ([], Some true).
Proof. induction 1 as [|l pre Hl _ IH]; simpl; [done|]. by rewrite Hl. Qed.

(** Once the flag is cleared every line is written, whatever it looks
    like. *)
Lemma relay_lines_cleared rest :
  Forall (fun l => l <> "") rest -> relay_lines false rest = (rest, Some false).
Proof.
  induction 1 as [|l rest Hl _ IH]; simpl; [done|].
  rewrite decide_False by done. by rewrite IH.
Qed.

(** The first line that is neither an echo nor empty is written and clears
    the flag; so are all the lines after it. *)
Lemma relay_lines_fresh pre l rest :
  Forall (fun l => _looks_like_echo l = true) pre ->
  _looks_like_echo l = false -> l <> "" ->
  Forall (fun l => l <> "") rest ->
  relay_lines true (pre ++ l :: rest) = (l :: rest, Some false).
Proof.
  intros Hpre Hl Hne Hrest. induction Hpre as [|x pre Hx _ IH]; simpl.
  - rewrite Hl, decide_False by done. by rewrite relay_lines_cleared.
  - by rewrite Hx.
Qed.

Lemma lines_read_snoc es e :
  lines_read (es ++ [e])
  = lines_read es ++ match e with ERead _ l => [l] | _ => [] end.
Proof.
  unfold lines_read. rewrite omap_app. simpl. destruct e; simpl; by rewrite ?app_nil_r.
Qed.

Lemma lines_written_snoc es e :
  lines_written (es ++ [e])
  = lines_written es ++ match e with EOut (OWrite (Relayed _ l)) => [l] | _ => [] end.
Proof.
  unfold lines_written. rewrite omap_app. simpl.
  destruct e as [| | | | | | | | | | | |[[|]|]| | | | | | | |]; simpl; by rewrite ?app_nil_r.
Qed.

(** The protocol of a thread determines the lines it writes from the lines
    it reads. *)
Lemma protocol_lines f0 es :
  forall a, rrun_from (Some (AIdle f0)) es = Some a ->
            lines_rel f0 a (lines_read es) (lines_written es).
Proof.
  induction es as [|e es IH] using rev_ind; intros a.
  - intros [= <-]. done.
  - rewrite rrun_from_app. simpl.
    destruct (rrun_from (Some (AIdle f0)) es) as [a0|] eqn:Ha0; [|done].
    specialize (IH _ eq_refl). rewrite lines_read_snoc, lines_written_snoc.
    destruct a0, e; simpl; try done;
      repeat match goal with
             | |- context [match ?x with _ => _ end] => destruct x eqn:?
             end;
      try done; intros [= <-]; simpl in *; rewrite ?app_nil_r.
    + eauto.
    + by rewrite IH.
    + by rewrite IH.
    + destruct IH as (r' & -> & IH). exists r', fresh.
      apply andb_prop in Heqb as [Hecho Hl]. apply negb_true_iff in Hecho.
      apply negb_true_iff, bool_decide_eq_false in Hl. done.
    + destruct IH as (r' & -> & IH). rewrite relay_lines_snoc, IH.
      apply andb_prop in Heqb as [Hecho _]. by rewrite Hecho.
    + destruct IH as (r' & -> & IH). rewrite relay_lines_snoc, IH.
      apply andb_prop in Heqb as [Hecho Hl]. apply negb_true_iff in Hecho.
      apply bool_decide_eq_true in Hl. rewrite Hecho. rewrite decide_True by done. done.
    + destruct IH as (r' & f & -> & IH & Hecho & Hl).
      apply andb_prop in Heqb as [_ Hl']. apply bool_decide_eq_true in Hl'. subst.
      rewrite relay_lines_snoc, IH, Hecho. by rewrite decide_False.
    + done.
    + done.
    + done.
Qed.

(** *** The upload *)

Lemma parents_from_prefix s1 s2 :
  forall acc, acc +:+ s1 <> "" ->
              acc +:+ s1 ∈ parents_from acc (s1 +:+ String "/" s2).
Proof.
  induction s1 as [|c s1 IH]; intros acc Hne.
  - rewrite append_nil_r in Hne |- *. rewrite append_nil_l. simpl.
    rewrite bool_decide_eq_false_2 by done. simpl. apply elem_of_cons. by left.
  - rewrite append_cons. simpl. apply elem_of_app. right.
    replace (acc +:+ String c s1) with ((acc +:+ String c "") +:+ s1)
      by (by rewrite append_assoc).
    apply IH. destruct acc; done.
Qed.

Lemma ensure_steps_exist steps :
  forall r,
    let r' := foldl (fun r step =>
                       match _get_stat_mode_for_upload step r with
                       | None => _mkdir_for_upload step r
                       | Some _ => r
                       end) r steps in
    uploads r' = uploads r
    /\ (forall q, is_Some (rfs r !! q) -> is_Some (rfs r' !! q))
    /\ (forall q, q ∈ steps -> is_Some (rfs r' !! q)).
Proof.
  induction steps as [|step steps IH]; intros r; simpl.
  - repeat split; auto. intros q Hq. by apply elem_of_nil in Hq.
  - set (r1 := match _get_stat_mode_for_upload step r with
               | None => _mkdir_for_upload step r
               | Some _ => r
               end).
    assert (H1 : uploads r1 = uploads r
                 /\ (forall q, is_Some (rfs r !! q) -> is_Some (rfs r1 !! q))
                 /\ is_Some (rfs r1 !! step)).
    { subst r1. unfold _get_stat_mode_for_upload, _mkdir_for_upload.
      destruct (rfs r !! step) as [n|] eqn:Hstep; simpl.
      - repeat split; auto; by rewrite Hstep.
      - repeat split; auto.
        + intros q Hq. destruct (decide (step = q)) as [->|Hne].
          * by rewrite lookup_insert_eq.
          * by rewrite lookup_insert_ne.
        + by rewrite lookup_insert_eq. }
    destruct H1 as (Hu1 & Hkeep1 & Hstep1).
    destruct (IH r1) as (Hu & Hkeep & Hin).
    repeat split.
    + congruence.
    + auto.
    + intros q [->|Hq]%elem_of_cons; auto.
Qed.

Lemma ensure_posix_directory_spec path r :
  uploads (ensure_posix_directory path r) = uploads r
  /\ (forall q, is_Some (rfs r !! q) -> is_Some (rfs (ensure_posix_directory path r) !! q))
  /\ (forall q, q ∈ parents_from "" path ++ [path] ->
                is_Some (rfs (ensure_posix_directory path r) !! q)).
Proof. apply ensure_steps_exist. Qed.

Lemma puts_spec L launch_dir ls :
  forall r,
    let r' := foldl (fun r local_path =>
                       sftp_put local_path (remote_path_of L launch_dir local_path) r) r ls in
    uploads r' = uploads r ++ map (fun lp => (lp, remote_path_of L launch_dir lp)) ls
    /\ (forall q, is_Some (rfs r !! q) -> is_Some (rfs r' !! q)).
Proof.
  induction ls as [|lp ls IH]; intros r; simpl.
  - by rewrite app_nil_r.
  - destruct (IH (sftp_put lp (remote_path_of L launch_dir lp) r)) as [Hu Hkeep].
    split.
    + rewrite Hu. simpl. by rewrite <- app_assoc.
    + intros q Hq. apply Hkeep. simpl.
      destruct (decide (remote_path_of L launch_dir lp = q)) as [->|Hne].
      * by rewrite lookup_insert_eq.
      * by rewrite lookup_insert_ne.
Qed.

Lemma truthy_exists path r :
  truthy (_get_stat_mode_for_upload path r) = true <-> is_Some (rfs r !! path).
Proof.
  unfold _get_stat_mode_for_upload. destruct (rfs r !! path) as [[]|]; simpl.
  - split; eauto.
  - split; eauto.
  - split; [done|]. by intros [? ?].
Qed.

(** After an upload the deployment directory exists. *)
Lemma upload_creates_directory L r :
  upload_skipped r = false ->
  uploads (_upload_main_backend L r) = uploads r ++ upload_batch L
  /\ is_Some (rfs (_upload_main_backend L r) !! _get_remote_program_directory).
Proof.
  intros Hskip. unfold _upload_main_backend. rewrite Hskip.
  destruct (ensure_posix_directory_spec
              (_get_remote_program_directory +:+ "/thonny/plugins/cpython_backend") r)
    as (Hu1 & _ & Hin).
  match goal with
  | |- context [foldl ?f ?r1 ?ls] =>
      destruct (puts_spec L _get_remote_program_directory ls r1) as [Hu Hkeep]
  end.
  split.
  - rewrite Hu, Hu1. done.
  - apply Hkeep, Hin. apply elem_of_app. left.
    pose proof (parents_from_prefix _get_remote_program_directory
                  "thonny/plugins/cpython_backend" "") as Hp.
    rewrite append_nil_l in Hp. apply Hp. done.
Qed.

(** ** The claims *)

(** C6: every write of a complete message to the controller's stream, a
    direct response of the main thread or a line relayed by a forwarder, is
    made by the thread that holds the response lock: a thread inside its
    [with self._response_lock] block holds the lock, so no two threads are
    inside at once; a step that adds to the stream is a step of the lock's
    holder; and the stream is a sequence of whole messages, each written and
    flushed by one thread, so a direct response and a relayed line never
    interleave. *)
Theorem response_lock_serializes_writes cwd st :
  reachable cwd st ->
  (forall who, in_block st who = true -> _response_lock st = Some who)
  /\ (forall a b, in_block st a = true -> in_block st b = true -> a = b)
  /\ (forall l st',
        step l st = Some st' ->
        controller_stream (trace st') <> controller_stream (trace st) ->
        exists who, actor l = Some who
                    /\ _response_lock st = Some who /\ _response_lock st' = Some who)
  /\ atomic (controller_stream (trace st)) = true.
Proof.
  intros Hreach. pose proof (inv_reachable _ _ Hreach) as Hinv.
  split; [|split; [|split]].
  - intros who. by apply in_block_lock.
  - intros a b Ha Hb.
    apply (in_block_lock _ _ Hinv) in Ha. apply (in_block_lock _ _ Hinv) in Hb. congruence.
  - intros l st' Hstep Hne.
    destruct (step_writes _ _ _ Hinv Hstep) as [Heq|(who & x & Ha & _ & Hl & Hl')]; [done|].
    eauto.
  - apply sinv_atomic. eapply sinv_reachable; eauto.
Qed.

(** C1, amended: the restart is strictly ordered: it kills the current
    worker and clears the handle, then waits for the forwarder to end, and
    only then starts a new worker and a new forwarder.  While the main thread
    waits in [join] the handle is already cleared and the killed worker is
    dead; the wait ends exactly when the old forwarder has ended, which it
    does after at most eight of its own statements; when the main thread goes
    on to start the new worker and the new forwarder, every older forwarder
    has ended; once a worker is started no line of a worker started before it
    is read or relayed to the controller; and the events of the main thread
    in a restart are, in this order, the kill, the clearing of the handle, the
    join, the setting of the flag, the start of the worker and the start of
    the forwarder. *)
Theorem restart_joins_before_replacing cwd st :
  reachable cwd st ->
  (forall k, main st = IJoin :: k ->
     _proc st = None /\ newest_dead (procs st)
     /\ (is_Some (step LMain st)
         <-> exists pc, threads st !! _response_forwarder st = Some pc
                        /\ terminated pc = true)
     /\ exists n st', n <= 8
          /\ run (replicate n (LRelay (_response_forwarder st))) st = Some st'
          /\ is_Some (step LMain st'))
  /\ (forall i k, main st = i :: k ->
        i = ISetFresh \/ i = ICreateProc \/ i = IStartForwarder ->
        all_terminated (threads st))
  /\ no_stale_lines (length (procs st)) (trace st)
  /\ (forall v p, v_proc v = Some p -> v_forwarder v < v_nthreads v ->
        (mrun _restart_main_backend v).1.1
        = [EKill p; EClearProc; EJoin (v_forwarder v); ESetFresh;
           ESpawn (v_nprocs v) (launch_args (v_cwd v)) _get_remote_program_directory
             launch_env;
           EStartForwarder (v_nthreads v)]).
Proof.
  intros Hreach. pose proof (inv_reachable _ _ Hreach) as Hinv.
  split; [|split; [|split]].
  - intros k Hmain. pose proof Hinv as [[m (Hwf & Hph & Hlk & Hil)] _ Ht].
    rewrite Hmain in Hwf. at_mode m Hwf. destruct Hph as [Hnone Hdead].
    split; [done|]. split; [done|]. split.
    + simpl. unfold step_main. rewrite Hmain. simpl.
      destruct (threads st !! _response_forwarder st) as [pc|] eqn:Hpc.
      * destruct (terminated pc) eqn:Hterm.
        -- split; [intros _; by exists pc|intros _; by eexists].
        -- split; [by intros [? ?]|]. intros (pc' & [= <-] & ?). congruence.
      * apply lookup_ge_None in Hpc. pose proof (inv_forwarder _ _ _ _ Ht). lia.
    + destruct (join_returns _ _ Hinv Hmain) as (n & st' & Hn & Hrun & Hmain' & Hf & pc & Hpc & Hterm).
      exists n, st'. split; [done|]. split; [done|].
      simpl. unfold step_main. rewrite Hmain'. simpl. rewrite Hf, Hpc, Hterm. by eexists.
  - intros i k Hmain Hi. destruct Hinv as [[m (Hwf & Hph & Hlk & Hil)] _ Ht].
    rewrite Hmain in Hwf.
    destruct Hi as [->|[->| ->]]; at_mode m Hwf; simpl in Hph; tauto.
  - destruct Hreach as [ls Hrun].
    eapply (no_stale_lines_run ls (initial cwd) st);
      [apply inv_initial|exact Hrun|apply no_stale_lines_initial].
  - intros v p Hp Hf. simpl. rewrite Hp. simpl. by rewrite decide_True.
Qed.

(** C2: in every interleaving, the lines a forwarder thread writes to the
    controller are the lines it read, filtered by the loop of
    [_forward_main_responses] on a flag that is set when the thread starts
    and that the thread alone clears.  While the flag is set a line that
    looks like an echo is dropped, is not written and leaves the flag set;
    the first line that does not look like an echo and is not empty is
    written and clears the flag; every line after it is written, also one
    that looks like an echo. *)
Theorem echo_suppression cwd st t pc :
  reachable cwd st ->
  threads st !! t = Some pc ->
  suppresses_echo t (trace st)
  /\ (between_lines pc = true ->
      relay_lines true (lines_read (thread_events t (trace st)))
      = (lines_written (thread_events t (trace st)), Some (_main_backend_is_fresh st)))
  /\ (terminated pc = true ->
      (relay_lines true (lines_read (thread_events t (trace st)))).1
      = lines_written (thread_events t (trace st)))
  /\ (forall pre,
        Forall (fun l => _looks_like_echo l = true) pre ->
        relay_lines true pre = ([], Some true))
  /\ (forall pre l rest,
        Forall (fun l => _looks_like_echo l = true) pre ->
        _looks_like_echo l = false -> l <> "" ->
        Forall (fun l => l <> "") rest ->
        relay_lines true (pre ++ l :: rest) = (l :: rest, Some false)).
Proof.
  intros Hreach Hpc. destruct (rinv_reachable _ _ Hreach) as [Hr _].
  destruct (Hr _ _ Hpc) as (a & Ha & Hrel).
  pose proof (protocol_lines _ _ _ Ha) as Hlines.
  split; [by exists a|]. split; [|split; [|split]].
  - intros Hb. destruct pc; simpl in *; try done; by subst a.
  - intros Hterm. destruct pc; simpl in *; try done; by subst a.
  - apply relay_lines_echo.
  - apply relay_lines_fresh.
Qed.

Lemma restarting_upper cmd c rest :
  name cmd = String c rest -> restarting cmd = Py.isupper c.
Proof. unfold restarting. by intros ->. Qed.

Lemma run_reachable cwd st ls st' :
  reachable cwd st -> run ls st = Some st' -> reachable cwd st'.
Proof.
  intros [ls0 Hrun0] Hrun. exists (ls0 ++ ls). by rewrite run_app, Hrun0.
Qed.

(** C3: for every normal command whose name starts with an upper-case
    letter the main thread performs exactly one restart before it does
    anything else for the command; when the command has an [expected_cwd]
    field its value is adopted as [self._cwd] before the restart, and the
    new worker is launched with it; the flag is set when the new worker has
    been created and is still set when its forwarder is started. *)
Theorem uppercase_command_restarts_once cwd st cmd c rest :
  reachable cwd st -> main st = [] ->
  name cmd = String c rest -> Py.isupper c = true ->
  (exists st', handles (CommandToBackend cmd) st st')
  /\ (forall st', handles (CommandToBackend cmd) st st' ->
      exists p,
        _proc st = Some p
        /\ main_events (trace st')
           = main_events (trace st)
             ++ EReceive (CommandToBackend cmd)
             :: (adopt_events cmd
                 ++ restart_events p (length (procs st)) (length (threads st))
                      (_response_forwarder st) (cwd_after cmd (_cwd st)))
             ++ routed_events cmd (length (procs st))
        /\ Forall (fun e => is_restart_event e = false) (adopt_events cmd)
        /\ Forall (fun e => is_restart_event e = false)
                  (routed_events cmd (length (procs st)))
        /\ _cwd st' = cwd_after cmd (_cwd st)
        /\ _proc st' = Some (length (procs st)))
  /\ (forall d, fields cmd !! "expected_cwd" = Some d ->
                adopt_events cmd = [ESetCwd d] /\ cwd_after cmd (_cwd st) = d)
  /\ (forall ls st1 k,
        run ls st = Some st1 -> main st1 = IStartForwarder :: k ->
        _main_backend_is_fresh st1 = true
        /\ _proc st1 = Some (length (procs st1) - 1)
        /\ all_terminated (threads st1)).
Proof.
  intros Hreach Hmain Hname Hup. pose proof (inv_reachable _ _ Hreach) as Hinv.
  split; [by apply handles_exists|]. split; [|split].
  - intros st' Hh.
    destruct (normal_command_events _ _ _ _ _ Hinv Hname Hh) as (p & Hp & Hev & Hp' & Hcwd).
    unfold restart_part, worker_after in *.
    rewrite (restarting_upper _ _ _ Hname), Hup in *.
    exists p. repeat split; auto using adopt_events_no_restart, routed_events_no_restart.
  - intros d Hd. unfold adopt_events, cwd_after. by rewrite Hd.
  - intros ls st1 k Hrun Hmain1.
    pose proof (inv_reachable _ _ (run_reachable _ _ _ _ Hreach Hrun))
      as [[m (Hwf & Hph & Hlk & Hil)] Hproc _].
    rewrite Hmain1 in Hwf. at_mode m Hwf. destruct Hph as ([p Hp] & Hall & Hfresh).
    repeat split; auto. rewrite Hp. f_equal. specialize (Hproc _ Hp). lia.
Qed.

(** C5, amended: when the local handler of a command raises an exception
    that is an instance of [Exception], the exception is caught and a
    response that carries its message under the key ["error"] is written to
    the controller; nothing is raised out of the command, and the main loop
    takes the next message. *)
Theorem handler_exception_becomes_error_response cwd st cmd c rest handler e :
  reachable cwd st -> main st = [] ->
  name cmd = String c rest ->
  getattr_self ("_cmd_" +:+ name cmd) = Some handler ->
  handler cmd = Raises e ->
  is_Exception e = true ->
  (exists st', handles (CommandToBackend cmd) st st')
  /\ (forall st', handles (CommandToBackend cmd) st st' ->
      exists p,
        _proc st = Some p
        /\ main_events (trace st')
           = main_events (trace st)
             ++ EReceive (CommandToBackend cmd)
             :: restart_part cmd st p
             ++ EInvoke ("_cmd_" +:+ name cmd) cmd
             :: send_events (_prepare_command_response {[ "error" := str e ]} cmd)
        /\ main st' = []
        /\ forall m, is_Some (step (LCommand m) st')).
Proof.
  intros Hreach Hmain Hname Hget Hraise Hexc. pose proof (inv_reachable _ _ Hreach) as Hinv.
  split; [by apply handles_exists|].
  intros st' Hh.
  destruct (normal_command_events _ _ _ _ _ Hinv Hname Hh) as (p & Hp & Hev & Hp' & Hcwd).
  unfold routed_events, local_events in Hev. rewrite Hget, Hraise, Hexc in Hev.
  destruct Hh as (ls & _ & _ & Hdone).
  exists p. repeat split; auto.
  intros m. simpl. rewrite Hdone. by eexists.
Qed.

(** C7: a message that is forwarded is serialized with a chunk size of 1024
    and written to the standard input of the current worker line by line,
    each line followed by a flush, then one more newline; the lines put
    together again are the serialized text, every line but the last ends with
    its line break and no line is empty.  For a command whose name starts
    with a lower-case letter and has no local handler this is all the main
    thread does: it writes nothing to the controller. *)
Theorem forwarded_command_is_framed cwd st m :
  reachable cwd st -> main st = [] ->
  forwarded m ->
  (exists st', handles m st st')
  /\ (forall st', handles m st st' ->
      exists p,
        _proc st = Some p
        /\ main_events (trace st')
           = main_events (trace st)
             ++ EReceive m
             :: before_forward m st p ++ forward_events (forward_target m st p) m
        /\ _proc st' = Some (forward_target m st p)
        /\ Forall (fun e => is_out_event e = false)
                  (before_forward m st p ++ forward_events (forward_target m st p) m)
        /\ Forall (fun e => is_stdin_event e = false) (before_forward m st p))
  /\ Py.join (Py.splitlines_keepends (serialize_message m 1024)) = serialize_message m 1024
  /\ Py.breaks_between (Py.splitlines_keepends (serialize_message m 1024)) = true
  /\ Forall (fun l => l <> "") (Py.splitlines_keepends (serialize_message m 1024))
  /\ (forall cmd p, m = CommandToBackend cmd -> lowercase_initial cmd = true ->
                    before_forward m st p = [] /\ forward_target m st p = p).
Proof.
  intros Hreach Hmain Hfw. pose proof (inv_reachable _ _ Hreach) as Hinv.
  split; [by apply handles_exists|]. split; [|split; [|split; [|split]]].
  - intros st' Hh.
    assert (Hno : forall p, Forall (fun e => is_out_event e = false)
                                   (forward_events p m)).
    { intros p. eapply Forall_impl; [apply forward_events_stdin|]. by intros []. }
    destruct m as [|d|cmd|cmd]; simpl in Hfw; [| | |done].
    + destruct (handles_events _ _ _ Hh) as (_ & Hev & Hv).
      destruct (idle_view _ Hinv Hmain) as (p & Hp & _). exists p.
      simpl in Hev, Hv. unfold _handle_eof_command in Hev, Hv.
      rewrite (mrun_forward _ _ p) in Hev, Hv by (by simpl). simpl in Hev, Hv.
      unfold view in Hv. injection Hv as _ Hp' _ _ _.
      repeat split; simpl; auto. congruence.
    + destruct (handles_events _ _ _ Hh) as (_ & Hev & Hv).
      destruct (idle_view _ Hinv Hmain) as (p & Hp & _). exists p.
      simpl in Hev, Hv. unfold _handle_user_input in Hev, Hv.
      rewrite (mrun_forward _ _ p) in Hev, Hv by (by simpl). simpl in Hev, Hv.
      unfold view in Hv. injection Hv as _ Hp' _ _ _.
      repeat split; simpl; auto. congruence.
    + destruct Hfw as [Hne Hget]. destruct (name cmd) as [|c rest] eqn:Hname; [done|].
      destruct (normal_command_events _ _ _ _ _ Hinv Hname Hh) as (p & Hp & Hev & Hp' & _).
      unfold routed_events in Hev. rewrite Hname, Hget in Hev.
      exists p. simpl. repeat split; auto using restart_part_no_stdin.
      apply Forall_app. split; [apply restart_part_no_out|apply Hno].
  - apply join_splitlines.
  - apply splitlines_from_breaks.
  - apply splitlines_from_breaks.
  - intros cmd p -> Hlow. simpl. unfold restart_part, worker_after.
    by rewrite (lowercase_not_restarting _ Hlow).
Qed.



(** C10: the router looks at the first character of the name, so for a
    command whose name is the empty string the main thread raises
    [IndexError] at once: that is its only event for the command, and the
    worker, the forwarder, the working directory and the numbers of workers
    and threads are what they were. *)
Theorem empty_name_raises_first cwd st cmd :
  reachable cwd st -> main st = [] ->
  name cmd = "" ->
  _handle_normal_command cmd = [IRaise IndexError]
  /\ (exists st', handles (CommandToBackend cmd) st st')
  /\ (forall st', handles (CommandToBackend cmd) st st' ->
      main_events (trace st')
      = main_events (trace st) ++ [EReceive (CommandToBackend cmd); ERaise IndexError]
      /\ view st' = view st).
Proof.
  intros Hreach Hmain Hname. pose proof (inv_reachable _ _ Hreach) as Hinv.
  assert (Hprog : _handle_normal_command cmd = [IRaise IndexError]).
  { unfold _handle_normal_command. by rewrite Hname. }
  split; [done|]. split; [by apply handles_exists|].
  intros st' Hh. destruct (handles_events _ _ _ Hh) as (_ & Hev & Hv).
  simpl in Hev, Hv. rewrite Hprog in Hev, Hv. done.
Qed.

(** C4: the upload is skipped exactly when the deployment directory exists
    on the remote host and the version does not end with ["-dev"]; a skipped
    upload changes nothing and any other puts the nine files; so with a
    version that is not a development version a second deployment puts no
    file, and with a development version every deployment puts all of
    them. *)
Theorem upload_idempotent_for_releases L r :
  (upload_skipped r = true
   <-> is_Some (rfs r !! _get_remote_program_directory)
       /\ Py.endswith get_version "-dev" = false)
  /\ (upload_skipped r = true -> _upload_main_backend L r = r)
  /\ (upload_skipped r = false ->
      uploads (_upload_main_backend L r) = uploads r ++ upload_batch L)
  /\ length (upload_batch L) = 9
  /\ (Py.endswith get_version "-dev" = false ->
      _upload_main_backend L (_upload_main_backend L r) = _upload_main_backend L r)
  /\ (Py.endswith get_version "-dev" = true ->
      uploads (_upload_main_backend L r) = uploads r ++ upload_batch L
      /\ uploads (_upload_main_backend L (_upload_main_backend L r))
         = (uploads r ++ upload_batch L) ++ upload_batch L).
Proof.
  assert (Hdev : forall r0, Py.endswith get_version "-dev" = true ->
                            upload_skipped r0 = false).
  { intros r0 Hd. unfold upload_skipped. rewrite Hd. apply andb_false_r. }
  split; [|split; [|split; [|split; [|split]]]].
  - unfold upload_skipped. rewrite andb_true_iff, truthy_exists, negb_true_iff. done.
  - intros Hs. unfold _upload_main_backend. by rewrite Hs.
  - intros Hs. by apply upload_creates_directory.
  - done.
  - intros Hrel. destruct (upload_skipped r) eqn:Hs.
    + assert (Hr : _upload_main_backend L r = r)
        by (unfold _upload_main_backend; by rewrite Hs).
      by rewrite !Hr.
    + destruct (upload_creates_directory L _ Hs) as [_ Hdir].
      assert (Hs' : upload_skipped (_upload_main_backend L r) = true).
      { unfold upload_skipped. rewrite Hrel. simpl. rewrite andb_true_r.
        by apply truthy_exists. }
      unfold _upload_main_backend at 1. by rewrite Hs'.
  - intros Hd. split.
    + apply upload_creates_directory. by apply Hdev.
    + destruct (upload_creates_directory L (_upload_main_backend L r)) as [-> _];
        [by apply Hdev|].
      destruct (upload_creates_directory L r) as [-> _]; [by apply Hdev|]. done.
Qed.

(** ** Further properties of the class *)

(** *** One live worker *)

Lemma older_dead_insert ps p pr pr' :
  ps !! p = Some pr -> (alive pr = false -> alive pr' = false) ->
  older_dead ps -> older_dead (<[p := pr']> ps).
Proof.
  intros Hp Hal Hod q qr Hq Hlen. rewrite length_insert in Hlen.
  apply list_lookup_insert_Some in Hq as [(-> & <- & _)|(Hne & Hq)]; eauto.
Qed.

Lemma older_dead_kill ps p :
  older_dead ps -> older_dead (alter (fun pr => RProc false (stdout_buf pr)) p ps).
Proof.
  intros Hod q qr Hq Hlen. rewrite length_alter in Hlen.
  destruct (decide (q = p)) as [->|Hne].
  - rewrite list_lookup_alter_eq in Hq. destruct (ps !! p); simplify_eq/=. done.
  - rewrite list_lookup_alter_ne in Hq by done. eauto.
Qed.

Lemma older_dead_spawn ps pr :
  older_dead ps -> newest_dead ps -> older_dead (ps ++ [pr]).
Proof.
  intros Hod Hnd q qr Hq Hlen. rewrite length_app in Hlen. simpl in Hlen.
  apply lookup_app_Some in Hq as [Hq|[Hge Hq]].
  - destruct (decide (S q = length ps)); [eauto|]. apply (Hod _ _ Hq). lia.
  - lia.
Qed.

Lemma winv_step_main st st' : inv st -> winv st -> step_main st = Some st' -> winv st'.
Proof.
  intros [[m (Hwf & Hph & Hlk & Hil)] Hproc Ht] [Hod Hnone]. unfold step_main.
  destruct (main st) as [|i k] eqn:Hmain; [done|].
  destruct i; simpl;
    try (intros [= <-]; split; simpl; [exact Hod|exact Hnone]).
  - (* IKill *)
    destruct (_proc st) as [p|] eqn:Hp; intros [= <-]; split; simpl; rewrite ?Hp; try done.
    by apply older_dead_kill.
  - (* IClearProc *)
    at_mode m Hwf. destruct Hph as [_ Hnd]. intros [= <-]. split; simpl; done.
  - (* IJoin *)
    destruct (threads st !! _response_forwarder st) as [pc|]; [destruct (terminated pc)|];
      try done; intros [= <-]; split; simpl; done.
  - (* ICreateProc *)
    at_mode m Hwf. destruct Hph as (Hn & _). intros [= <-]. split; simpl; [|done].
    apply older_dead_spawn; auto.
  - (* IAcquireResp *)
    destruct (_response_lock st); [done|]. intros [= <-]. split; simpl; done.
  - (* IStdinWrite *)
    destruct (_proc st) as [p|] eqn:Hp; intros [= <-]; split; simpl; rewrite ?Hp; done.
  - (* IStdinFlush *)
    destruct (_proc st) as [p|] eqn:Hp; intros [= <-]; split; simpl; rewrite ?Hp; done.
  - (* IAcquireInt *)
    destruct (_interrupt_lock st); [done|]. intros [= <-]. split; simpl; done.
Qed.

Lemma winv_step l st st' : inv st -> winv st -> step l st = Some st' -> winv st'.
Proof.
  destruct l as [|t|p line|p|m]; simpl.
  - apply winv_step_main.
  - intros _ [Hod Hnone]. unfold _forward_main_responses.
    destruct (threads st !! t) as [pc|]; [|done].
    destruct pc; simpl;
      repeat match goal with
             | |- context [match ?x with _ => _ end] => destruct x eqn:?
             end;
      try done; intros [= <-]; split; simpl; try done;
      try (eapply older_dead_insert; by eauto);
      try (intros Hn; eapply newest_dead_insert; by eauto);
      try (intros ?; congruence); try (intros _; by apply Hnone).
  - intros _ [Hod Hnone]. destruct (procs st !! p) as [pr|] eqn:Hpr; [|done].
    destruct (alive pr) eqn:Hal; [|done]. simpl.
    destruct (bool_decide (line = "")); [done|]. simpl. intros [= <-]. split; simpl.
    + eapply older_dead_insert; eauto; congruence.
    + intros Hn. eapply newest_dead_insert; eauto; congruence.
  - intros _ [Hod Hnone]. destruct (procs st !! p) as [pr|] eqn:Hpr; [|done].
    destruct (alive pr) eqn:Hal; [|done]. intros [= <-]. split; simpl.
    + eapply older_dead_insert; eauto.
    + intros Hn. eapply newest_dead_insert; eauto.
  - intros _ Hw. destruct (main st); [|done]. by intros [= <-].
Qed.

Lemma winv_initial cwd : winv (initial cwd).
Proof.
  split; simpl; [|done]. intros [|p] pr; simpl; [lia|]. by destruct p.
Qed.

Lemma winv_run ls : forall st st', inv st -> winv st -> run ls st = Some st' -> winv st'.
Proof.
  induction ls as [|l ls IH]; simpl; intros st st' Hinv Hw.
  - by intros [= <-].
  - destruct (step l st) as [st1|] eqn:Hstep; [|done].
    eauto using inv_step, winv_step.
Qed.

Lemma winv_reachable cwd st : reachable cwd st -> winv st.
Proof. intros [ls Hrun]. eauto using winv_run, inv_initial, winv_initial. Qed.

(** *** One forwarder for each worker *)

Lemma wf_next m i k :
  wf m (i :: k) = true -> (forall e, i <> IRaise e) ->
  exists m', next_mode m i = Some m' /\ wf m' k = true.
Proof.
  intros Hwf Hi. destruct i; try (by destruct (Hi e));
    simpl in Hwf; destruct (next_mode m _) as [m'|]; try done; eauto.
Qed.

Lemma wf_start_forwarder m k : wf m (IStartForwarder :: k) = true -> m = MCreated.
Proof. by destruct m. Qed.

Lemma next_mode_created m i : next_mode m i = Some MCreated -> i = ICreateProc.
Proof. destruct m, i; simpl; congruence. Qed.

Lemma wf_created k : wf MCreated k = true -> exists k', k = IStartForwarder :: k'.
Proof. destruct k as [|[] k]; simpl; try done. eauto. Qed.

Lemma paired_step_main st st' : inv st -> paired st -> step_main st = Some st' -> paired st'.
Proof.
  intros [[m (Hwf & Hph & _)] _ _] Hp. unfold step_main.
  destruct (main st) as [|i k] eqn:Hmain; [done|]. intros Hex.
  destruct Hp as [Hf Hn]. rewrite Hmain in Hn.
  apply exec_mexec in Hex as (Hv & _ & Hk).
  assert (Hgoal :
    S (v_forwarder (view st')) = v_nthreads (view st')
    /\ v_nprocs (view st')
       = match main st' with
         | IStartForwarder :: _ => S (v_nthreads (view st'))
         | _ => v_nthreads (view st')
         end); [|exact Hgoal].
  rewrite Hv, Hk. clear Hv Hk. unfold view.
  destruct i; simpl in Hn |- *;
    repeat first
      [ case_decide
      | match goal with
        | |- context [match _proc st with _ => _ end] => destruct (_proc st)
        end ];
    simpl; try (split; [lia|]; try lia).
  all: at_mode m Hwf; destruct k as [|[] k]; simpl in Hwf; try done; simpl; lia.
Qed.

Lemma paired_step l st st' : inv st -> paired st -> step l st = Some st' -> paired st'.
Proof.
  intros Hinv Hp Hstep.
  assert (Hcase : l = LMain \/ (l <> LMain /\ is_command l = false)
                  \/ exists m, l = LCommand m).
  { destruct l; eauto; right; left; done. }
  destruct Hcase as [->|[[Hne Hnc]|[m ->]]].
  - by eapply paired_step_main.
  - destruct (other_step_view _ _ _ Hne Hnc Hstep) as (Hv & Hmain & _).
    destruct Hp as [Hf Hn]. unfold paired. rewrite Hmain.
    change (S (v_forwarder (view st')) = v_nthreads (view st')
            /\ v_nprocs (view st')
               = match main st with
                 | IStartForwarder :: _ => S (v_nthreads (view st'))
                 | _ => v_nthreads (view st')
                 end).
    by rewrite Hv.
  - simpl in Hstep. destruct (main st) eqn:Hmain; [|done]. injection Hstep as <-.
    destruct Hp as [Hf Hn]. rewrite Hmain in Hn. split; simpl; [done|].
    pose proof (wf_dispatch m) as Hwf.
    destruct (dispatch m) as [|[] k]; simpl in Hwf; done.
Qed.

Lemma paired_initial cwd : paired (initial cwd).
Proof. done. Qed.

Lemma paired_run ls : forall st st', inv st -> paired st -> run ls st = Some st' -> paired st'.
Proof.
  induction ls as [|l ls IH]; simpl; intros st st' Hinv Hp.
  - by intros [= <-].
  - destruct (step l st) as [st1|] eqn:Hstep; [|done].
    eauto using inv_step, paired_step.
Qed.

Lemma paired_reachable cwd st : reachable cwd st -> paired st.
Proof. intros [ls Hrun]. eauto using paired_run, inv_initial, paired_initial. Qed.

Lemma running_is_forwarder st t pc :
  inv st -> threads st !! t = Some pc -> terminated pc = false ->
  t = _response_forwarder st.
Proof.
  intros Hinv Hpc Hrun. destruct (decide (t = _response_forwarder st)) as [|Hne]; [done|].
  pose proof (inv_old _ _ _ _ (inv_threads _ Hinv) _ _ Hpc Hne). congruence.
Qed.

(** A thread that has a stream or a line in hand has it from the worker of
    its own number. *)
Lemma relay_reads_own st t pc p :
  inv st -> paired st -> threads st !! t = Some pc -> holds pc = Some p -> p = t.
Proof.
  intros Hinv [Hf Hn] Hpc Hh.
  pose proof (inv_held _ _ _ _ (inv_threads _ Hinv) _ _ _ Hpc Hh) as Hp.
  assert (Hrun : terminated pc = false) by (by destruct pc).
  pose proof (running_is_forwarder _ _ _ Hinv Hpc Hrun) as ->.
  destruct Hinv as [[m (Hwf & Hph & _)] _ _].
  destruct (main st) as [|i k] eqn:Hmain; [lia|].
  destruct i; try lia.
  at_mode m Hwf. destruct Hph as (_ & Hall & _).
  specialize (Hall _ _ Hpc). congruence.
Qed.

Lemma step_line l st st' :
  inv st -> paired st -> step l st = Some st' ->
  trace st' = trace st
  \/ exists w e, trace st' = trace st ++ [(w, e)]
                 /\ forall q, line_of e = Some q -> w = TRelay q.
Proof.
  intros Hinv Hp. destruct l as [|t|p line|p|m]; simpl.
  - unfold step_main. destruct (main st) as [|i k] eqn:Hmain; [done|].
    destruct i; simpl;
      repeat match goal with
             | |- context [match ?x with _ => _ end] => destruct x eqn:?
             end;
      try done; intros [= <-]; simpl;
      right; eexists _, _; (split; [reflexivity|]); simpl; intros ? [=].
  - unfold _forward_main_responses. destruct (threads st !! t) as [pc|] eqn:Hpc; [|done].
    pose proof (fun p => relay_reads_own _ _ _ p Hinv Hp Hpc) as Hown.
    destruct pc; simpl;
      repeat match goal with
             | |- context [match ?x with _ => _ end] => destruct x eqn:?
             end;
      try done; intros [= <-]; simpl;
      try (by left); right; eexists _, _; (split; [reflexivity|]); simpl;
      intros ? [= <-]; f_equal; symmetry; by apply Hown.
  - destruct (procs st !! p) as [pr|]; [|done].
    destruct (alive pr && negb (bool_decide (line = ""))); [|done]. intros [= <-]. by left.
  - destruct (procs st !! p) as [pr|]; [|done].
    destruct (alive pr); [|done]. intros [= <-]. by left.
  - destruct (main st); [|done]. intros [= <-]. simpl.
    right. eexists _, _. split; [reflexivity|]. intros ? [=].
Qed.

Lemma own_lines_step l st st' :
  inv st -> paired st -> step l st = Some st' ->
  own_lines (trace st) -> own_lines (trace st').
Proof.
  intros Hinv Hp Hstep Hown.
  destruct (step_line _ _ _ Hinv Hp Hstep) as [->|(w0 & e0 & -> & Hnew)]; [done|].
  intros w e p [Hin|Hin]%elem_of_app Hl; [eauto|].
  apply list_elem_of_singleton in Hin as [= -> ->]. eauto.
Qed.

Lemma own_lines_run ls :
  forall st st', inv st -> paired st -> run ls st = Some st' ->
    own_lines (trace st) -> own_lines (trace st').
Proof.
  induction ls as [|l ls IH]; simpl; intros st st' Hinv Hp.
  - by intros [= <-].
  - destruct (step l st) as [st1|] eqn:Hstep; [|done].
    eauto using inv_step, paired_step, own_lines_step.
Qed.

Lemma own_lines_initial cwd : own_lines (trace (initial cwd)).
Proof.
  intros w e p Hin Hl. simpl in Hin.
  repeat (apply elem_of_cons in Hin as [Hin|Hin]; [by simplify_eq/=|]).
  by apply elem_of_nil in Hin.
Qed.

Lemma own_lines_reachable cwd st : reachable cwd st -> own_lines (trace st).
Proof.
  intros [ls Hrun].
  eapply own_lines_run; eauto using inv_initial, paired_initial, own_lines_initial.
Qed.

Lemma stream_elem_of tr w x :
  (w, x) ∈ controller_stream tr -> (w, EOut x) ∈ tr.
Proof.
  unfold controller_stream. intros Hin.
  apply list_elem_of_omap in Hin as ([w' e] & Hin & Hsome). simpl in Hsome.
  destruct e; simplify_eq/=. done.
Qed.

(** *** No exception of the class's own making *)












(** *** The response lock is given back *)

Lemma lock_released_within b :
  forall st t pc,
    inv st -> _response_lock st = Some (TRelay t) ->
    threads st !! t = Some pc -> critical pc = true -> steps_left pc <= S b ->
    exists n st',
      n <= b
      /\ run (replicate n (LRelay t)) st = Some st'
      /\ main st' = main st
      /\ _response_lock st' = None.
Proof.
  induction b as [|b IH]; intros st t pc Hinv Hl Hpc Hcr Hle.
  - destruct pc; simpl in *; try done; lia.
  - destruct (holder_moves _ _ _ Hpc Hcr) as (st1 & pc1 & Hstep & Hmain & Hpc1 & Hlt & Hor).
    destruct (_response_lock st1) as [w|] eqn:Hl1.
    + destruct Hor as [Hcr1|?]; [|done].
      assert (Hinv1 : inv st1) by (eapply inv_step; eauto).
      pose proof (inv_crit _ _ _ _ (inv_threads _ Hinv1) _ _ Hpc1 Hcr1) as Hw.
      destruct (IH st1 t pc1) as (n & st' & Hn & Hrun & Hmain' & Hnone); auto; [lia|].
      exists (S n), st'. simpl in Hstep |- *. rewrite Hstep.
      repeat split; auto; [lia|congruence].
    + exists 1, st1. simpl in Hstep |- *. rewrite Hstep. repeat split; auto. lia.
Qed.

(** *** The two branches of [_handle_normal_command] *)

Lemma mrun_routed cmd v p :
  v_proc v = Some p ->
  (mrun match getattr_self ("_cmd_" +:+ name cmd) with
        | Some handler => call_handler handler cmd
        | None => _forward_incoming_command (CommandToBackend cmd)
        end v).1 = (routed_events cmd p, v).
Proof.
  intros Hp. unfold routed_events. destruct (getattr_self _).
  - apply mrun_call_handler.
  - by rewrite (mrun_forward _ _ _ Hp).
Qed.

Lemma handle_normal_plain cmd c rest :
  name cmd = String c rest -> Py.isupper c = false ->
  _handle_normal_command cmd
  = match getattr_self ("_cmd_" +:+ name cmd) with
    | Some handler => call_handler handler cmd
    | None => _forward_incoming_command (CommandToBackend cmd)
    end.
Proof.
  intros Hname Hup. unfold _handle_normal_command.
  destruct (name cmd) as [|c0 rest0]; [done|]. injection Hname as -> ->.
  by rewrite Hup.
Qed.

(** What the main thread does for a message it forwards, in every
    interleaving. *)
Lemma forwarded_events m st st' :
  inv st -> forwarded m -> handles m st st' ->
  exists p,
    _proc st = Some p
    /\ main_events (trace st')
       = main_events (trace st)
         ++ EReceive m :: before_forward m st p ++ forward_events (forward_target m st p) m
    /\ _proc st' = Some (forward_target m st p).
Proof.
  intros Hinv Hfw Hh.
  destruct m as [|d|cmd|cmd]; simpl in Hfw; [| | |done].
  - destruct (handles_events _ _ _ Hh) as (Hmain & Hev & Hv).
    destruct (idle_view _ Hinv Hmain) as (p & Hp & _). exists p.
    simpl in Hev, Hv. unfold _handle_eof_command in Hev, Hv.
    rewrite (mrun_forward _ _ p) in Hev, Hv by (by simpl). simpl in Hev, Hv.
    unfold view in Hv. injection Hv as _ Hp' _ _ _.
    repeat split; simpl; auto. congruence.
  - destruct (handles_events _ _ _ Hh) as (Hmain & Hev & Hv).
    destruct (idle_view _ Hinv Hmain) as (p & Hp & _). exists p.
    simpl in Hev, Hv. unfold _handle_user_input in Hev, Hv.
    rewrite (mrun_forward _ _ p) in Hev, Hv by (by simpl). simpl in Hev, Hv.
    unfold view in Hv. injection Hv as _ Hp' _ _ _.
    repeat split; simpl; auto. congruence.
  - destruct Hfw as [Hne Hget]. destruct (name cmd) as [|c rest] eqn:Hname; [done|].
    destruct (normal_command_events _ _ _ _ _ Hinv Hname Hh) as (p & Hp & Hev & Hp' & _).
    unfold routed_events in Hev. rewrite Hname, Hget in Hev.
    exists p. simpl. repeat split; auto.
Qed.

(** *** The text a worker is sent *)

Lemma join_app a b : Py.join (a ++ b) = Py.join a +:+ Py.join b.
Proof.
  induction a as [|l a IH]; simpl.
  - by rewrite append_nil_l.
  - rewrite IH. by rewrite append_assoc.
Qed.

Arguments stdin_text : simpl never.
Arguments stdin_flushes : simpl never.

Lemma stdin_text_app p es1 es2 :
  stdin_text p (es1 ++ es2) = stdin_text p es1 +:+ stdin_text p es2.
Proof. unfold stdin_text. by rewrite omap_app, join_app. Qed.

Lemma stdin_flushes_app p es1 es2 :
  stdin_flushes p (es1 ++ es2) = stdin_flushes p es1 + stdin_flushes p es2.
Proof. unfold stdin_flushes. by rewrite omap_app, length_app. Qed.

Lemma stdin_none p es :
  Forall (fun e => is_stdin_event e = false) es ->
  stdin_text p es = "" /\ stdin_flushes p es = 0.
Proof.
  unfold stdin_text, stdin_flushes.
  induction 1 as [|e es He _ [IH1 IH2]]; simpl; [done|].
  destruct e; try done.
Qed.

Lemma stdin_forward_lines p q ls :
  let es := flat_map (fun line => [EStdin p (SWrite line); EStdin p SFlush]) ls in
  stdin_text q es = (if decide (p = q) then Py.join ls else "")
  /\ stdin_flushes q es = (if decide (p = q) then length ls else 0).
Proof.
  unfold stdin_text, stdin_flushes. induction ls as [|l ls [IH1 IH2]]; simpl.
  - by destruct (decide (p = q)).
  - destruct (decide (p = q)) as [->|Hne]; simpl.
    + split; f_equal; [exact IH1|exact IH2].
    + split; [exact IH1|exact IH2].
Qed.

Lemma stdin_forward p q msg :
  stdin_text q (forward_events p msg)
  = (if decide (p = q) then serialize_message msg 1024 +:+ String "010" "" else "")
  /\ stdin_flushes q (forward_events p msg)
     = (if decide (p = q)
        then length (Py.splitlines_keepends (serialize_message msg 1024)) else 0).
Proof.
  unfold forward_events. rewrite stdin_text_app, stdin_flushes_app.
  destruct (stdin_forward_lines p q (Py.splitlines_keepends (serialize_message msg 1024)))
    as [-> ->].
  unfold stdin_text, stdin_flushes. simpl.
  destruct (decide (p = q)); simpl.
  - rewrite join_splitlines, append_nil_r. split; [done|lia].
  - done.
Qed.

(** *** The lines a forwarder writes are lines it read *)

Lemma relay_lines_sub ls :
  forall f, sublist (relay_lines f ls).1 ls
            /\ Forall (fun l => l <> "") (relay_lines f ls).1.
Proof.
  induction ls as [|l ls IH]; intros f; simpl.
  - split; constructor.
  - destruct (f && _looks_like_echo l).
    + destruct (IH f) as [Hs Hne]. split; [by apply sublist_cons|done].
    + destruct (decide (l = "")) as [->|Hl]; simpl.
      * split; [apply sublist_nil_l|constructor].
      * destruct (IH false) as [Hs Hne].
        destruct (relay_lines false ls) as [w o]. simpl in *.
        split; [by apply sublist_skip|by constructor].
Qed.

Lemma lines_rel_sub a r w :
  lines_rel true a r w -> sublist w r /\ Forall (fun l => l <> "") w.
Proof.
  pose proof (relay_lines_sub r true) as Hr.
  destruct a; simpl.
  - intros H. by rewrite H in Hr.
  - intros (r' & -> & H). pose proof (relay_lines_sub r' true) as [Hs Hne].
    rewrite H in Hs, Hne. split; [by apply sublist_inserts_r|done].
  - intros (r' & f & -> & H & _). pose proof (relay_lines_sub r' true) as [Hs Hne].
    rewrite H in Hs, Hne. split; [by apply sublist_inserts_r|done].
  - intros H. by rewrite H in Hr.
  - intros H. by rewrite H in Hr.
  - intros H. by rewrite H in Hr.
  - intros <-. done.
Qed.

(** *** Strings and paths *)

Lemma append_length s t : String.length (s +:+ t) = String.length s + String.length t.
Proof.
  induction s as [|c s IH]; [by rewrite append_nil_l|].
  rewrite append_cons. simpl. by rewrite IH.
Qed.

Lemma append_inj_l s t1 t2 : s +:+ t1 = s +:+ t2 -> t1 = t2.
Proof.
  induction s as [|c s IH]; [by rewrite !append_nil_l|].
  rewrite !append_cons. intros [= H]. auto.
Qed.

Lemma append_inj_r t s1 : forall s2, s1 +:+ t = s2 +:+ t -> s1 = s2.
Proof.
  induction s1 as [|c s1 IH]; intros [|d s2] H; [done|..].
  - apply (f_equal String.length) in H. rewrite !append_length in H. simpl in H. lia.
  - apply (f_equal String.length) in H. rewrite !append_length in H. simpl in H. lia.
  - rewrite !append_cons in H. injection H as -> H. f_equal. auto.
Qed.

Lemma prefix_append p s : String.prefix p (p +:+ s) = true.
Proof.
  induction p as [|c p IH]; [by destruct s|].
  rewrite append_cons. simpl. by destruct (ascii_dec c c).
Qed.

Lemma is_backslash_spec c : is_backslash c = true -> c = "092"%char.
Proof. destruct c as [[] [] [] [] [] [] [] []]; vm_compute; congruence. Qed.

Lemma replace_backslash_cons c s :
  Py.replace (String c s) (String "092" "") "/"
  = if is_backslash c
    then String "/" (Py.replace s (String "092" "") "/")
    else String c (Py.replace s (String "092" "") "/").
Proof.
  unfold Py.replace. cbn [Py.replace_from String.prefix].
  destruct (ascii_dec "092" c) as [<-|Hne].
  - cbn. replace (String.prefix "" s) with true by (by destruct s).
    by rewrite append_cons, append_nil_l.
  - destruct (is_backslash c) eqn:Hc; [|done].
    apply is_backslash_spec in Hc. congruence.
Qed.

(** The result of [.replace("\\", "/")] holds no backslash. *)
Lemma replace_no_backslash s :
  has_backslash (Py.replace s (String "092" "") "/") = false.
Proof.
  induction s as [|c s IH]; [done|].
  rewrite replace_backslash_cons. destruct (is_backslash c) eqn:Hc; simpl.
  - exact IH.
  - by rewrite Hc.
Qed.

(** A path that holds no backslash is left as it is. *)
Lemma replace_posix s :
  has_backslash s = false -> Py.replace s (String "092" "") "/" = s.
Proof.
  induction s as [|c s IH]; [done|]. simpl.
  intros [Hc Hs]%orb_false_elim. rewrite replace_backslash_cons, Hc. by rewrite IH.
Qed.

Lemma drop_no_backslash n : forall s, has_backslash s = false -> has_backslash (Py.drop n s) = false.
Proof.
  induction n as [|n IH]; intros [|c s]; simpl; try done.
  intros [_ Hs]%orb_false_elim. auto.
Qed.

(** *** How workers are launched *)

Lemma step_spawn l st st' :
  step l st = Some st' ->
  trace st' = trace st
  \/ exists w e,
      trace st' = trace st ++ [(w, e)]
      /\ forall p args d env,
           e = ESpawn p args d env ->
           w = TMain /\ p = length (procs st) /\ args = launch_args (_cwd st)
           /\ d = _get_remote_program_directory /\ env = launch_env.
Proof.
  destruct l as [|t|p line|p|m]; simpl.
  - unfold step_main. destruct (main st) as [|i k] eqn:Hmain; [done|].
    destruct i; simpl;
      repeat match goal with
             | |- context [match ?x with _ => _ end] => destruct x eqn:?
             end;
      try done; intros [= <-]; simpl;
      right; eexists _, _; (split; [reflexivity|]); intros ? ? ? ? [=]; by subst.
  - unfold _forward_main_responses. destruct (threads st !! t) as [pc|] eqn:Hpc; [|done].
    destruct pc; simpl;
      repeat match goal with
             | |- context [match ?x with _ => _ end] => destruct x eqn:?
             end;
      try done; intros [= <-]; simpl;
      try (by left); right; eexists _, _; (split; [reflexivity|]); intros ? ? ? ? [=].
  - destruct (procs st !! p) as [pr|]; [|done].
    destruct (alive pr && negb (bool_decide (line = ""))); [|done]. intros [= <-]. by left.
  - destruct (procs st !! p) as [pr|]; [|done].
    destruct (alive pr); [|done]. intros [= <-]. by left.
  - destruct (main st); [|done]. intros [= <-]. simpl.
    right. eexists _, _. split; [reflexivity|]. intros ? ? ? ? [=].
Qed.



(** *** A forwarder whose worker has ended *)

Lemma ended_step l st st' p : ended p st -> step l st = Some st' -> ended p st'.
Proof.
  intros (pr & Hpr & Hal). unfold ended. destruct l as [|t|q line|q|m]; simpl.
  - unfold step_main. destruct (main st) as [|i k]; [done|].
    destruct i; simpl;
      repeat match goal with
             | |- context [match ?x with _ => _ end] => destruct x eqn:?
             end;
      try done; intros [= <-]; simpl; eauto.
    + destruct (decide (p = n)) as [->|Hne].
      * rewrite list_lookup_alter_eq, Hpr. simpl. eauto.
      * rewrite list_lookup_alter_ne by done. eauto.
    + exists pr. split; [|done]. by apply lookup_app_l_Some.
  - unfold _forward_main_responses. destruct (threads st !! t) as [pc|]; [|done].
    destruct pc; simpl;
      repeat match goal with
             | |- context [match ?x with _ => _ end] => destruct x eqn:?
             end;
      try done; intros [= <-]; simpl; eauto.
    destruct (decide (p = p0)) as [->|Hne].
    + rewrite list_lookup_insert_eq by (by eapply lookup_lt_Some).
      simplify_eq. eauto.
    + rewrite list_lookup_insert_ne by done. eauto.
  - destruct (procs st !! q) as [qr|] eqn:Hq; [|done].
    destruct (alive qr) eqn:Hqa; [|done]. simpl.
    destruct (bool_decide (line = "")); [done|]. simpl. intros [= <-]. simpl.
    rewrite list_lookup_insert_ne by (intros ->; congruence). eauto.
  - destruct (procs st !! q) as [qr|] eqn:Hq; [|done].
    destruct (alive qr) eqn:Hqa; [|done]. intros [= <-]. simpl.
    rewrite list_lookup_insert_ne by (intros ->; congruence). eauto.
  - destruct (main st); [|done]. intros [= <-]. simpl. eauto.
Qed.

(** The current forwarder tests the worker of its own number. *)
Lemma forwarder_polls_own st t pc p :
  inv st -> paired st -> threads st !! t = Some pc -> terminated pc = false ->
  _proc st = Some p -> p = t.
Proof.
  intros Hinv [Hf Hn] Hpc Hrun Hp.
  pose proof (inv_proc _ Hinv _ Hp) as Hlen.
  pose proof (running_is_forwarder _ _ _ Hinv Hpc Hrun) as ->.
  destruct Hinv as [[m (Hwf & Hph & _)] _ _].
  destruct (main st) as [|i k] eqn:Hmain; [lia|].
  destruct i; try lia.
  at_mode m Hwf. destruct Hph as (_ & Hall & _).
  specialize (Hall _ _ Hpc). congruence.
Qed.

Lemma relay_step_shape t st st' :
  _forward_main_responses t st = Some st' ->
  (exists pc', threads st' = <[t := pc']> (threads st))
  /\ (trace st' = trace st \/ exists e, trace st' = trace st ++ [(TRelay t, e)]).
Proof.
  unfold _forward_main_responses. destruct (threads st !! t) as [pc|]; [|done].
  destruct pc; simpl;
    repeat match goal with
           | |- context [match ?x with _ => _ end] => destruct x eqn:?
           end;
    try done; intros [= <-]; simpl; eauto.
Qed.

Lemma reads_step l st st' t :
  inv st -> paired st -> ended t st -> step l st = Some st' ->
  reads_done t st' + reads_left (threads st' !! t)
  <= reads_done t st + reads_left (threads st !! t).
Proof.
  intros Hinv Hp (pr & Hpr & Hal) Hstep. unfold reads_done.
  destruct l as [|t'|q line|q|m]; simpl in Hstep.
  - destruct (main_step_trace _ _ Hstep) as [e ->].
    rewrite thread_events_snoc, app_nil_r.
    destruct (main st) as [|i k] eqn:Hmain;
      [by unfold step_main in Hstep; rewrite Hmain in Hstep|].
    pose proof (main_step_threads _ _ _ _ Hmain Hstep) as Hts.
    assert (Hcase : threads st' = threads st \/ threads st' = threads st ++ [RLoop]).
    { destruct i; destruct Hts as [Hts _]; auto. }
    destruct Hcase as [-> | ->]; [done|].
    destruct (threads st !! t) as [pc|] eqn:Hpc.
    + by rewrite (lookup_app_l_Some _ _ _ _ Hpc).
    + apply Nat.add_le_mono_l. simpl.
      destruct ((threads st ++ [RLoop]) !! t) as [pc|] eqn:Hpc'; [|done].
      apply lookup_app_Some in Hpc' as [Hl|[_ Hl]]; [congruence|].
      apply list_lookup_singleton_Some in Hl as [_ <-]. done.
  - destruct (decide (t' = t)) as [->|Hne].
    + revert Hstep. unfold _forward_main_responses.
      destruct (threads st !! t) as [pc|] eqn:Hpc; [|done].
      assert (Hlt : t < length (threads st)) by (by eapply lookup_lt_Some).
      pose proof (fun p => relay_reads_own _ _ _ p Hinv Hp Hpc) as Hown.
      pose proof (fun p Hr => forwarder_polls_own _ _ _ p Hinv Hp Hpc Hr) as Hpoll.
      destruct pc; simpl;
        repeat match goal with
               | |- context [match ?x with _ => _ end] => destruct x eqn:?
               end;
        try done; intros [= <-]; simpl;
        rewrite ?thread_events_snoc, ?decide_True, ?lines_read_snoc, ?length_app by done;
        rewrite list_lookup_insert_eq by done; simpl; try lia.
      exfalso. specialize (Hpoll n eq_refl eq_refl). subst n. congruence.
    + destruct (relay_step_shape _ _ _ Hstep) as [[pc' ->] Htr].
      rewrite list_lookup_insert_ne by done.
      destruct Htr as [->|[e ->]]; [done|].
      by rewrite thread_events_snoc, decide_False, app_nil_r.
  - destruct (procs st !! q) as [qr|]; [|done].
    destruct (alive qr && negb (bool_decide (line = ""))); [|done].
    by injection Hstep as <-.
  - destruct (procs st !! q) as [qr|]; [|done].
    destruct (alive qr); [|done]. by injection Hstep as <-.
  - destruct (main st); [|done]. injection Hstep as <-. simpl.
    by rewrite thread_events_snoc, app_nil_r.
Qed.

Lemma reads_run ls t :
  forall st st',
    inv st -> paired st -> ended t st -> run ls st = Some st' ->
    reads_done t st' + reads_left (threads st' !! t)
    <= reads_done t st + reads_left (threads st !! t).
Proof.
  induction ls as [|l ls IH]; simpl; intros st st' Hinv Hp He.
  - by intros [= <-].
  - destruct (step l st) as [st1|] eqn:Hstep; [|done]. intros Hrun.
    pose proof (reads_step _ _ _ _ Hinv Hp He Hstep).
    pose proof (IH st1 st' (inv_step _ _ _ Hinv Hstep) (paired_step _ _ _ Hinv Hp Hstep)
                  (ended_step _ _ _ _ He Hstep) Hrun).
    lia.
Qed.

Lemma trace_grows ls : forall st st', run ls st = Some st' -> exists tr, trace st' = trace st ++ tr.
Proof.
  induction ls as [|l ls IH]; simpl; intros st st'.
  - intros [= <-]. exists []. by rewrite app_nil_r.
  - destruct (step l st) as [st1|] eqn:Hstep; [|done]. intros Hrun.
    destruct (IH _ _ Hrun) as [tr ->].
    destruct (step_spawn _ _ _ Hstep) as [->|(w & e & -> & _)]; [by exists tr|].
    exists ((w, e) :: tr). by rewrite <- app_assoc.
Qed.

Lemma reads_done_grows ls t st st' : run ls st = Some st' -> reads_done t st <= reads_done t st'.
Proof.
  intros [tr Htr]%trace_grows. unfold reads_done, thread_events, lines_read.
  rewrite Htr, !omap_app, length_app. lia.
Qed.

(** *** The worker the main thread acts on *)

Lemma spawned_snoc tr w e :
  spawned (tr ++ [(w, e)])
  = spawned tr + match spawn_of e with Some _ => 1 | None => 0 end.
Proof.
  unfold spawned. rewrite omap_app, length_app. simpl. by destruct (spawn_of e).
Qed.

Lemma step_target l st st' :
  inv st -> step l st = Some st' ->
  (trace st' = trace st /\ length (procs st') = length (procs st))
  \/ exists w e,
      trace st' = trace st ++ [(w, e)]
      /\ length (procs st')
         = length (procs st) + match spawn_of e with Some _ => 1 | None => 0 end
      /\ (forall q, target_of e = Some q -> S q = length (procs st))
      /\ (forall q, spawn_of e = Some q -> q = length (procs st)).
Proof.
  intros Hinv. pose proof (inv_proc _ Hinv) as Hproc.
  destruct l as [|t|p line|p|m]; simpl.
  - unfold step_main. destruct (main st) as [|i k] eqn:Hmain; [done|].
    destruct i; simpl;
      repeat match goal with
             | |- context [match ?x with _ => _ end] => destruct x eqn:?
             end;
      try done; intros [= <-]; simpl; rewrite ?length_alter, ?length_app; simpl;
      right; eexists _, _; (split; [reflexivity|]); simpl;
      (split; [lia|]); (split; [intros ? [= <-]; by apply Hproc|by intros ? [= <-]]).
  - unfold _forward_main_responses. destruct (threads st !! t) as [pc|] eqn:Hpc; [|done].
    destruct pc; simpl;
      repeat match goal with
             | |- context [match ?x with _ => _ end] => destruct x eqn:?
             end;
      try done; intros [= <-]; simpl; rewrite ?length_insert;
      try (by left); right; eexists _, _; (split; [reflexivity|]); simpl;
      (split; [lia|]); split; intros ? [=].
  - destruct (procs st !! p) as [pr|]; [|done].
    destruct (alive pr && negb (bool_decide (line = ""))); [|done]. intros [= <-].
    simpl. rewrite length_insert. by left.
  - destruct (procs st !! p) as [pr|]; [|done].
    destruct (alive pr); [|done]. intros [= <-].
    simpl. rewrite length_insert. by left.
  - destruct (main st); [|done]. intros [= <-]. simpl.
    right. eexists _, _. split; [reflexivity|]. simpl. split; [lia|].
    split; intros ? [=].
Qed.

Lemma targets_step l st st' :
  inv st -> step l st = Some st' ->
  spawned (trace st) = length (procs st)
  /\ targets_newest (trace st) /\ numbered (trace st) ->
  spawned (trace st') = length (procs st')
  /\ targets_newest (trace st') /\ numbered (trace st').
Proof.
  intros Hinv Hstep (Hn & Ht & Hnum).
  destruct (step_target _ _ _ Hinv Hstep)
    as [[-> ->]|(w0 & e0 & -> & -> & Hnew & Hsp)]; [done|].
  split; [by rewrite spawned_snoc, Hn|]. split.
  - intros pre post w e q Heq He.
    apply snoc_split in Heq as [(post0 & -> & Heq)|(-> & [= -> ->] & <-)]; [eauto|].
    rewrite Hn. auto.
  - intros pre post w e q Heq He.
    apply snoc_split in Heq as [(post0 & -> & Heq)|(-> & [= -> ->] & <-)]; [eauto|].
    rewrite Hn. auto.
Qed.

Lemma targets_initial cwd :
  spawned (trace (initial cwd)) = length (procs (initial cwd))
  /\ targets_newest (trace (initial cwd)) /\ numbered (trace (initial cwd)).
Proof.
  split; [done|]. split; intros pre post w e q Heq He; simpl in Heq;
    destruct pre as [|x0 [|x1 [|x2 [|x3 [|x4 pre]]]]]; simplify_eq/=; done.
Qed.

Lemma targets_run ls :
  forall st st',
    inv st -> run ls st = Some st' ->
    spawned (trace st) = length (procs st)
    /\ targets_newest (trace st) /\ numbered (trace st) ->
    spawned (trace st') = length (procs st')
    /\ targets_newest (trace st') /\ numbered (trace st').
Proof.
  induction ls as [|l ls IH]; simpl; intros st st' Hinv.
  - by intros [= <-].
  - destruct (step l st) as [st1|] eqn:Hstep; [|done].
    eauto using inv_step, targets_step.
Qed.

(** *** Which messages replace the worker *)

Lemma handle_normal_capital cmd c rest :
  name cmd = String c rest -> Py.isupper c = true ->
  _handle_normal_command cmd
  = (match fields cmd !! "expected_cwd" with
     | Some d => [ISetCwd d]
     | None => []
     end ++ _restart_main_backend)
    ++ match getattr_self ("_cmd_" +:+ name cmd) with
       | Some handler => call_handler handler cmd
       | None => _forward_incoming_command (CommandToBackend cmd)
       end.
Proof.
  intros Hname Hup. unfold _handle_normal_command.
  destruct (name cmd) as [|c0 rest0]; [done|]. injection Hname as -> ->.
  by rewrite Hup.
Qed.

(** The fields of the main thread after a command with a name. *)
Lemma normal_command_view st cmd c rest p :
  name cmd = String c rest -> _proc st = Some p ->
  _response_forwarder st < length (threads st) ->
  (mrun (_handle_normal_command cmd) (view st)).1.2
  = if restarting cmd
    then MView (cwd_after cmd (_cwd st)) (Some (length (procs st)))
               (S (length (procs st))) (S (length (threads st))) (length (threads st))
    else view st.
Proof.
  intros Hname Hp Hf. rewrite (restarting_upper _ _ _ Hname).
  destruct (Py.isupper c) eqn:Hup.
  - rewrite (handle_normal_capital _ _ _ Hname Hup), mrun_app.
    assert (Hfirst :
      mrun (match fields cmd !! "expected_cwd" with
            | Some d => [ISetCwd d]
            | None => []
            end ++ _restart_main_backend) (view st)
      = (adopt_events cmd
         ++ restart_events p (length (procs st)) (length (threads st))
              (_response_forwarder st) (cwd_after cmd (_cwd st)),
         MView (cwd_after cmd (_cwd st)) (Some (length (procs st)))
               (S (length (procs st))) (S (length (threads st))) (length (threads st)),
         false)).
    { unfold adopt_events, cwd_after.
      destruct (fields cmd !! "expected_cwd") as [d|]; simpl; unfold view; simpl;
        rewrite Hp; simpl; by rewrite decide_True. }
    rewrite Hfirst.
    match goal with
    | |- context [mrun ?q ?v] =>
        pose proof (mrun_routed cmd v (length (procs st)) eq_refl) as Hr;
        destruct (mrun q v) as [[es v2] r2]
    end.
    simpl in Hr. by injection Hr as _ ->.
  - rewrite (handle_normal_plain _ _ _ Hname Hup).
    by rewrite (mrun_routed cmd (view st) p Hp).
Qed.

(** *** A line on its way to the controller *)

Lemma main_step_procs st st' :
  step_main st = Some st' ->
  forall p pr', procs st' !! p = Some pr' ->
    stdout_buf pr' = []
    \/ exists pr, procs st !! p = Some pr /\ stdout_buf pr' = stdout_buf pr.
Proof.
  unfold step_main. destruct (main st) as [|i k]; [done|].
  destruct i; simpl;
    repeat match goal with
           | |- context [match ?x with _ => _ end] => destruct x eqn:?
           end;
    try done; intros [= <-]; simpl; intros p pr' Hp; eauto.
  - destruct (decide (p = n)) as [->|Hne].
    + rewrite list_lookup_alter_eq in Hp. destruct (procs st !! n) as [pr|]; [|done].
      injection Hp as <-. eauto.
    + rewrite list_lookup_alter_ne in Hp by done. eauto.
  - apply lookup_app_Some in Hp as [Hp|[_ Hp]]; [eauto|].
    apply list_lookup_singleton_Some in Hp as [_ <-]. by left.
Qed.

(** A running thread that finds the handle cleared belongs to a worker that
    has ended. *)
Lemma cleared_means_ended st t pc :
  inv st -> paired st -> winv st ->
  threads st !! t = Some pc -> terminated pc = false -> _proc st = None ->
  ended t st.
Proof.
  intros Hinv [Hf Hn] [_ Hnone] Hpc Hrun Hp.
  pose proof (running_is_forwarder _ _ _ Hinv Hpc Hrun) as ->.
  assert (Hlen : S (_response_forwarder st) = length (procs st)).
  { destruct Hinv as [[m (Hwf & Hph & _)] _ _].
    destruct (main st) as [|i k] eqn:Hmain; [lia|].
    destruct i; try lia.
    at_mode m Hwf. destruct Hph as (_ & Hall & _).
    specialize (Hall _ _ Hpc). congruence. }
  destruct (procs st !! _response_forwarder st) as [pr|] eqn:Hpr.
  - exists pr. split; [done|]. by apply (Hnone Hp _ _ Hpr).
  - apply lookup_ge_None in Hpr. lia.
Qed.

Lemma linv_step_relay t st st' :
  inv st -> paired st -> winv st -> linv st ->
  step (LRelay t) st = Some st' -> linv st'.
Proof.
  intros Hinv Hp Hw [Hne Hend] Hstep.
  assert (Hkeep : forall p, ended p st -> ended p st')
    by (intros p He; eapply ended_step; eauto).
  simpl in Hstep. unfold _forward_main_responses in Hstep.
  destruct (threads st !! t) as [pc|] eqn:Hpc; [|done].
  assert (Hlt : t < length (threads st)) by (by eapply lookup_lt_Some).
  assert (Hframe : forall st1 pc',
            threads st1 = <[t := pc']> (threads st) -> procs st1 = procs st ->
            (forall p, ended p st -> ended p st1) ->
            (terminated pc' = true \/ (exists q, pc' = RFilter q "") -> ended t st) ->
            linv st1).
  { intros st1 pc' Hts Hps Hk Hme. split; [by rewrite Hps|].
    intros t0 pc0. rewrite Hts.
    intros [(-> & <- & _)|(Hne0 & Hl)]%list_lookup_insert_Some Hor; eauto. }
  pose proof (fun Hr => cleared_means_ended _ _ _ Hinv Hp Hw Hpc Hr) as Hcleared.
  pose proof (fun p => relay_reads_own _ _ _ p Hinv Hp Hpc) as Hown.
  pose proof (fun p Hr => forwarder_polls_own _ _ _ p Hinv Hp Hpc Hr) as Hpoll.
  destruct pc; simpl in Hstep.
  - (* RLoop *)
    destruct (_proc st) eqn:Hproc; injection Hstep as <-;
      (eapply Hframe; [reflexivity|reflexivity|exact Hkeep|]).
    + intros [?|[? ?]]; done.
    + intros _. by apply Hcleared.
  - (* RPoll *)
    destruct (_proc st) as [p|] eqn:Hproc.
    + destruct (procs st !! p) as [pr|] eqn:Hpr; [|done].
      destruct (alive pr) eqn:Hal; injection Hstep as <-;
        (eapply Hframe; [reflexivity|reflexivity|exact Hkeep|]).
      * intros [?|[? ?]]; done.
      * intros _. pose proof (Hpoll p eq_refl eq_refl) as ->. by exists pr.
    + injection Hstep as <-. eapply Hframe; [reflexivity|reflexivity|exact Hkeep|].
      intros _. by apply Hcleared.
  - (* RLoad *)
    destruct (_proc st) as [p|] eqn:Hproc; injection Hstep as <-;
      (eapply Hframe; [reflexivity|reflexivity|exact Hkeep|]).
    + intros [?|[? ?]]; done.
    + intros _. by apply Hcleared.
  - (* RReadline *)
    pose proof (Hown p eq_refl) as ->.
    destruct (procs st !! t) as [pr|] eqn:Hpr; [|done].
    destruct (stdout_buf pr) as [|l rest] eqn:Hbuf.
    + destruct (alive pr) eqn:Hal; [done|]. injection Hstep as <-.
      eapply Hframe; [reflexivity|reflexivity|exact Hkeep|].
      intros _. by exists pr.
    + injection Hstep as <-.
      pose proof (Hne _ _ Hpr) as Hbufne. rewrite Hbuf in Hbufne.
      apply Forall_cons in Hbufne as [Hl Hrest].
      split; simpl.
      * intros q qr [(-> & <- & _)|(Hneq & Hq)]%list_lookup_insert_Some; simpl; eauto.
      * intros t0 pc0.
        intros [(-> & <- & _)|(Hne0 & Hl0)]%list_lookup_insert_Some Hor; [|eauto].
        destruct Hor as [?|[q [= -> ->]]]; done.
  - (* RFilter *)
    destruct (_main_backend_is_fresh st && _looks_like_echo l);
      [|destruct (decide (l = "")) as [->|Hl]]; injection Hstep as <-;
      (eapply Hframe; [reflexivity|reflexivity|exact Hkeep|]).
    + intros [?|[? ?]]; done.
    + intros _. apply (Hend _ _ Hpc). right. by eexists.
    + intros [?|[? ?]]; done.
  - (* RAcquire *)
    destruct (_response_lock st); [done|]. injection Hstep as <-.
    eapply Hframe; [reflexivity|reflexivity|exact Hkeep|]. intros [?|[? ?]]; done.
  - injection Hstep as <-.
    eapply Hframe; [reflexivity|reflexivity|exact Hkeep|]. intros [?|[? ?]]; done.
  - injection Hstep as <-.
    eapply Hframe; [reflexivity|reflexivity|exact Hkeep|]. intros [?|[? ?]]; done.
  - injection Hstep as <-.
    eapply Hframe; [reflexivity|reflexivity|exact Hkeep|]. intros [?|[? ?]]; done.
  - injection Hstep as <-.
    eapply Hframe; [reflexivity|reflexivity|exact Hkeep|]. intros [?|[? ?]]; done.
  - done.
  - done.
Qed.

Lemma linv_step l st st' :
  inv st -> paired st -> winv st -> linv st -> step l st = Some st' -> linv st'.
Proof.
  intros Hinv Hp Hw Hl Hstep.
  assert (Hkeep : forall p, ended p st -> ended p st')
    by (intros p He; eapply ended_step; eauto).
  destruct l as [|t|p line|p|m].
  - destruct Hl as [Hne Hend]. simpl in Hstep. split.
    + intros p pr' Hpr'.
      destruct (main_step_procs _ _ Hstep _ _ Hpr') as [->|(pr & Hpr & ->)];
        [constructor|eauto].
    + destruct (main st) as [|i k] eqn:Hmain;
        [by unfold step_main in Hstep; rewrite Hmain in Hstep|].
      pose proof (main_step_threads _ _ _ _ Hmain Hstep) as Hts.
      assert (Hcase : threads st' = threads st \/ threads st' = threads st ++ [RLoop])
        by (destruct i; destruct Hts as [Hts _]; auto).
      intros t pc Hpc Hor. destruct Hcase as [Hc|Hc]; rewrite Hc in Hpc; [eauto|].
      apply lookup_app_Some in Hpc as [Hpc|[_ Hpc]]; [eauto|].
      apply list_lookup_singleton_Some in Hpc as [_ <-].
      destruct Hor as [?|[? ?]]; done.
  - by eapply linv_step_relay.
  - destruct Hl as [Hne Hend]. simpl in Hstep.
    destruct (procs st !! p) as [pr|] eqn:Hpr; [|done].
    destruct (alive pr) eqn:Hal; [|done]. simpl in Hstep.
    destruct (bool_decide (line = "")) eqn:Hline; [done|]. simpl in Hstep.
    apply bool_decide_eq_false in Hline. injection Hstep as <-. split; simpl.
    + intros q qr [(-> & <- & _)|(Hneq & Hq)]%list_lookup_insert_Some; simpl; eauto.
      apply Forall_app. split; [eauto|by constructor].
    + intros t pc Hpc Hor. apply Hkeep. eauto.
  - destruct Hl as [Hne Hend]. simpl in Hstep.
    destruct (procs st !! p) as [pr|] eqn:Hpr; [|done].
    destruct (alive pr) eqn:Hal; [|done]. injection Hstep as <-. split; simpl.
    + intros q qr [(-> & <- & _)|(Hneq & Hq)]%list_lookup_insert_Some; simpl; eauto.
    + intros t pc Hpc Hor. apply Hkeep. eauto.
  - destruct Hl as [Hne Hend]. simpl in Hstep.
    destruct (main st); [|done]. injection Hstep as <-. split; simpl; [done|].
    intros t pc Hpc Hor. apply Hkeep. eauto.
Qed.

Lemma linv_initial cwd : linv (initial cwd).
Proof.
  split; simpl.
  - intros [|p] pr; simpl; [|by destruct p]. intros [= <-]. constructor.
  - intros [|t] pc; simpl; [|by destruct t]. intros [= <-] [?|[? ?]]; done.
Qed.

Lemma linv_run ls :
  forall st st',
    inv st -> paired st -> winv st -> linv st -> run ls st = Some st' -> linv st'.
Proof.
  induction ls as [|l ls IH]; simpl; intros st st' Hinv Hp Hw Hl.
  - by intros [= <-].
  - destruct (step l st) as [st1|] eqn:Hstep; [|done]. intros Hrun.
    apply (IH st1 st'); eauto using inv_step, paired_step, winv_step, linv_step.
Qed.

Lemma linv_reachable cwd st : reachable cwd st -> linv st.
Proof.
  intros [ls Hrun].
  eauto using linv_run, inv_initial, paired_initial, winv_initial, linv_initial.
Qed.

Lemma lock_free_idle st t pc :
  inv st -> main st = [] ->
  threads st !! t = Some pc -> terminated pc = false -> critical pc = false ->
  _response_lock st = None.
Proof.
  intros Hinv Hmain Hpc Hrun Hcr.
  pose proof (running_is_forwarder _ _ _ Hinv Hpc Hrun) as Hfwd.
  pose proof Hinv as [[m (Hwf & Hph & Hlk & Hil)] _ Ht].
  rewrite Hmain in Hwf. at_mode m Hwf.
  destruct (_response_lock st) as [[|t']|] eqn:Hl; [| |done].
  - destruct Hlk as [Hlk _]. by specialize (Hlk eq_refl).
  - destruct (inv_lock _ _ _ _ Ht _ eq_refl) as (pc' & Hpc' & Hcr').
    assert (Hrun' : terminated pc' = false) by (by destruct pc').
    pose proof (running_is_forwarder _ _ _ Hinv Hpc' Hrun') as Hfwd'.
    subst t t'. congruence.
Qed.

(** With the main thread between two messages and the worker alive, the
    forwarder's next statement is never blocked: it reads the line at the
    head of the worker's output, or comes closer to doing so. *)
Lemma relay_advances st p pr l rest pc :
  inv st -> paired st -> linv st -> main st = [] -> _proc st = Some p ->
  procs st !! p = Some pr -> alive pr = true -> stdout_buf pr = l :: rest ->
  threads st !! p = Some pc ->
  exists st',
    step (LRelay p) st = Some st' /\ main st' = [] /\ _proc st' = Some p
    /\ ((pc = RReadline p
         /\ threads st' !! p = Some (RFilter p l)
         /\ trace st' = trace st ++ [(TRelay p, ERead p l)]
         /\ procs st' = <[p := RProc true rest]> (procs st))
        \/ (exists pc', threads st' !! p = Some pc' /\ to_read pc' < to_read pc
                        /\ procs st' = procs st)).
Proof.
  intros Hinv Hp [Hne Hend] Hmain Hproc Hpr Hal Hbuf Hpc.
  assert (Hnot : ~ ended p st) by (intros (pr' & Hpr' & Hal'); congruence).
  assert (Hrun : terminated pc = false).
  { destruct (terminated pc) eqn:Hterm; [|done]. destruct Hnot. eauto. }
  assert (Hlt : p < length (threads st)) by (by eapply lookup_lt_Some).
  pose proof (fun q => relay_reads_own _ _ _ q Hinv Hp Hpc) as Hown.
  pose proof (lock_free_idle _ _ _ Hinv Hmain Hpc Hrun) as Hfree.
  simpl. unfold _forward_main_responses. rewrite Hpc.
  destruct pc; simpl in *; try done; rewrite ?Hproc, ?Hpr, ?Hal.
  - eexists. split; [done|]. simpl. repeat split; auto. right. eexists.
    rewrite list_lookup_insert_eq by done. repeat split; auto; simpl; lia.
  - eexists. split; [done|]. simpl. repeat split; auto. right. eexists.
    rewrite list_lookup_insert_eq by done. repeat split; auto; simpl; lia.
  - eexists. split; [done|]. simpl. repeat split; auto. right. eexists.
    rewrite list_lookup_insert_eq by done. repeat split; auto; simpl; lia.
  - pose proof (Hown p0 eq_refl) as ->. rewrite Hpr, Hbuf, Hal.
    eexists. split; [done|]. simpl. repeat split; auto. left.
    rewrite list_lookup_insert_eq by done. done.
  - destruct (_main_backend_is_fresh st && _looks_like_echo l0).
    + eexists. split; [done|]. simpl. repeat split; auto. right. eexists.
      rewrite list_lookup_insert_eq by done. repeat split; auto; simpl; lia.
    + destruct (decide (l0 = "")) as [->|Hl0].
      { destruct Hnot. apply (Hend _ _ Hpc). right. by eexists. }
      eexists. split; [done|]. simpl. repeat split; auto. right. eexists.
      rewrite list_lookup_insert_eq by done. repeat split; auto; simpl; lia.
  - rewrite Hfree by done.
    eexists. split; [done|]. simpl. repeat split; auto. right. eexists.
    rewrite list_lookup_insert_eq by done. repeat split; auto; simpl; lia.
  - eexists. split; [done|]. simpl. repeat split; auto. right. eexists.
    rewrite list_lookup_insert_eq by done. repeat split; auto; simpl; lia.
  - eexists. split; [done|]. simpl. repeat split; auto. right. eexists.
    rewrite list_lookup_insert_eq by done. repeat split; auto; simpl; lia.
  - eexists. split; [done|]. simpl. repeat split; auto. right. eexists.
    rewrite list_lookup_insert_eq by done. repeat split; auto; simpl; lia.
  - eexists. split; [done|]. simpl. repeat split; auto. right. eexists.
    rewrite list_lookup_insert_eq by done. repeat split; auto; simpl; lia.
Qed.

(** The forwarder, left to run, reads the line within ten statements. *)
Lemma relay_reads_next b :
  forall st p pr l rest pc,
    inv st -> paired st -> winv st -> linv st -> main st = [] -> _proc st = Some p ->
    procs st !! p = Some pr -> alive pr = true -> stdout_buf pr = l :: rest ->
    threads st !! p = Some pc -> to_read pc <= b ->
    exists n st',
      n <= S b
      /\ run (replicate n (LRelay p)) st = Some st'
      /\ inv st' /\ main st' = []
      /\ threads st' !! p = Some (RFilter p l)
      /\ last (trace st') = Some (TRelay p, ERead p l)
      /\ procs st' !! p = Some (RProc true rest).
Proof.
  induction b as [|b IH]; intros st p pr l rest pc Hinv Hp Hw Hl Hmain Hproc Hpr Hal Hbuf
    Hpc Hle;
    destruct (relay_advances _ _ _ _ _ _ Hinv Hp Hl Hmain Hproc Hpr Hal Hbuf Hpc)
      as (st1 & Hstep & Hmain1 & Hproc1 & Hcase);
    pose proof (inv_step _ _ _ Hinv Hstep) as Hinv1;
    assert (Hread : pc = RReadline p
              /\ threads st1 !! p = Some (RFilter p l)
              /\ trace st1 = trace st ++ [(TRelay p, ERead p l)]
              /\ procs st1 = <[p := RProc true rest]> (procs st) ->
            exists n st',
              n <= 1
              /\ run (replicate n (LRelay p)) st = Some st'
              /\ inv st' /\ main st' = []
              /\ threads st' !! p = Some (RFilter p l)
              /\ last (trace st') = Some (TRelay p, ERead p l)
              /\ procs st' !! p = Some (RProc true rest)).
  1,3: intros (_ & Hpc1 & Htr & Hps); exists 1, st1; simpl in Hstep |- *;
    rewrite Hstep; (split; [lia|]); (split; [done|]);
    (split; [done|]); (split; [done|]); (split; [done|]);
    (split; [rewrite Htr; apply last_snoc
            |rewrite Hps; apply list_lookup_insert_eq; by eapply lookup_lt_Some]).
  - destruct Hcase as [Hc|(pc1 & _ & Hlt & _)]; [|lia].
    destruct (Hread Hc) as (n & st' & Hn & Hrest). exists n, st'. split; [lia|done].
  - destruct Hcase as [Hc|(pc1 & Hpc1 & Hlt & Hps)].
    { destruct (Hread Hc) as (n & st' & Hn & Hrest). exists n, st'. split; [lia|done]. }
    rewrite <- Hps in Hpr.
    destruct (IH st1 p pr l rest pc1) as (n & st' & Hn & Hrun & Hrest);
      eauto using inv_step, paired_step, winv_step, linv_step; [lia|].
    exists (S n), st'. simpl in Hstep |- *. rewrite Hstep. split; [lia|done].
Qed.

(** The thread has the line in hand: it drops it, when the flag is set and
    the line looks like an echo, or writes and flushes it. *)
Lemma relay_settles st p l :
  inv st -> main st = [] -> threads st !! p = Some (RFilter p l) -> l <> "" ->
  exists k st',
    k <= 4
    /\ run (replicate k (LRelay p)) st = Some st'
    /\ if _main_backend_is_fresh st && _looks_like_echo l
       then last (trace st') = Some (TRelay p, EDiscard l)
            /\ controller_stream (trace st') = controller_stream (trace st)
       else controller_stream (trace st')
            = controller_stream (trace st)
              ++ [(TRelay p, OWrite (Relayed p l)); (TRelay p, OFlush)].
Proof.
  intros Hinv Hmain Hpc Hl.
  assert (Hlt : p < length (threads st)) by (by eapply lookup_lt_Some).
  pose proof (lock_free_idle _ _ _ Hinv Hmain Hpc eq_refl eq_refl) as Hfree.
  destruct (_main_backend_is_fresh st && _looks_like_echo l) eqn:Hecho.
  - eexists 1, _. split; [lia|]. split.
    + simpl. unfold _forward_main_responses. rewrite Hpc. simpl. rewrite Hecho. done.
    + simpl. split; [apply last_snoc|]. by rewrite stream_snoc, app_nil_r.
  - eexists 4, _. split; [lia|]. split.
    + simpl. unfold _forward_main_responses at 1. rewrite Hpc. simpl.
      rewrite Hecho, decide_False by done.
      unfold _forward_main_responses at 1. simpl.
      rewrite list_lookup_insert_eq by done. simpl. rewrite Hfree.
      unfold _forward_main_responses at 1. simpl.
      rewrite list_lookup_insert_eq by (by rewrite length_insert). simpl.
      unfold _forward_main_responses at 1. simpl.
      rewrite list_lookup_insert_eq by (by rewrite !length_insert). simpl.
      reflexivity.
    + simpl. rewrite !stream_snoc. simpl. by rewrite app_nil_r, <- app_assoc.
Qed.

(** ** What else the class guarantees *)

(** X1: at most one worker process is alive at any moment.  In every
    reachable state a worker that has not ended is the one started last, so
    no two workers are alive together; and whenever the main thread is
    between two messages, a worker that is alive is the one [self._proc]
    names: a restart leaves no older worker running. *)
Theorem at_most_one_live_worker cwd st :
  reachable cwd st ->
  (forall p pr, procs st !! p = Some pr -> alive pr = true -> S p = length (procs st))
  /\ (forall p q pr qr,
        procs st !! p = Some pr -> procs st !! q = Some qr ->
        alive pr = true -> alive qr = true -> p = q)
  /\ (main st = [] ->
      forall p pr, procs st !! p = Some pr -> alive pr = true -> _proc st = Some p).
Proof.
  intros Hreach. pose proof (inv_reachable _ _ Hreach) as Hinv.
  destruct (winv_reachable _ _ Hreach) as [Hod Hnone].
  assert (Hnew : forall p pr, procs st !! p = Some pr -> alive pr = true ->
                              S p = length (procs st)).
  { intros p pr Hp Hal. pose proof (lookup_lt_Some _ _ _ Hp) as Hlt.
    destruct (decide (S p = length (procs st))) as [|Hne]; [done|].
    rewrite (Hod p pr Hp) in Hal by lia. done. }
  split; [done|]. split.
  - intros p q pr qr Hp Hq Hap Haq.
    pose proof (Hnew _ _ Hp Hap). pose proof (Hnew _ _ Hq Haq). lia.
  - intros Hmain p pr Hp Hal. destruct (idle_view _ Hinv Hmain) as (p0 & Hp0 & _).
    pose proof (inv_proc _ Hinv _ Hp0). pose proof (Hnew _ _ Hp Hal).
    rewrite Hp0. f_equal. lia.
Qed.

(** X2: at most one forwarder thread runs at any moment.  In every reachable
    state [self._response_forwarder] is the thread started last, every
    thread that has not ended is that thread, so no two forwarders run
    together; and whenever the main thread is between two messages there
    are as many threads as workers: each restart starts one of each. *)
Theorem at_most_one_forwarder_runs cwd st :
  reachable cwd st ->
  S (_response_forwarder st) = length (threads st)
  /\ (forall t pc, threads st !! t = Some pc -> terminated pc = false ->
                   t = _response_forwarder st)
  /\ (forall t u pc pc',
        threads st !! t = Some pc -> threads st !! u = Some pc' ->
        terminated pc = false -> terminated pc' = false -> t = u)
  /\ (main st = [] -> length (threads st) = length (procs st)).
Proof.
  intros Hreach. pose proof (inv_reachable _ _ Hreach) as Hinv.
  destruct (paired_reachable _ _ Hreach) as [Hf Hn].
  split; [done|]. split; [|split].
  - intros t pc. by apply running_is_forwarder.
  - intros t u pc pc' Ht Hu Hrt Hru.
    rewrite (running_is_forwarder _ _ _ Hinv Ht Hrt).
    by rewrite (running_is_forwarder _ _ _ Hinv Hu Hru).
  - intros Hmain. by rewrite Hmain in Hn.
Qed.

(** X3: a forwarder thread reads and relays the lines of one worker only,
    the worker started just before it (thread [t] serves worker [t]), though
    it loads [self._proc] anew for every line: in every reachable state the
    stream or line a thread has in hand, every line read and every line
    written to the controller belongs to the worker with the number of the
    thread. *)
Theorem forwarder_relays_its_own_worker cwd st :
  reachable cwd st ->
  (forall t pc p, threads st !! t = Some pc -> holds pc = Some p -> p = t)
  /\ (forall w e p, (w, e) ∈ trace st -> line_of e = Some p -> w = TRelay p)
  /\ (forall w p l, (w, OWrite (Relayed p l)) ∈ controller_stream (trace st) ->
                    w = TRelay p).
Proof.
  intros Hreach. pose proof (inv_reachable _ _ Hreach) as Hinv.
  pose proof (paired_reachable _ _ Hreach) as Hp.
  pose proof (own_lines_reachable _ _ Hreach) as Hown.
  split; [|split].
  - intros t pc p. by apply relay_reads_own.
  - exact Hown.
  - intros w p l Hin%stream_elem_of. by eapply Hown.
Qed.


(** X5: what the main thread does for a message does not depend on the
    interleaving.  Two runs that handle the same message from the same
    state, whatever the forwarders and the workers do meanwhile, give the
    same events of the main thread and leave the same working directory,
    handle, forwarder and numbers of workers and threads: those of the
    statements of the handler run in order. *)
Theorem main_thread_is_schedule_independent m st st1 st2 :
  handles m st st1 -> handles m st st2 ->
  main_events (trace st1) = main_events (trace st2)
  /\ view st1 = view st2
  /\ main_events (trace st1)
     = main_events (trace st) ++ EReceive m :: (mrun (dispatch m) (view st)).1.1
  /\ view st1 = (mrun (dispatch m) (view st)).1.2.
Proof.
  intros H1 H2.
  destruct (handles_events _ _ _ H1) as (_ & Hev1 & Hv1).
  destruct (handles_events _ _ _ H2) as (_ & Hev2 & Hv2).
  repeat split; congruence.
Qed.

(** X6: a command whose name does not start with an upper-case letter never
    touches the worker: when it is handled the working directory (also when
    the command carries [expected_cwd]), the handle, the forwarder and the
    numbers of workers and threads are what they were, and the main thread
    has done nothing but call the handler and answer, or forward the
    command. *)
Theorem command_without_capital_keeps_the_worker cwd st cmd c rest :
  reachable cwd st -> main st = [] ->
  name cmd = String c rest -> Py.isupper c = false ->
  (exists st', handles (CommandToBackend cmd) st st')
  /\ (forall st', handles (CommandToBackend cmd) st st' ->
      view st' = view st
      /\ exists p,
          _proc st = Some p
          /\ main_events (trace st')
             = main_events (trace st)
               ++ EReceive (CommandToBackend cmd) :: routed_events cmd p
          /\ Forall (fun e => is_restart_event e = false) (routed_events cmd p)).
Proof.
  intros Hreach Hmain Hname Hup. pose proof (inv_reachable _ _ Hreach) as Hinv.
  split; [by apply handles_exists|]. intros st' Hh.
  destruct (handles_events _ _ _ Hh) as (_ & Hev & Hv).
  destruct (idle_view _ Hinv Hmain) as (p & Hp & _).
  simpl in Hev, Hv. rewrite (handle_normal_plain _ _ _ Hname Hup) in Hev, Hv.
  rewrite (mrun_routed cmd (view st) p Hp) in Hev, Hv.
  split; [done|]. exists p. auto using routed_events_no_restart.
Qed.

(** X7: a command that has a local handler is answered by the mediator and
    never reaches a worker.  When the handler returns [r], the main thread
    calls it once, after the restart if the name asks for one, and writes
    one message to the controller, the prepared response for [r]; it writes
    nothing to the standard input of any worker, and is ready for the next
    message. *)
Theorem local_handler_answers_alone cwd st cmd c rest handler r :
  reachable cwd st -> main st = [] ->
  name cmd = String c rest ->
  getattr_self ("_cmd_" +:+ name cmd) = Some handler ->
  handler cmd = Returns r ->
  (exists st', handles (CommandToBackend cmd) st st')
  /\ (forall st', handles (CommandToBackend cmd) st st' ->
      exists p,
        _proc st = Some p
        /\ main_events (trace st')
           = main_events (trace st)
             ++ EReceive (CommandToBackend cmd)
             :: restart_part cmd st p
             ++ EInvoke ("_cmd_" +:+ name cmd) cmd
             :: send_events (_prepare_command_response r cmd)
        /\ Forall (fun e => is_stdin_event e = false)
                  (restart_part cmd st p
                   ++ EInvoke ("_cmd_" +:+ name cmd) cmd
                   :: send_events (_prepare_command_response r cmd))
        /\ main st' = []).
Proof.
  intros Hreach Hmain Hname Hget Hret. pose proof (inv_reachable _ _ Hreach) as Hinv.
  split; [by apply handles_exists|]. intros st' Hh.
  destruct (normal_command_events _ _ _ _ _ Hinv Hname Hh) as (p & Hp & Hev & _).
  unfold routed_events, local_events in Hev. rewrite Hget, Hret in Hev.
  destruct Hh as (ls & _ & _ & Hdone).
  exists p. repeat split; auto.
  apply Forall_app. split; [apply restart_part_no_stdin|by repeat constructor].
Qed.

(** X8: [send_message] never waits long for the response lock.  When the
    main thread is about to take the lock, the lock is free or held by the
    current forwarder, which is inside its [with] block and does not block
    there: after at most four statements of that thread the lock is free
    and the main thread takes it. *)
Theorem send_message_waits_at_most_four_statements cwd st k :
  reachable cwd st -> main st = IAcquireResp :: k ->
  _response_lock st <> Some TMain
  /\ (forall t, _response_lock st = Some (TRelay t) ->
                t = _response_forwarder st /\ in_block st (TRelay t) = true)
  /\ exists n st',
       n <= 4
       /\ run (replicate n (LRelay (_response_forwarder st))) st = Some st'
       /\ main st' = IAcquireResp :: k
       /\ _response_lock st' = None
       /\ is_Some (step LMain st').
Proof.
  intros Hreach Hmain. pose proof (inv_reachable _ _ Hreach) as Hinv.
  assert (Hnot : _response_lock st <> Some TMain).
  { destruct Hinv as [[m (Hwf & _ & Hlk & _)] _ _]. rewrite Hmain in Hwf.
    at_mode m Hwf. intros Hl. by apply Hlk in Hl. }
  assert (Hholder : forall t, _response_lock st = Some (TRelay t) ->
            exists pc, threads st !! t = Some pc /\ critical pc = true
                       /\ t = _response_forwarder st).
  { intros t Hl.
    destruct (inv_lock _ _ _ _ (inv_threads _ Hinv) _ Hl) as (pc & Hpc & Hcr).
    exists pc. repeat split; auto.
    apply (running_is_forwarder _ _ _ Hinv Hpc). by destruct pc. }
  split; [done|]. split.
  - intros t Hl. destruct (Hholder _ Hl) as (pc & Hpc & Hcr & ->).
    split; [done|]. simpl. by rewrite Hpc.
  - assert (Hgo : forall st', main st' = IAcquireResp :: k -> _response_lock st' = None ->
                              is_Some (step LMain st')).
    { intros st' Hm Hl. simpl. unfold step_main. rewrite Hm. simpl. rewrite Hl. by eexists. }
    destruct (_response_lock st) as [[|t]|] eqn:Hl; [done| |].
    + destruct (Hholder _ eq_refl) as (pc & Hpc & Hcr & ->).
      assert (Hinv' : inv st) by done.
      destruct (lock_released_within 4 st _ pc Hinv' Hl Hpc Hcr)
        as (n & st' & Hn & Hrun & Hmain' & Hnone).
      { destruct pc; simpl in *; try done; lia. }
      exists n, st'. repeat split; auto; [congruence|apply Hgo; congruence].
    + exists 0, st. simpl. repeat split; auto; lia.
Qed.

(** X9: the main thread is never stuck for good.  From every reachable
    state, also in the middle of a restart or of [send_message], some
    interleaving without a further message brings the main thread to the end
    of the command at hand, where it takes the next message: neither a lock
    nor [join] blocks it for ever. *)
Theorem main_loop_always_returns cwd st :
  reachable cwd st ->
  exists ls st',
    no_command ls /\ run ls st = Some st' /\ main st' = []
    /\ _interrupt_lock st' = None /\ _response_lock st' <> Some TMain
    /\ forall m, is_Some (step (LCommand m) st').
Proof.
  intros Hreach. pose proof (inv_reachable _ _ Hreach) as Hinv.
  destruct (command_completes _ Hinv) as (ls & st' & Hnc & Hrun & Hdone).
  exists ls, st'. repeat split; auto.
  - destruct (inv_run _ _ _ Hinv Hrun) as [[m (Hwf & _ & _ & Hil)] _ _].
    rewrite Hdone in Hwf. by at_mode m Hwf.
  - destruct (inv_run _ _ _ Hinv Hrun) as [[m (Hwf & _ & Hlk & _)] _ _].
    rewrite Hdone in Hwf. at_mode m Hwf. intros Hl. by apply Hlk in Hl.
  - intros m. simpl. rewrite Hdone. by eexists.
Qed.

(** X10: what a forwarded message puts on the worker's standard input.  The
    strings the main thread writes for the message, put together, are the
    serialized text followed by one newline, all of them to the worker that
    is current when the command is done; there is one flush for each line of
    the text, so none for an empty text; nothing is written to any other
    worker; and the last thing written is the newline, which is not
    flushed. *)
Theorem forwarded_text_reaches_one_worker cwd st m :
  reachable cwd st -> main st = [] -> forwarded m ->
  forall st', handles m st st' ->
    exists p new,
      _proc st' = Some p
      /\ main_events (trace st') = main_events (trace st) ++ EReceive m :: new
      /\ stdin_text p new = serialize_message m 1024 +:+ String "010" ""
      /\ stdin_flushes p new = length (Py.splitlines_keepends (serialize_message m 1024))
      /\ (serialize_message m 1024 = "" -> stdin_flushes p new = 0)
      /\ (forall q, q <> p -> stdin_text q new = "" /\ stdin_flushes q new = 0)
      /\ last new = Some (EStdin p (SWrite (String "010" ""))).
Proof.
  intros Hreach Hmain Hfw st' Hh. pose proof (inv_reachable _ _ Hreach) as Hinv.
  destruct (forwarded_events _ _ _ Hinv Hfw Hh) as (p0 & Hp0 & Hev & Hp').
  set (p := forward_target m st p0) in *.
  assert (Hbefore : Forall (fun e => is_stdin_event e = false) (before_forward m st p0)).
  { destruct m; simpl; try constructor. apply restart_part_no_stdin. }
  exists p, (before_forward m st p0 ++ forward_events p m).
  assert (Hcount : stdin_flushes p (before_forward m st p0 ++ forward_events p m)
                   = length (Py.splitlines_keepends (serialize_message m 1024))).
  { rewrite stdin_flushes_app. destruct (stdin_none p _ Hbefore) as [_ ->].
    destruct (stdin_forward p p m) as [_ ->]. by rewrite decide_True. }
  split; [done|]. split; [done|]. split; [|split; [done|split; [|split]]].
  - rewrite stdin_text_app. destruct (stdin_none p _ Hbefore) as [-> _].
    destruct (stdin_forward p p m) as [-> _]. by rewrite decide_True, append_nil_l.
  - intros Hempty. rewrite Hcount, Hempty. done.
  - intros q Hq. rewrite stdin_text_app, stdin_flushes_app.
    destruct (stdin_none q _ Hbefore) as [-> ->].
    destruct (stdin_forward p q m) as [-> ->]. by rewrite !decide_False.
  - unfold forward_events. rewrite app_assoc. apply last_snoc.
Qed.

(** X11: a forwarder writes to the controller only lines it has read, in
    the order it read them, each at most once, and never an empty line: in
    every reachable state the lines a thread has written are a subsequence of
    the lines it has read, and none of them is empty. *)
Theorem relayed_lines_are_lines_read cwd st t :
  reachable cwd st ->
  sublist (lines_written (thread_events t (trace st)))
          (lines_read (thread_events t (trace st)))
  /\ Forall (fun l => l <> "") (lines_written (thread_events t (trace st))).
Proof.
  intros Hreach. destruct (rinv_reachable _ _ Hreach) as [Hr Hnone].
  destruct (threads st !! t) as [pc|] eqn:Hpc.
  - destruct (Hr _ _ Hpc) as (a & Ha & _).
    eapply lines_rel_sub, protocol_lines, Ha.
  - rewrite (Hnone _ Hpc). split; constructor.
Qed.

(** X12: where the upload puts a file.  Each of the nine files goes to the
    deployment directory followed by the part of its local path after the
    local context, with every backslash turned into a slash: the remote path
    starts with the deployment directory, what follows holds no backslash,
    and for a local path without backslashes it is that part of the path
    unchanged. *)
Theorem uploaded_paths_are_posix_and_inside L :
  map fst (upload_batch L) = local_paths L
  /\ Forall (fun lr =>
               exists suffix,
                 lr.2 = _get_remote_program_directory +:+ suffix
                 /\ Py.startswith lr.2 _get_remote_program_directory = true
                 /\ has_backslash suffix = false
                 /\ (has_backslash lr.1 = false -> suffix = local_suffix_of L lr.1))
            (upload_batch L).
Proof.
  split.
  - done.
  - unfold upload_batch. apply Forall_map, Forall_forall. intros lp _. simpl.
    exists (Py.replace (local_suffix_of L lp) (String "092" "") "/").
    split; [done|]. split; [apply prefix_append|]. split.
    + apply replace_no_backslash.
    + intros Hlp. apply replace_posix. by apply drop_no_backslash.
Qed.


(** X14: once its worker has ended, a forwarder completes at most one more
    [readline].  The loop tests [poll()] before every [readline]; so from a
    reachable state in which worker [t] has ended, in every continuation,
    thread [t] reads one more line at most, and none when it has not yet
    passed the test: what the worker printed before it ended and the
    forwarder had not read is not relayed, but for that one line. *)
Theorem forwarder_reads_once_more_at_most cwd st t ls st' :
  reachable cwd st -> ended t st -> run ls st = Some st' ->
  reads_done t st <= reads_done t st' <= S (reads_done t st)
  /\ (reads_left (threads st !! t) = 0 -> reads_done t st' = reads_done t st)
  /\ ended t st'.
Proof.
  intros Hreach He Hrun. pose proof (inv_reachable _ _ Hreach) as Hinv.
  pose proof (paired_reachable _ _ Hreach) as Hp.
  pose proof (reads_run _ _ _ _ Hinv Hp He Hrun) as Hle.
  pose proof (reads_done_grows _ t _ _ Hrun) as Hge.
  assert (Hone : reads_left (threads st !! t) <= 1).
  { destruct (threads st !! t) as [[]|]; simpl; lia. }
  split; [lia|]. split; [lia|].
  clear Hle Hge. revert st He Hrun Hreach Hinv Hp Hone.
  induction ls as [|l ls IH]; simpl; intros st He.
  - by intros [= <-].
  - destruct (step l st) as [st1|] eqn:Hstep; [|done]. intros Hrun Hreach Hinv Hp _.
    apply (IH st1); eauto using ended_step, inv_step, paired_step.
    + apply (run_reachable _ _ [l] _ Hreach). simpl. by rewrite Hstep.
    + destruct (threads st1 !! t) as [[]|]; simpl; lia.
Qed.

(** X16: the main thread acts on the newest worker only.  In every reachable
    state there are as many workers as the main thread has started, they are
    numbered in the order they were started, and every [kill] and every
    write or flush of a standard input in the trace went to the worker
    started last before it: no command, input or interrupt is ever sent to
    a worker that has been replaced. *)
Theorem input_goes_to_the_newest_worker cwd st :
  reachable cwd st ->
  spawned (trace st) = length (procs st)
  /\ numbered (trace st)
  /\ targets_newest (trace st)
  /\ (forall i k, main st = i :: k -> uses_handle i = true ->
        exists p, _proc st = Some p /\ S p = length (procs st)).
Proof.
  intros Hreach. pose proof (inv_reachable _ _ Hreach) as Hinv.
  destruct Hreach as [ls Hrun].
  destruct (targets_run ls _ _ (inv_initial cwd) Hrun (targets_initial cwd))
    as (Hn & Ht & Hnum).
  split; [done|]. split; [done|]. split; [done|].
  intros i k Hmain Hi. pose proof (inv_proc _ Hinv) as Hproc.
  destruct Hinv as [[m (Hwf & Hph & _)] _ _].
  rewrite Hmain in Hwf.
  assert (Hsome : is_Some (_proc st))
    by (destruct i; try done; at_mode m Hwf; simpl in Hph; tauto).
  destruct Hsome as [p Hp]. exists p. auto.
Qed.

(** X17: no lock is leaked.  In every reachable state the response lock is
    held by a thread exactly while that thread is inside its
    [with self._response_lock] block; the interrupt lock is never held by a
    forwarder; when the main thread is between two messages, also after a
    command that raised, it holds neither lock; and it holds neither lock
    at any statement of a restart, which is thus not covered by the
    interrupt lock. *)
Theorem no_lock_is_leaked cwd st :
  reachable cwd st ->
  (forall who, _response_lock st = Some who <-> in_block st who = true)
  /\ (forall t, _interrupt_lock st <> Some (TRelay t))
  /\ (main st = [] -> _interrupt_lock st = None /\ _response_lock st <> Some TMain)
  /\ (forall i k, main st = i :: k -> restart_statement i = true ->
        _interrupt_lock st = None /\ _response_lock st <> Some TMain).
Proof.
  intros Hreach. pose proof (inv_reachable _ _ Hreach) as Hinv.
  pose proof Hinv as [[m (Hwf & Hph & Hlk & Hil)] _ Ht].
  split; [|split; [|split]].
  - intros who. split; [|by apply in_block_lock].
    destruct who as [|t]; simpl.
    + intros Hl%Hlk. destruct m; try done.
      * apply wf_locked in Hwf as (? & ? & ->). done.
      * apply wf_written in Hwf as (? & ->). done.
      * apply wf_flushed in Hwf as (? & ->). done.
    + intros Hl. destruct (inv_lock _ _ _ _ Ht _ Hl) as (pc & -> & Hcr). done.
  - intros t. rewrite Hil. by destruct m.
  - intros Hmain. rewrite Hmain in Hwf. at_mode m Hwf. split; [done|].
    intros Hl. by apply Hlk in Hl.
  - intros i k Hmain Hi. rewrite Hmain in Hwf.
    destruct i; try done; at_mode m Hwf; (split; [done|]);
      intros Hl; by apply Hlk in Hl.
Qed.

(** X18: the worker is replaced by the commands whose name starts with an
    upper-case letter, and by nothing else.  Handling any other message, an
    end of input, an input line, an interrupt request, a command with
    another first character or without a name, leaves the working
    directory, the handle, the forwarder and the numbers of workers and
    threads as they were; handling such a command makes the next worker and
    the next thread the current ones. *)
Theorem worker_is_replaced_by_capital_commands_only cwd st m st' :
  reachable cwd st -> main st = [] -> handles m st st' ->
  (replaces_worker m = false -> view st' = view st)
  /\ (replaces_worker m = true ->
      exists p,
        _proc st = Some p /\ _proc st' = Some (S p)
        /\ length (procs st') = S (length (procs st))
        /\ length (threads st') = S (length (threads st))
        /\ _response_forwarder st' = S (_response_forwarder st)).
Proof.
  intros Hreach Hmain Hh. pose proof (inv_reachable _ _ Hreach) as Hinv.
  destruct (paired_reachable _ _ Hreach) as [Hlast _].
  destruct (handles_events _ _ _ Hh) as (_ & _ & Hv).
  destruct (idle_view _ Hinv Hmain) as (p & Hp & Hf).
  pose proof (inv_proc _ Hinv _ Hp) as Hlen.
  assert (Hvp : v_proc (view st) = Some p) by done.
  destruct m as [|d|cmd|cmd]; simpl in Hv |- *.
  - split; [|done]. intros _. unfold _handle_eof_command in Hv.
    by rewrite (mrun_forward _ _ p Hvp) in Hv.
  - split; [|done]. intros _. unfold _handle_user_input in Hv.
    by rewrite (mrun_forward _ _ p Hvp) in Hv.
  - destruct (name cmd) as [|c rest] eqn:Hname.
    + assert (Hprog : _handle_normal_command cmd = [IRaise IndexError])
        by (unfold _handle_normal_command; by rewrite Hname).
      rewrite Hprog in Hv. unfold restarting. rewrite Hname. by split.
    + rewrite (normal_command_view _ _ _ _ _ Hname Hp Hf) in Hv.
      destruct (restarting cmd); split; try done.
      intros _. exists p. unfold view in Hv. injection Hv as _ -> -> -> ->.
      repeat split; auto; try (f_equal; lia).
  - split; [|done]. intros _. by rewrite Hp in Hv.
Qed.

(** X19: a line the worker prints does reach the controller.  When the main
    thread is between two messages and the current worker is alive with a
    line at the head of its output, the line is not empty and the forwarder
    of that worker, left to run, is never blocked: within ten of its
    statements it has read that line, and within four more it has dropped
    it, if the flag is set and the line looks like an echo, or else has
    written it to the controller and flushed it. *)
Theorem printed_line_is_relayed cwd st p pr l rest :
  reachable cwd st -> main st = [] -> _proc st = Some p ->
  procs st !! p = Some pr -> alive pr = true -> stdout_buf pr = l :: rest ->
  l <> ""
  /\ exists n st',
       n <= 10
       /\ run (replicate n (LRelay p)) st = Some st'
       /\ threads st' !! p = Some (RFilter p l)
       /\ last (trace st') = Some (TRelay p, ERead p l)
       /\ procs st' !! p = Some (RProc true rest)
       /\ exists k st'',
            k <= 4
            /\ run (replicate k (LRelay p)) st' = Some st''
            /\ if _main_backend_is_fresh st' && _looks_like_echo l
               then last (trace st'') = Some (TRelay p, EDiscard l)
                    /\ controller_stream (trace st'') = controller_stream (trace st')
               else controller_stream (trace st'')
                    = controller_stream (trace st')
                      ++ [(TRelay p, OWrite (Relayed p l)); (TRelay p, OFlush)].
Proof.
  intros Hreach Hmain Hproc Hpr Hal Hbuf.
  pose proof (inv_reachable _ _ Hreach) as Hinv.
  pose proof (paired_reachable _ _ Hreach) as Hp.
  pose proof (winv_reachable _ _ Hreach) as Hw.
  pose proof (linv_reachable _ _ Hreach) as Hl.
  assert (Hne : l <> "").
  { destruct Hl as [Hne _]. specialize (Hne _ _ Hpr). rewrite Hbuf in Hne.
    by apply Forall_cons in Hne as [? _]. }
  split; [done|].
  assert (Hex : exists pc, threads st !! p = Some pc).
  { apply lookup_lt_is_Some_2. destruct Hp as [_ Hn]. rewrite Hmain in Hn.
    rewrite <- Hn. by eapply lookup_lt_Some. }
  destruct Hex as [pc Hpc].
  destruct (relay_reads_next 9 st p pr l rest pc)
    as (n & st' & Hn & Hrun & Hinv' & Hmain' & Hpc' & Hlast & Hpr'); auto.
  { destruct pc; simpl; lia. }
  exists n, st'. repeat split; auto.
  apply relay_settles; auto.
Qed.

End SshCPythonBackend.

(** ** The class at work

    The class on the installation of [Demo]. *)

Notation "'ex_initial'" :=
  (initial Demo.interpreter Demo.user Demo.release Demo.cwd)
  (only parsing).
Notation "'ex_run'" :=
  (run Demo.interpreter Demo.user Demo.release Demo.serialize
       Demo.getattr Demo.prepare)
  (only parsing).
Notation "'ex_after'" :=
  (after Demo.interpreter Demo.user Demo.release Demo.serialize
         Demo.getattr Demo.prepare)
  (only parsing).
Notation "'ex_reachable'" :=
  (reachable Demo.interpreter Demo.user Demo.release Demo.serialize
             Demo.getattr Demo.prepare Demo.cwd)
  (only parsing).
Notation "'ex_handles'" :=
  (handles Demo.interpreter Demo.user Demo.release Demo.serialize
           Demo.getattr Demo.prepare)
  (only parsing).

Lemma ex_reachable_after ls st :
  ex_run ls ex_initial = Some st -> ex_reachable (ex_after ls ex_initial).
Proof. intros Hrun. exists ls. unfold after. by rewrite Hrun. Qed.

Lemma ex_handles_after m ls st :
  Forall (fun l => is_command l = false) ls ->
  ex_run (LCommand m :: ls) ex_initial = Some st ->
  main st = [] ->
  ex_handles m ex_initial (ex_after (LCommand m :: ls) ex_initial).
Proof.
  intros Hnc Hrun Hdone. exists ls. unfold after. rewrite Hrun. done.
Qed.

Example isupper_E : Py.isupper "E" = true.
Proof. reflexivity. Qed.

Example isupper_r : Py.isupper "r" = false.
Proof. reflexivity. Qed.

Example isupper_underscore : Py.isupper "_" = false.
Proof. reflexivity. Qed.

Example endswith_dev : Py.endswith "4.1.0-dev" "-dev" = true.
Proof. reflexivity. Qed.

Example endswith_release : Py.endswith "4.1.0" "-dev" = false.
Proof. reflexivity. Qed.

Example splitlines_three :
  Py.splitlines_keepends
    (String "a" (String "010" (String "b" (String "013" (String "010" "c")))))
  = [String "a" (String "010" ""); String "b" (String "013" (String "010" "")); "c"].
Proof. reflexivity. Qed.

Example init_worker_reaches_initial :
  ex_run [LMain; LMain; LMain; LMain]
    (boot Demo.cwd) = Some ex_initial.
Proof. reflexivity. Qed.

(** The forwarder holds the lock while it is about to write, and the stream
    is made of whole messages. *)
Lemma response_lock_serializes_writes_witness :
  ex_reachable (ex_after Demo.about_to_write ex_initial)
  /\ in_block (ex_after Demo.about_to_write ex_initial) (TRelay 0) = true
  /\ _response_lock (ex_after Demo.about_to_write ex_initial) = Some (TRelay 0)
  /\ atomic (controller_stream (trace (ex_after Demo.about_to_write ex_initial))) = true.
Proof.
  assert (Hr : ex_reachable (ex_after Demo.about_to_write ex_initial))
    by (eapply ex_reachable_after; vm_compute; reflexivity).
  destruct (response_lock_serializes_writes
              Demo.interpreter Demo.user Demo.release Demo.serialize
              Demo.getattr Demo.prepare Demo.cwd _ Hr)
    as (Hblock & _ & _ & Hatomic).
  split; [exact Hr|]. split; [reflexivity|].
  split; [apply Hblock; reflexivity|exact Hatomic].
Defined.

(** The main thread waits in [join]: the handle is cleared, the worker is
    dead. *)
Lemma restart_joins_before_replacing_witness :
  ex_reachable (ex_after Demo.discard_while_reading ex_initial)
  /\ _proc (ex_after Demo.discard_while_reading ex_initial) = None
  /\ newest_dead (procs (ex_after Demo.discard_while_reading ex_initial)).
Proof.
  assert (Hr : ex_reachable (ex_after Demo.discard_while_reading ex_initial))
    by (eapply ex_reachable_after; vm_compute; reflexivity).
  destruct (restart_joins_before_replacing
              Demo.interpreter Demo.user Demo.release Demo.serialize
              Demo.getattr Demo.prepare Demo.cwd _ Hr)
    as (Hjoin & _ & _).
  edestruct Hjoin as (Hnone & Hdead & _); [vm_compute; reflexivity|].
  split; [exact Hr|]. split; [exact Hnone|exact Hdead].
Defined.

(** C1 as it is written fails: the main thread has received [Execute], killed
    worker 0 and cleared [self._proc]; the forwarder is still inside
    [readline] on the stream of worker 0; it then reads the line the worker
    printed before it was killed and writes it to the controller, all while
    the handle is gone and before [join] returns. *)
Lemma relay_outlives_discarded_handle :
  ex_reachable (ex_after Demo.discard_while_reading ex_initial)
  /\ _proc (ex_after Demo.discard_while_reading ex_initial) = None
  /\ threads (ex_after Demo.discard_while_reading ex_initial) !! 0 = Some (RReadline 0)
  /\ controller_stream (trace (ex_after Demo.discard_while_reading ex_initial)) = []
  /\ ex_run Demo.relay_goes_on (ex_after Demo.discard_while_reading ex_initial)
     = Some (ex_after (Demo.discard_while_reading ++ Demo.relay_goes_on) ex_initial)
  /\ _proc (ex_after (Demo.discard_while_reading ++ Demo.relay_goes_on) ex_initial)
     = None
  /\ controller_stream
       (trace (ex_after (Demo.discard_while_reading ++ Demo.relay_goes_on) ex_initial))
     = [(TRelay 0, OWrite (Relayed 0 Demo.result_line)); (TRelay 0, OFlush)]
  /\ ~ relay_stopped_when_handle_discarded
         Demo.interpreter Demo.user Demo.release Demo.serialize
         Demo.getattr Demo.prepare Demo.cwd.
Proof.
  assert (Hr : ex_reachable (ex_after Demo.discard_while_reading ex_initial))
    by (eapply ex_reachable_after; vm_compute; reflexivity).
  split; [exact Hr|].
  do 6 (split; [vm_compute; reflexivity|]).
  intros Hclaim.
  specialize (Hclaim _ Hr eq_refl 0 (RReadline 0) eq_refl). discriminate.
Qed.

(** The forwarder reads an echo, a result and a line that looks like an echo:
    it drops the first and writes the two others. *)
Lemma echo_suppression_witness :
  ex_reachable (ex_after Demo.three_lines ex_initial)
  /\ threads (ex_after Demo.three_lines ex_initial) !! 0 = Some RLoop
  /\ lines_read (thread_events 0 (trace (ex_after Demo.three_lines ex_initial)))
     = [Demo.echo_line; Demo.result_line; Demo.late_line]
  /\ lines_written (thread_events 0 (trace (ex_after Demo.three_lines ex_initial)))
     = [Demo.result_line; Demo.late_line]
  /\ relay_lines true
       (lines_read (thread_events 0 (trace (ex_after Demo.three_lines ex_initial))))
     = (lines_written (thread_events 0 (trace (ex_after Demo.three_lines ex_initial))),
        Some (_main_backend_is_fresh (ex_after Demo.three_lines ex_initial))).
Proof.
  assert (Hr : ex_reachable (ex_after Demo.three_lines ex_initial))
    by (eapply ex_reachable_after; vm_compute; reflexivity).
  assert (Hpc : threads (ex_after Demo.three_lines ex_initial) !! 0 = Some RLoop)
    by (vm_compute; reflexivity).
  destruct (echo_suppression
              Demo.interpreter Demo.user Demo.release Demo.serialize
              Demo.getattr Demo.prepare Demo.cwd _ 0 RLoop Hr Hpc)
    as (_ & Hlines & _).
  split; [exact Hr|]. split; [exact Hpc|].
  split; [vm_compute; reflexivity|]. split; [vm_compute; reflexivity|].
  apply Hlines. reflexivity.
Defined.

(** [Execute] with [expected_cwd] set to ["/proj"]: one restart, in the new
    directory, then the command goes to the new worker. *)
Lemma uppercase_command_restarts_once_witness :
  ex_handles (CommandToBackend Demo.Execute) ex_initial
    (ex_after (LCommand (CommandToBackend Demo.Execute) :: Demo.execute_schedule)
       ex_initial)
  /\ _cwd (ex_after (LCommand (CommandToBackend Demo.Execute) :: Demo.execute_schedule)
             ex_initial) = "/proj"
  /\ _proc (ex_after (LCommand (CommandToBackend Demo.Execute) :: Demo.execute_schedule)
              ex_initial) = Some 1.
Proof.
  assert (Hh : ex_handles (CommandToBackend Demo.Execute) ex_initial
                 (ex_after (LCommand (CommandToBackend Demo.Execute)
                            :: Demo.execute_schedule) ex_initial)).
  { eapply ex_handles_after; [by repeat constructor|vm_compute; reflexivity|reflexivity]. }
  destruct (uppercase_command_restarts_once
              Demo.interpreter Demo.user Demo.release Demo.serialize
              Demo.getattr Demo.prepare Demo.cwd ex_initial Demo.Execute
              "E" "xecute")
    as (_ & Hall & _); [by exists []|reflexivity|reflexivity|reflexivity|].
  destruct (Hall _ Hh) as (p & _ & _ & _ & _ & Hcwd & Hproc).
  split; [exact Hh|]. split; [exact Hcwd|exact Hproc].
Defined.

(** [stat_path] fails with an [OSError]: the controller gets the message of
    the error and the main loop goes on. *)
Lemma handler_exception_becomes_error_response_witness :
  ex_handles (CommandToBackend Demo.stat_path) ex_initial
    (ex_after (LCommand (CommandToBackend Demo.stat_path) :: Demo.local_schedule)
       ex_initial)
  /\ controller_stream
       (trace (ex_after (LCommand (CommandToBackend Demo.stat_path)
                         :: Demo.local_schedule) ex_initial))
     = [(TMain, OWrite (Direct (Demo.prepare {[ "error" := "No such file" ]}
                                                Demo.stat_path)));
        (TMain, OFlush)]
  /\ main (ex_after (LCommand (CommandToBackend Demo.stat_path)
                     :: Demo.local_schedule) ex_initial) = [].
Proof.
  assert (Hh : ex_handles (CommandToBackend Demo.stat_path) ex_initial
                 (ex_after (LCommand (CommandToBackend Demo.stat_path)
                            :: Demo.local_schedule) ex_initial)).
  { eapply ex_handles_after; [by repeat constructor|vm_compute; reflexivity|reflexivity]. }
  destruct (handler_exception_becomes_error_response
              Demo.interpreter Demo.user Demo.release Demo.serialize
              Demo.getattr Demo.prepare Demo.cwd ex_initial Demo.stat_path
              "s" "tat_path" (fun _ => Raises (ExceptionOf "OSError" "No such file"))
              (ExceptionOf "OSError" "No such file"))
    as (_ & Hall);
    [by exists []|reflexivity|reflexivity|reflexivity|reflexivity|reflexivity|].
  destruct (Hall _ Hh) as (p & _ & _ & Hdone & _).
  split; [exact Hh|]. split; [vm_compute; reflexivity|exact Hdone].
Defined.

(** C5 as it is written fails: the handler of [read_file] is interrupted, the
    [KeyboardInterrupt] is not an instance of [Exception], so it leaves
    [_handle_normal_command] and nothing is written to the controller. *)
Lemma interrupted_handler_is_not_answered :
  ex_handles (CommandToBackend Demo.read_file) ex_initial
    (ex_after (LCommand (CommandToBackend Demo.read_file)
               :: Demo.interrupted_schedule) ex_initial)
  /\ main_events
       (trace (ex_after (LCommand (CommandToBackend Demo.read_file)
                         :: Demo.interrupted_schedule) ex_initial))
     = main_events (trace ex_initial)
       ++ [EReceive (CommandToBackend Demo.read_file);
           EInvoke "_cmd_read_file" Demo.read_file;
           ERaise KeyboardInterrupt]
  /\ controller_stream
       (trace (ex_after (LCommand (CommandToBackend Demo.read_file)
                         :: Demo.interrupted_schedule) ex_initial)) = []
  /\ ~ handler_failure_always_answered
         Demo.interpreter Demo.user Demo.release Demo.serialize
         Demo.getattr Demo.prepare Demo.cwd.
Proof.
  assert (Hh : ex_handles (CommandToBackend Demo.read_file) ex_initial
                 (ex_after (LCommand (CommandToBackend Demo.read_file)
                            :: Demo.interrupted_schedule) ex_initial)).
  { eapply ex_handles_after; [by repeat constructor|vm_compute; reflexivity|reflexivity]. }
  split; [exact Hh|]. split; [vm_compute; reflexivity|]. split; [vm_compute; reflexivity|].
  intros Hclaim.
  specialize (Hclaim ex_initial
                (ex_after (LCommand (CommandToBackend Demo.read_file)
                           :: Demo.interrupted_schedule) ex_initial)
                Demo.read_file (fun _ => Raises KeyboardInterrupt) KeyboardInterrupt).
  assert (Hin : (TMain, OWrite (Direct (Demo.prepare {[ "error" := str KeyboardInterrupt ]}
                                                        Demo.read_file)))
                ∈ controller_stream
                    (trace (ex_after (LCommand (CommandToBackend Demo.read_file)
                                      :: Demo.interrupted_schedule) ex_initial))).
  { apply Hclaim; try reflexivity; [by exists []|done|exact Hh]. }
  vm_compute in Hin. by apply elem_of_nil in Hin.
Qed.

(** [run_id_123] has no local handler: it is forwarded in two lines and
    nothing else happens. *)
Lemma forwarded_command_is_framed_witness :
  ex_handles (CommandToBackend Demo.run_id_123) ex_initial
    (ex_after (LCommand (CommandToBackend Demo.run_id_123) :: [LMain; LMain; LMain])
       ex_initial)
  /\ main_events
       (trace (ex_after (LCommand (CommandToBackend Demo.run_id_123)
                         :: [LMain; LMain; LMain]) ex_initial))
     = main_events (trace ex_initial)
       ++ [EReceive (CommandToBackend Demo.run_id_123);
           EStdin 0 (SWrite ("command run_id_123" +:+ Demo.newline));
           EStdin 0 SFlush;
           EStdin 0 (SWrite Demo.newline)].
Proof.
  assert (Hh : ex_handles (CommandToBackend Demo.run_id_123) ex_initial
                 (ex_after (LCommand (CommandToBackend Demo.run_id_123)
                            :: [LMain; LMain; LMain]) ex_initial)).
  { eapply ex_handles_after; [by repeat constructor|vm_compute; reflexivity|reflexivity]. }
  destruct (forwarded_command_is_framed
              Demo.interpreter Demo.user Demo.release Demo.serialize
              Demo.getattr Demo.prepare Demo.cwd ex_initial
              (CommandToBackend Demo.run_id_123))
    as (_ & Hall & _); [by exists []|reflexivity|by split|].
  destruct (Hall _ Hh) as (p & Hp & Hev & _).
  split; [exact Hh|]. rewrite Hev. injection Hp as <-. reflexivity.
Defined.




(** A command without a name. *)
Lemma empty_name_raises_first_witness :
  ex_handles (CommandToBackend Demo.nameless) ex_initial
    (ex_after (LCommand (CommandToBackend Demo.nameless) :: [LMain]) ex_initial)
  /\ main_events
       (trace (ex_after (LCommand (CommandToBackend Demo.nameless) :: [LMain])
                 ex_initial))
     = main_events (trace ex_initial)
       ++ [EReceive (CommandToBackend Demo.nameless); ERaise IndexError].
Proof.
  assert (Hh : ex_handles (CommandToBackend Demo.nameless) ex_initial
                 (ex_after (LCommand (CommandToBackend Demo.nameless) :: [LMain])
                    ex_initial)).
  { eapply ex_handles_after; [by repeat constructor|vm_compute; reflexivity|reflexivity]. }
  destruct (empty_name_raises_first
              Demo.interpreter Demo.user Demo.release Demo.serialize
              Demo.getattr Demo.prepare Demo.cwd ex_initial Demo.nameless)
    as (_ & _ & Hall); [by exists []|reflexivity|reflexivity|].
  destruct (Hall _ Hh) as [Hev _].
  split; [exact Hh|exact Hev].
Defined.

(** On an empty host a release version uploads once and a development
    version twice. *)
Example upload_release_twice :
  length (uploads (_upload_main_backend Demo.user Demo.release Demo.install
                     (_upload_main_backend Demo.user Demo.release
                        Demo.install Demo.empty_host))) = 9.
Proof. vm_compute. reflexivity. Qed.

Example upload_development_twice :
  length (uploads (_upload_main_backend Demo.user Demo.development
                     Demo.install
                     (_upload_main_backend Demo.user Demo.development
                        Demo.install Demo.empty_host))) = 18.
Proof. vm_compute. reflexivity. Qed.

(** X15: the deployment directory tells versions and users apart.  The
    directory is ["/tmp/thonny-backend-"], the version, a hyphen and the
    user: for one user two versions have the same directory only when they
    are the same version, so the code of one version is never taken for
    that of another, and for one version two users have the same directory
    only when they are the same user. *)
Theorem program_directory_separates_versions_and_users user user' version version' :
  (_get_remote_program_directory user version
   = _get_remote_program_directory user version' <-> version = version')
  /\ (_get_remote_program_directory user version
      = _get_remote_program_directory user' version <-> user = user')
  /\ Py.startswith (_get_remote_program_directory user version) "/tmp/thonny-backend-"
     = true.
Proof.
  unfold _get_remote_program_directory. split; [|split].
  - split; [|by intros ->]. intros H. apply append_inj_l in H.
    by apply append_inj_r in H.
  - split; [|by intros ->]. intros H. by do 3 apply append_inj_l in H.
  - apply prefix_append.
Qed.

(** After [Execute] worker 1 is alive and is the one [self._proc] names. *)
Lemma at_most_one_live_worker_witness :
  ex_reachable (ex_after Demo.execute_run ex_initial)
  /\ main (ex_after Demo.execute_run ex_initial) = []
  /\ procs (ex_after Demo.execute_run ex_initial) !! 1 = Some (RProc true [])
  /\ _proc (ex_after Demo.execute_run ex_initial) = Some 1.
Proof.
  assert (Hr : ex_reachable (ex_after Demo.execute_run ex_initial))
    by (eapply ex_reachable_after; vm_compute; reflexivity).
  destruct (at_most_one_live_worker
              Demo.interpreter Demo.user Demo.release Demo.serialize
              Demo.getattr Demo.prepare Demo.cwd _ Hr)
    as (_ & _ & Hidle).
  split; [exact Hr|]. split; [reflexivity|]. split; [reflexivity|].
  apply (Hidle eq_refl 1 (RProc true [])); reflexivity.
Defined.

(** After [Execute] the forwarder is thread 1, the second thread. *)
Lemma at_most_one_forwarder_runs_witness :
  ex_reachable (ex_after Demo.execute_run ex_initial)
  /\ S (_response_forwarder (ex_after Demo.execute_run ex_initial))
     = length (threads (ex_after Demo.execute_run ex_initial)).
Proof.
  assert (Hr : ex_reachable (ex_after Demo.execute_run ex_initial))
    by (eapply ex_reachable_after; vm_compute; reflexivity).
  destruct (at_most_one_forwarder_runs
              Demo.interpreter Demo.user Demo.release Demo.serialize
              Demo.getattr Demo.prepare Demo.cwd _ Hr)
    as (Hlast & _).
  split; [exact Hr|exact Hlast].
Defined.

(** The lines thread 0 has relayed are lines of worker 0. *)
Lemma forwarder_relays_its_own_worker_witness :
  ex_reachable (ex_after Demo.three_lines ex_initial)
  /\ (TRelay 0, OWrite (Relayed 0 Demo.result_line))
     ∈ controller_stream (trace (ex_after Demo.three_lines ex_initial))
  /\ forall w p l,
       (w, OWrite (Relayed p l))
       ∈ controller_stream (trace (ex_after Demo.three_lines ex_initial)) ->
       w = TRelay p.
Proof.
  assert (Hr : ex_reachable (ex_after Demo.three_lines ex_initial))
    by (eapply ex_reachable_after; vm_compute; reflexivity).
  destruct (forwarder_relays_its_own_worker
              Demo.interpreter Demo.user Demo.release Demo.serialize
              Demo.getattr Demo.prepare Demo.cwd _ Hr)
    as (_ & _ & Hstream).
  split; [exact Hr|]. split; [|exact Hstream].
  vm_compute. constructor.
Defined.


(** [run_id_123] handled by the main thread alone and among the steps of the
    forwarder and the worker: the main thread does the same. *)
Lemma main_thread_is_schedule_independent_witness :
  ex_handles (CommandToBackend Demo.run_id_123) ex_initial
    (ex_after (LCommand (CommandToBackend Demo.run_id_123) :: Demo.forward_alone)
       ex_initial)
  /\ ex_handles (CommandToBackend Demo.run_id_123) ex_initial
       (ex_after (LCommand (CommandToBackend Demo.run_id_123) :: Demo.forward_among)
          ex_initial)
  /\ main_events
       (trace (ex_after (LCommand (CommandToBackend Demo.run_id_123)
                         :: Demo.forward_alone) ex_initial))
     = main_events
         (trace (ex_after (LCommand (CommandToBackend Demo.run_id_123)
                           :: Demo.forward_among) ex_initial)).
Proof.
  assert (H1 : ex_handles (CommandToBackend Demo.run_id_123) ex_initial
                 (ex_after (LCommand (CommandToBackend Demo.run_id_123)
                            :: Demo.forward_alone) ex_initial)).
  { eapply ex_handles_after; [by repeat constructor|vm_compute; reflexivity|reflexivity]. }
  assert (H2 : ex_handles (CommandToBackend Demo.run_id_123) ex_initial
                 (ex_after (LCommand (CommandToBackend Demo.run_id_123)
                            :: Demo.forward_among) ex_initial)).
  { eapply ex_handles_after; [by repeat constructor|vm_compute; reflexivity|reflexivity]. }
  destruct (main_thread_is_schedule_independent
              Demo.interpreter Demo.user Demo.release Demo.serialize
              Demo.getattr Demo.prepare _ _ _ _ H1 H2)
    as (Hsame & _).
  split; [exact H1|]. split; [exact H2|exact Hsame].
Defined.

(** [run_id_123] leaves the worker, the forwarder and the directory as they
    were. *)
Lemma command_without_capital_keeps_the_worker_witness :
  ex_handles (CommandToBackend Demo.run_id_123) ex_initial
    (ex_after (LCommand (CommandToBackend Demo.run_id_123) :: Demo.forward_alone)
       ex_initial)
  /\ view (ex_after (LCommand (CommandToBackend Demo.run_id_123) :: Demo.forward_alone)
             ex_initial)
     = view ex_initial.
Proof.
  assert (Hh : ex_handles (CommandToBackend Demo.run_id_123) ex_initial
                 (ex_after (LCommand (CommandToBackend Demo.run_id_123)
                            :: Demo.forward_alone) ex_initial)).
  { eapply ex_handles_after; [by repeat constructor|vm_compute; reflexivity|reflexivity]. }
  destruct (command_without_capital_keeps_the_worker
              Demo.interpreter Demo.user Demo.release Demo.serialize
              Demo.getattr Demo.prepare Demo.cwd ex_initial Demo.run_id_123
              "r" "un_id_123")
    as (_ & Hall); [by exists []|reflexivity|reflexivity|reflexivity|].
  destruct (Hall _ Hh) as (Hview & _).
  split; [exact Hh|exact Hview].
Defined.

(** [Ping] is answered by its handler; the main thread is then ready for the
    next message. *)
Lemma local_handler_answers_alone_witness :
  ex_handles (CommandToBackend Demo.Ping) ex_initial
    (ex_after (LCommand (CommandToBackend Demo.Ping)
               :: Demo.restart_schedule ++ Demo.local_schedule) ex_initial)
  /\ main (ex_after (LCommand (CommandToBackend Demo.Ping)
                     :: Demo.restart_schedule ++ Demo.local_schedule) ex_initial) = [].
Proof.
  assert (Hh : ex_handles (CommandToBackend Demo.Ping) ex_initial
                 (ex_after (LCommand (CommandToBackend Demo.Ping)
                            :: Demo.restart_schedule ++ Demo.local_schedule)
                    ex_initial)).
  { eapply ex_handles_after; [by repeat constructor|vm_compute; reflexivity|reflexivity]. }
  destruct (local_handler_answers_alone
              Demo.interpreter Demo.user Demo.release Demo.serialize
              Demo.getattr Demo.prepare Demo.cwd ex_initial Demo.Ping
              "P" "ing" (fun _ => Returns {[ "pong" := "1" ]}) {[ "pong" := "1" ]})
    as (_ & Hall); [by exists []|reflexivity|reflexivity|reflexivity|reflexivity|].
  destruct (Hall _ Hh) as (p & _ & _ & _ & Hdone).
  split; [exact Hh|exact Hdone].
Defined.

(** The forwarder is about to write under the lock when the main thread
    wants to answer [stat_path]: the lock is free after at most four
    statements of the forwarder. *)
Lemma send_message_waits_at_most_four_statements_witness :
  ex_reachable (ex_after Demo.answer_while_relaying ex_initial)
  /\ _response_lock (ex_after Demo.answer_while_relaying ex_initial) = Some (TRelay 0)
  /\ exists n st',
       n <= 4
       /\ ex_run (replicate n
                    (LRelay (_response_forwarder
                               (ex_after Demo.answer_while_relaying ex_initial))))
                 (ex_after Demo.answer_while_relaying ex_initial) = Some st'
       /\ _response_lock st' = None.
Proof.
  assert (Hr : ex_reachable (ex_after Demo.answer_while_relaying ex_initial))
    by (eapply ex_reachable_after; vm_compute; reflexivity).
  destruct (send_message_waits_at_most_four_statements
              Demo.interpreter Demo.user Demo.release Demo.serialize
              Demo.getattr Demo.prepare Demo.cwd _
              (tail (main (ex_after Demo.answer_while_relaying ex_initial))) Hr)
    as (_ & _ & n & st' & Hn & Hrun & _ & Hfree & _); [vm_compute; reflexivity|].
  split; [exact Hr|]. split; [reflexivity|].
  exists n, st'. split; [exact Hn|]. split; [exact Hrun|exact Hfree].
Defined.

(** In the middle of a restart, the main thread waiting in [join], the
    command can still be brought to its end. *)
Lemma main_loop_always_returns_witness :
  ex_reachable (ex_after Demo.discard_while_reading ex_initial)
  /\ exists ls st',
       no_command ls
       /\ ex_run ls (ex_after Demo.discard_while_reading ex_initial) = Some st'
       /\ main st' = [].
Proof.
  assert (Hr : ex_reachable (ex_after Demo.discard_while_reading ex_initial))
    by (eapply ex_reachable_after; vm_compute; reflexivity).
  destruct (main_loop_always_returns
              Demo.interpreter Demo.user Demo.release Demo.serialize
              Demo.getattr Demo.prepare Demo.cwd _ Hr)
    as (ls & st' & Hnc & Hrun & Hdone & _).
  split; [exact Hr|]. exists ls, st'. split; [exact Hnc|]. split; [exact Hrun|exact Hdone].
Defined.

(** What worker 0 is sent for [run_id_123]: the line of the codec and one
    more newline. *)
Lemma forwarded_text_reaches_one_worker_witness :
  ex_handles (CommandToBackend Demo.run_id_123) ex_initial
    (ex_after (LCommand (CommandToBackend Demo.run_id_123) :: Demo.forward_alone)
       ex_initial)
  /\ exists p new,
       _proc (ex_after (LCommand (CommandToBackend Demo.run_id_123)
                        :: Demo.forward_alone) ex_initial) = Some p
       /\ stdin_text p new
          = Demo.serialize (CommandToBackend Demo.run_id_123) 1024 +:+ Demo.newline.
Proof.
  assert (Hh : ex_handles (CommandToBackend Demo.run_id_123) ex_initial
                 (ex_after (LCommand (CommandToBackend Demo.run_id_123)
                            :: Demo.forward_alone) ex_initial)).
  { eapply ex_handles_after; [by repeat constructor|vm_compute; reflexivity|reflexivity]. }
  destruct (forwarded_text_reaches_one_worker
              Demo.interpreter Demo.user Demo.release Demo.serialize
              Demo.getattr Demo.prepare Demo.cwd ex_initial
              (CommandToBackend Demo.run_id_123))
    with (st' := ex_after (LCommand (CommandToBackend Demo.run_id_123)
                           :: Demo.forward_alone) ex_initial)
    as (p & new & Hp & _ & Htext & _);
    [by exists []|reflexivity|by split|exact Hh|].
  split; [exact Hh|]. exists p, new. split; [exact Hp|exact Htext].
Defined.

(** Thread 0 has read three lines and written two of them. *)
Lemma relayed_lines_are_lines_read_witness :
  ex_reachable (ex_after Demo.three_lines ex_initial)
  /\ sublist
       (lines_written (thread_events 0 (trace (ex_after Demo.three_lines ex_initial))))
       (lines_read (thread_events 0 (trace (ex_after Demo.three_lines ex_initial)))).
Proof.
  assert (Hr : ex_reachable (ex_after Demo.three_lines ex_initial))
    by (eapply ex_reachable_after; vm_compute; reflexivity).
  destruct (relayed_lines_are_lines_read
              Demo.interpreter Demo.user Demo.release Demo.serialize
              Demo.getattr Demo.prepare Demo.cwd _ 0 Hr)
    as (Hsub & _).
  split; [exact Hr|exact Hsub].
Defined.


(** The worker has printed two lines and ended; the forwarder, which had not
    passed the test of its loop, ends without reading any of them. *)
Lemma forwarder_reads_once_more_at_most_witness :
  ex_reachable (ex_after Demo.exit_unread ex_initial)
  /\ ended 0 (ex_after Demo.exit_unread ex_initial)
  /\ ex_run Demo.relay_ends (ex_after Demo.exit_unread ex_initial)
     = Some (ex_after (Demo.exit_unread ++ Demo.relay_ends) ex_initial)
  /\ threads (ex_after (Demo.exit_unread ++ Demo.relay_ends) ex_initial) !! 0 = Some RDone
  /\ reads_done 0 (ex_after (Demo.exit_unread ++ Demo.relay_ends) ex_initial)
     = reads_done 0 (ex_after Demo.exit_unread ex_initial).
Proof.
  assert (Hr : ex_reachable (ex_after Demo.exit_unread ex_initial))
    by (eapply ex_reachable_after; vm_compute; reflexivity).
  assert (He : ended 0 (ex_after Demo.exit_unread ex_initial)).
  { eexists. split; [vm_compute; reflexivity|reflexivity]. }
  assert (Hrun : ex_run Demo.relay_ends (ex_after Demo.exit_unread ex_initial)
                 = Some (ex_after (Demo.exit_unread ++ Demo.relay_ends) ex_initial))
    by (vm_compute; reflexivity).
  destruct (forwarder_reads_once_more_at_most
              Demo.interpreter Demo.user Demo.release Demo.serialize
              Demo.getattr Demo.prepare Demo.cwd _ 0 _ _ Hr He Hrun)
    as (_ & Hnone & _).
  split; [exact Hr|]. split; [exact He|]. split; [exact Hrun|].
  split; [reflexivity|]. apply Hnone. reflexivity.
Defined.

(** After [Execute] two workers have been started, and two exist. *)
Lemma input_goes_to_the_newest_worker_witness :
  ex_reachable (ex_after Demo.execute_run ex_initial)
  /\ spawned (trace (ex_after Demo.execute_run ex_initial))
     = length (procs (ex_after Demo.execute_run ex_initial))
  /\ targets_newest (trace (ex_after Demo.execute_run ex_initial)).
Proof.
  assert (Hr : ex_reachable (ex_after Demo.execute_run ex_initial))
    by (eapply ex_reachable_after; vm_compute; reflexivity).
  destruct (input_goes_to_the_newest_worker
              Demo.interpreter Demo.user Demo.release Demo.serialize
              Demo.getattr Demo.prepare Demo.cwd _ Hr)
    as (Hcount & _ & Hnewest & _).
  split; [exact Hr|]. split; [exact Hcount|exact Hnewest].
Defined.

(** While the forwarder is about to write, the main thread, which is between
    two messages, holds no lock. *)
Lemma no_lock_is_leaked_witness :
  ex_reachable (ex_after Demo.about_to_write ex_initial)
  /\ in_block (ex_after Demo.about_to_write ex_initial) (TRelay 0) = true
  /\ _interrupt_lock (ex_after Demo.about_to_write ex_initial) = None
  /\ _response_lock (ex_after Demo.about_to_write ex_initial) <> Some TMain.
Proof.
  assert (Hr : ex_reachable (ex_after Demo.about_to_write ex_initial))
    by (eapply ex_reachable_after; vm_compute; reflexivity).
  destruct (no_lock_is_leaked
              Demo.interpreter Demo.user Demo.release Demo.serialize
              Demo.getattr Demo.prepare Demo.cwd _ Hr)
    as (Hblock & _ & Hidle & _).
  destruct (Hidle eq_refl) as [Hint Hresp].
  split; [exact Hr|]. split; [|split; [exact Hint|exact Hresp]].
  apply Hblock. reflexivity.
Defined.

(** [Execute] replaces worker 0 by worker 1. *)
Lemma worker_is_replaced_by_capital_commands_only_witness :
  ex_handles (CommandToBackend Demo.Execute) ex_initial
    (ex_after Demo.execute_run ex_initial)
  /\ _proc ex_initial = Some 0
  /\ _proc (ex_after Demo.execute_run ex_initial) = Some 1.
Proof.
  assert (Hh : ex_handles (CommandToBackend Demo.Execute) ex_initial
                 (ex_after Demo.execute_run ex_initial)).
  { eapply ex_handles_after; [by repeat constructor|vm_compute; reflexivity|reflexivity]. }
  destruct (worker_is_replaced_by_capital_commands_only
              Demo.interpreter Demo.user Demo.release Demo.serialize
              Demo.getattr Demo.prepare Demo.cwd ex_initial
              (CommandToBackend Demo.Execute) (ex_after Demo.execute_run ex_initial))
    as (_ & Hnew); [by exists []|reflexivity|exact Hh|].
  destruct (Hnew eq_refl) as (p & Hp & Hp' & _).
  injection Hp as <-.
  split; [exact Hh|]. split; [reflexivity|exact Hp'].
Defined.

(** The worker has printed a line: the forwarder reads it within ten
    statements. *)
Lemma printed_line_is_relayed_witness :
  ex_reachable (ex_after [LEmit 0 Demo.result_line] ex_initial)
  /\ exists n st',
       n <= 10
       /\ ex_run (replicate n (LRelay 0)) (ex_after [LEmit 0 Demo.result_line] ex_initial)
          = Some st'
       /\ threads st' !! 0 = Some (RFilter 0 Demo.result_line).
Proof.
  assert (Hr : ex_reachable (ex_after [LEmit 0 Demo.result_line] ex_initial))
    by (eapply ex_reachable_after; vm_compute; reflexivity).
  destruct (printed_line_is_relayed
              Demo.interpreter Demo.user Demo.release Demo.serialize
              Demo.getattr Demo.prepare Demo.cwd _ 0 (RProc true [Demo.result_line])
              Demo.result_line [] Hr)
    as (_ & n & st' & Hn & Hrun & Hpc & _);
    [reflexivity|reflexivity|reflexivity|reflexivity|reflexivity|].
  split; [exact Hr|]. exists n, st'. split; [exact Hn|]. split; [exact Hrun|exact Hpc].
Defined.
